(** * lca_algebraic: the symbolic LCA engine of [lca_algebraic/lca.py]

    A shallow embedding of [lca.py] and the properties of its
    expression builder ([actToExpression]), its symbol allocator
    ([act_to_symbol]), its batch evaluator ([postMultiLCAAlgebric]) and its
    multi-model driver ([multiLCAAlgebric]).

    Modelling conventions.
    - Python exceptions are values of [error]; a function that may raise
      returns a [result].  The recursion of [rec_func] and the [while] loop of
      [act_to_symbol] are driven by a fuel argument and return
      [option (result _)]: [None] means that the fuel ran out, that is, that
      the Python call had not returned yet.
    - Python dictionaries keep their insertion order, and several loops of
      [lca.py] depend on it: they are association lists with unique keys,
      read with [dict_get] and written with [dict_set].
    - Numbers (Python [int]/[float], numpy scalars) are an abstract type
      [num] with the operations of the class [Number]; no law is assumed of
      them, so the statements hold for any arithmetic, rounding included.
      [np.array] gives the elements of a list one numeric type and the table
      of results holds 64-bit floats: both conversions are operations of the
      class ([np_astype], [np_float64]).  [pynumber] is the arithmetic of
      Python integers, 64-bit numpy integers and floats.
    - A sympy expression is a tree.  sympy evaluates an expression when it
      builds it (it multiplies out numbers, drops a product with the factor 0,
      adds up the coefficients of like terms): [a + b], [a * b] and [a / b]
      on sympy expressions are the collaborator [sympy_op], and a statement
      that needs to know something of it assumes [adds_no_symbol], that the
      result has no symbol that the operands have not.  The example models
      use [sympy_evaluate].  A sympy [Symbol] is identified with its name, as
      sympy's equality does.
    - [act.exchanges()] of Brightway lists the exchanges whose output is the
      activity: [own_outputs] and [brightway_data] say so of the activities
      of a database.
    - Collaborators that are not part of [lca.py] (the inventory database,
      the parameter registry, [_completeParamValues], [_actName], the LCA
      solver behind [_multiLCA], the names [BIOSPHERE3_DB_NAME] and
      [ECOINVENT_DB_NAME]) are the fields of a [Collaborators] record that
      every operation receives.
    - A Python [set] is the list of its elements in order of first
      occurrence; Python leaves the order of iteration open.
    - Not modelled: the write of [_getOrCreateDummyBiosphereActCopy] into the
      database (only the key of the proxy activity is), the diagnostics
      printed by [_eprint], and the [ValueError] of [symbols('')] for an
      activity whose name is empty. *)

From Stdlib Require Import List String Ascii Bool Arith Lia.
From Stdlib Require Import DecimalString DecimalNat QArith FinFun.
Import ListNotations.

Set Implicit Arguments.
Local Open Scope string_scope.
Local Open Scope list_scope.
Local Open Scope nat_scope.

(** ** Keys with decidable equality (Python's [__eq__] on dictionary keys) *)

Class EqDec (A : Type) := eq_dec : forall x y : A, {x = y} + {x <> y}.

#[export] Instance string_EqDec : EqDec string := string_dec.

#[export] Instance pair_EqDec {A B} `{EqDec A} `{EqDec B} : EqDec (A * B).
Proof. intros [a b] [a' b']; destruct (eq_dec a a'), (eq_dec b b'); subst;
  (left; reflexivity) || (right; congruence). Defined.

(** Python's [==] as a boolean. *)
Definition py_eq {A} `{EqDec A} (x y : A) : bool :=
  if eq_dec x y then true else false.

(** Python's [in] on a list. *)
Definition mem {A} `{EqDec A} (x : A) (l : list A) : bool :=
  if in_dec eq_dec x l then true else false.

(** The elements of a Python [set] built from [l], in order of first occurrence. *)
Fixpoint dedup {A} `{EqDec A} (l : list A) : list A :=
  match l with
  | [] => []
  | x :: r => if mem x r then dedup r else x :: dedup r
  end.

(** Case analysis on every equality test of the goal. *)
Ltac case_dec :=
  repeat match goal with
         | |- context [@eq_dec ?T ?I ?x ?y] => destruct (@eq_dec T I x y)
         end.

(** ** Insertion-ordered dictionaries *)

Section PyDict.
Context {K V : Type} `{EqDec K}.

Definition dict := list (K * V).

Fixpoint dict_get (k : K) (d : dict) : option V :=
  match d with
  | [] => None
  | (k', v) :: r => if eq_dec k k' then Some v else dict_get k r
  end.

(** [d[k] = v]: an existing key keeps its position, a new one goes last. *)
Fixpoint dict_set (k : K) (v : V) (d : dict) : dict :=
  match d with
  | [] => [(k, v)]
  | (k', v') :: r =>
      if eq_dec k k' then (k', v) :: r else (k', v') :: dict_set k v r
  end.

Definition dict_keys (d : dict) : list K := map fst d.
Definition dict_values (d : dict) : list V := map snd d.
Definition dict_mem (k : K) (d : dict) : bool :=
  match dict_get k d with Some _ => true | None => false end.
End PyDict.

Arguments dict K V : clear implicits.

(** ** Exceptions *)

Definition key := (string * string)%type.   (* (database name, code) *)

Inductive error :=
| RecursiveExchange (act : key)          (* "Recursive exchange : ..." *)
| UnknownParams (missing : list string)  (* "Unkown params : ..." *)
| ShapeMismatch    (* "Parameters should be a single value or a list of same number of values" *)
| UnknownObject (k : key)                (* [_getDb(db).get(code)] finds nothing *)
| ZeroDivisionError
| AttributeError
| TypeError
| ValueError
| IndexError
| NameError (s : string)
| KeyError (s : string)
| CollaboratorError (msg : string).      (* raised inside a collaborator *)

Inductive result (A : Type) := Ok (a : A) | Err (e : error).
Arguments Ok {A} a.
Arguments Err {A} e.

Definition rbind {A B} (m : result A) (k : A -> result B) : result B :=
  match m with Ok a => k a | Err e => Err e end.

(** Computations that may also run out of fuel. *)
Definition fueled (A : Type) := option (result A).

Definition fret {A} (a : A) : fueled A := Some (Ok a).
Definition fraise {A} (e : error) : fueled A := Some (Err e).
Definition fbind {A B} (m : fueled A) (k : A -> fueled B) : fueled B :=
  match m with
  | None => None
  | Some (Err e) => Some (Err e)
  | Some (Ok a) => k a
  end.

Declare Scope result_scope.
Delimit Scope result_scope with res.
Notation "x <- m ;; k" := (rbind m (fun x => k))
  (at level 61, m at next level, right associativity) : result_scope.
Notation "' p <- m ;; k" := (rbind m (fun p => k))
  (at level 61, p pattern, m at next level, right associativity) : result_scope.

Declare Scope fueled_scope.
Delimit Scope fueled_scope with fuel.
Notation "x <- m ;; k" := (fbind m (fun x => k))
  (at level 61, m at next level, right associativity) : fueled_scope.
Notation "' p <- m ;; k" := (fbind m (fun p => k))
  (at level 61, p pattern, m at next level, right associativity) : fueled_scope.

(** ** Numbers *)

Class Number (num : Type) := {
  num0 : num;
  num1 : num;
  nadd : num -> num -> num;
  nsub : num -> num -> num;
  nmul : num -> num -> num;
  ndiv : num -> num -> num;
  num_eqb : num -> num -> bool;    (* Python's [==] on numbers *)
  np_astype : list num -> num -> num;   (* an element of [xs] as [np.array(xs)] holds it *)
  np_float64 : num -> num          (* a value as an array of 64-bit floats holds it *)
}.

(** [np.array(xs)] for a list of numbers: every element is converted to the
    numeric type that numpy finds for the whole list. *)
Definition np_array {num} `{Number num} (xs : list num) : list num :=
  map (np_astype xs) xs.

(** ** [_slugify]: [re.sub('[^0-9a-zA-Z]+', '_', str)] *)

Definition is_alnum (c : ascii) : bool :=
  let n := nat_of_ascii c in
  ((48 <=? n) && (n <=? 57)) || ((65 <=? n) && (n <=? 90))
  || ((97 <=? n) && (n <=? 122)).

(** [in_run] tells that the previous character was already replaced. *)
Fixpoint slugify_from (in_run : bool) (s : string) : string :=
  match s with
  | EmptyString => EmptyString
  | String c r =>
      if is_alnum c then String c (slugify_from false r)
      else if in_run then slugify_from true r
      else String "_" (slugify_from true r)
  end.

Definition _slugify (s : string) : string := slugify_from false s.

(** [str(i)] for a non-negative integer. *)
Definition decimal (i : nat) : string := NilEmpty.string_of_uint (Nat.to_uint i).

(** ** Data model *)

Inductive binop := OAdd | OSub | OMul | ODiv.

Section Model.
Context (num : Type) {NUM : Number num}.

Definition binop_apply (op : binop) : num -> num -> num :=
  match op with OAdd => nadd | OSub => nsub | OMul => nmul | ODiv => ndiv end.

(** A sympy expression over symbols (activities and parameters). *)
Inductive expr :=
| Num (x : num)
| Sym (s : string)
| Bin (op : binop) (a b : expr).

Fixpoint free_symbols (e : expr) : list string :=
  match e with
  | Num _ => []
  | Sym s => [s]
  | Bin _ a b => free_symbols a ++ free_symbols b
  end.

(** ** The evaluation that sympy performs when it builds a sum or a product

    [Add] and [Mul] of sympy flatten their arguments.  A product becomes a
    numeric coefficient and its other factors, each a base with an integer
    exponent; the exponents of equal bases are added and a base of exponent 0
    is dropped, so that [x / x] is 1.  A sum adds up the coefficients of the
    terms that have the same factors and drops the terms whose coefficient
    is 0, so that [x - x] is 0.  A number times a sum is multiplied out.  Two
    expressions are the same when they are so up to the order of their terms
    and factors.  A difference [a - b] is [a + (-1) * b], a quotient [a / b]
    is [a * b ** -1], and a quotient whose divisor has the coefficient 0 is
    left as it is.  The trees have no node for a power: a power is written as
    a repeated factor, above or below the bar of a quotient.  Functions,
    assumptions on symbols and the order in which sympy prints the arguments
    are not covered. *)

Definition binop_eqb (o o' : binop) : bool :=
  match o, o' with
  | OAdd, OAdd | OSub, OSub | OMul, OMul | ODiv, ODiv => true
  | _, _ => false
  end.

Fixpoint expr_eqb (a b : expr) : bool :=
  match a, b with
  | Num x, Num y => num_eqb x y
  | Sym s, Sym t => py_eq s t
  | Bin o a1 a2, Bin o' b1 b2 => binop_eqb o o' && expr_eqb a1 b1 && expr_eqb a2 b2
  | _, _ => false
  end.

Fixpoint size (e : expr) : nat :=
  match e with
  | Bin _ a b => S (size a + size b)
  | _ => 1
  end.

(** A factor of a product, a base and its exponent, and a term of a sum, a
    coefficient and its factors. *)
Definition factor := (expr * Z)%type.
Definition term := (num * list factor)%type.

Definition is_sum (e : expr) : bool :=
  match e with Bin OAdd _ _ | Bin OSub _ _ => true | _ => false end.

Definition negate (t : term) : term := (nmul (nsub num0 num1) (fst t), snd t).

Definition inverse (fs : list factor) : list factor :=
  map (fun f => (fst f, (- snd f)%Z)) fs.

Definition nonzero (ts : list term) : list term :=
  filter (fun t => negb (num_eqb (fst t) num0)) ts.

Section Flatten.
(** The test that tells two bases apart. *)
Variable eqb : expr -> expr -> bool.

(** One more factor: its exponent is added to that of the factor with the
    same base when there is one. *)
Fixpoint add_factor (f : factor) (fs : list factor) : list factor :=
  match fs with
  | [] => [f]
  | g :: r =>
      if eqb (fst f) (fst g)
      then if (snd g + snd f =? 0)%Z then r else (fst g, (snd g + snd f)%Z) :: r
      else g :: add_factor f r
  end.

Definition mul_factors (fs gs : list factor) : list factor :=
  fold_left (fun acc g => add_factor g acc) gs fs.

(** [as_coeff_mul]: the coefficient and the factors of a product. *)
Fixpoint as_coeff_mul (e : expr) : term :=
  match e with
  | Num x => (x, [])
  | Bin OMul a b =>
      let '(ca, fa) := as_coeff_mul a in
      let '(cb, fb) := as_coeff_mul b in
      (nmul ca cb, mul_factors fa fb)
  | Bin ODiv a b =>
      let '(ca, fa) := as_coeff_mul a in
      let '(cb, fb) := as_coeff_mul b in
      if num_eqb cb num0 then (num1, [(e, 1%Z)])
      else (nmul ca (ndiv num1 cb), mul_factors fa (inverse fb))
  | _ => (num1, [(e, 1%Z)])
  end.

(** The terms of a sum. *)
Fixpoint as_terms (e : expr) : list term :=
  match e with
  | Bin OAdd a b => as_terms a ++ as_terms b
  | Bin OSub a b => as_terms a ++ map negate (as_terms b)
  | _ => [as_coeff_mul e]
  end.

(** The same factors, in any order. *)
Definition same_factors (l1 l2 : list factor) : bool :=
  (List.length l1 =? List.length l2)
  && forallb (fun f => existsb (fun g => eqb (fst f) (fst g) && (snd f =? snd g)%Z) l2) l1.

(** One more term: its coefficient is added to that of the term with the
    same factors when there is one. *)
Fixpoint add_term (t : term) (ts : list term) : list term :=
  match ts with
  | [] => [t]
  | t' :: r =>
      if same_factors (snd t) (snd t') then (nadd (fst t') (fst t), snd t') :: r
      else t' :: add_term t r
  end.

Definition collect (ts : list term) : list term :=
  fold_left (fun acc t => add_term t acc) ts [].

(** The same terms, in any order. *)
Definition same_terms (l1 l2 : list term) : bool :=
  (List.length l1 =? List.length l2)
  && forallb (fun t => existsb (fun t' => num_eqb (fst t) (fst t')
                                          && same_factors (snd t) (snd t')) l2) l1.

End Flatten.

(** Equality up to the order of terms and factors, down to the depth [fuel]. *)
Fixpoint eq_ac (fuel : nat) (a b : expr) : bool :=
  match fuel with
  | 0 => expr_eqb a b
  | S fuel' =>
      same_terms (eq_ac fuel')
        (nonzero (collect (eq_ac fuel') (as_terms (eq_ac fuel') a)))
        (nonzero (collect (eq_ac fuel') (as_terms (eq_ac fuel') b)))
  end.

(** The tree of a product of factors. *)
Definition power (f : factor) : list expr := repeat (fst f) (Z.abs_nat (snd f)).

Definition product (l : list expr) : expr :=
  match l with
  | [] => Num num1
  | f :: r => fold_left (Bin OMul) r f
  end.

Definition mk_prod (fs : list factor) : expr :=
  let above := flat_map power (filter (fun f => (0 <? snd f)%Z) fs) in
  match flat_map power (filter (fun f => (snd f <? 0)%Z) fs) with
  | [] => product above
  | below => Bin ODiv (product above) (product below)
  end.

Definition mk_term (t : term) : expr :=
  match snd t with
  | [] => Num (fst t)
  | fs => if num_eqb (fst t) num1 then mk_prod fs else Bin OMul (Num (fst t)) (mk_prod fs)
  end.

Definition mk_sum (ts : list term) : expr :=
  match nonzero ts with
  | [] => Num num0
  | t :: r => fold_left (fun acc t' => Bin OAdd acc (mk_term t')) r (mk_term t)
  end.

(** [a op b] for two expressions that sympy holds. *)
Definition evaluate (op : binop) (a b : expr) : expr :=
  let eqb := eq_ac (size a + size b) in
  match op with
  | OAdd | OSub => mk_sum (collect eqb (as_terms eqb (Bin op a b)))
  | OMul | ODiv =>
      let '(c, fs) := as_coeff_mul eqb (Bin op a b) in
      if num_eqb c num0 then Num num0
      else match fs with
           | [f] =>
               if (snd f =? 1)%Z && is_sum (fst f) && negb (num_eqb c num1)
               then mk_sum (collect eqb (map (fun t => (nmul c (fst t), snd t))
                                             (as_terms eqb (fst f))))
               else mk_term (c, fs)
           | _ => mk_term (c, fs)
           end
  end.

(** A tree as sympy holds it: evaluated from the leaves up. *)
Fixpoint sympify (e : expr) : expr :=
  match e with
  | Bin op a b => evaluate op (sympify a) (sympify b)
  | _ => e
  end.

(** [a op b] for two sympy expressions. *)
Definition sympy_evaluate (op : binop) (a b : expr) : expr :=
  evaluate op (sympify a) (sympify b).

(** The symbols of a list of factors and of a list of terms. *)
Definition factors_symbols (fs : list factor) : list string :=
  flat_map (fun f => free_symbols (fst f)) fs.

(** What [_getAmountOrFormula(exch)] returns: a Python number, a sympy
    expression over the parameters, or a Python function. *)
Inductive amount_or_formula :=
| Literal (x : num)
| Formula (e : expr)
| OpaqueFunction.

Record Exchange := {
  exch_input : key;                   (* exch['input'] *)
  exch_output : key;                  (* exch['output'] *)
  exch_amount : num;                  (* exch['amount'] *)
  exch_formula : amount_or_formula    (* _getAmountOrFormula(exch) *)
}.

Record Activity := {
  act_database : string;              (* act['database'] *)
  act_code : string;                  (* act['code'] *)
  act_name : string;                  (* act['name'] *)
  act_exchanges : list Exchange       (* act.exchanges() *)
}.

Definition act_key (a : Activity) : key := (act_database a, act_code a).

(** Brightway's [act.exchanges()] selects the stored exchanges whose output
    is the key of [act]. *)
Definition own_outputs (a : Activity) : Prop :=
  forall e, In e (act_exchanges a) -> exch_output e = act_key a.

(** An impact method; [method_name] reads its last two components. *)
Definition method := (string * string * string)%type.

Definition method_name (m : method) : string :=
  let '(_, m1, m2) := m in m1 ++ " - " ++ m2.

(** A parameter value as the caller supplies it: a number, a Python list
    of samples, or a sequence of another type (tuple, numpy array). *)
Inductive pval :=
| Scalar (x : num)
| PyList (xs : list num)
| OtherSeq (xs : list num).

Definition params := dict string pval.

(** An entry of the parameter registry. *)
Record ParamDef := {
  p_name : string;                    (* param.name *)
  p_names : list string;              (* param.names() *)
  p_default : pval                    (* param.default *)
}.

(** The collaborators of [lca.py]. *)
Record Collaborators := {
  BIOSPHERE3_DB_NAME : string;
  ECOINVENT_DB_NAME : string;
  activities : list Activity;                        (* behind [_getDb] *)
  _param_registry : dict string ParamDef;
  _completeParamValues : params -> result params;
  _actName : Activity -> string;
  lca_score : method -> key -> num;                  (* behind [_multiLCA] *)
  sympy_op : binop -> expr -> expr -> expr           (* [a + b], [a * b], [a / b] of sympy *)
}.

(** ** Python values met while an expression is built *)

Inductive pyval :=
| PyNum (x : num)       (* a plain Python number *)
| SymE (e : expr).      (* a sympy expression *)

Definition to_expr (v : pyval) : expr :=
  match v with PyNum x => Num x | SymE e => e end.

Definition pyval_symbols (v : pyval) : list string := free_symbols (to_expr v).

Definition formula_value (f : amount_or_formula) : pyval :=
  match f with
  | Literal x => PyNum x
  | Formula e => SymE e
  | OpaqueFunction => PyNum num0      (* never read: such exchanges are skipped *)
  end.

(** ** [actToExpression] *)

(** [act_symbols]: the symbol of each background activity met so far. *)
Definition symtab := dict key string.

Section WithCollaborators.
Variable ctx : Collaborators.

(** [_getDb(db_name).get(code)] *)
Definition getAct (k : key) : option Activity :=
  find (fun a => py_eq (act_key a) k) (activities ctx).

Definition is_background (db_name : string) : bool :=
  mem db_name [BIOSPHERE3_DB_NAME ctx; ECOINVENT_DB_NAME ctx].

(** Python's [*], [+] and [/] on a number or a sympy expression: two plain
    numbers are combined by Python, anything else by sympy. *)
Definition py_mul (a b : pyval) : pyval :=
  match a, b with
  | PyNum x, PyNum y => PyNum (nmul x y)
  | _, _ => SymE (sympy_op ctx OMul (to_expr a) (to_expr b))
  end.

Definition py_add (a b : pyval) : pyval :=
  match a, b with
  | PyNum x, PyNum y => PyNum (nadd x y)
  | _, _ => SymE (sympy_op ctx OAdd (to_expr a) (to_expr b))
  end.

(** [a / d] for a Python number [d]: Python raises on two plain numbers
    when [d == 0], sympy does not. *)
Definition py_div (a : pyval) (d : num) : result pyval :=
  match a with
  | PyNum x => if num_eqb d num0 then Err ZeroDivisionError else Ok (PyNum (ndiv x d))
  | SymE e => Ok (SymE (sympy_op ctx ODiv e (Num d)))
  end.

(** The [while] loop of [act_to_symbol]: [slug] is the current candidate
    and [i] the next suffix. *)
Fixpoint find_free (fuel : nat) (used : list string) (base_slug slug : string)
    (i : nat) : option string :=
  if mem slug used then
    match fuel with
    | 0 => None
    | S fuel' => find_free fuel' used base_slug (base_slug ++ decimal i) (S i)
    end
  else Some slug.

Definition act_to_symbol (act_symbols : symtab) (k : key) : fueled string :=
  match getAct k with
  | None => fraise (UnknownObject k)
  | Some act =>
      let base_slug := _slugify (act_name act) in
      option_map Ok
        (find_free (List.length act_symbols) (dict_values act_symbols) base_slug base_slug 1)
  end.

(** Lines 295-297 of [rec_func]: the symbol of a background activity,
    allocated on first use. *)
Definition symbol_for (act_symbols : symtab) (k : key) : fueled (string * symtab) :=
  match dict_get k act_symbols with
  | Some s => fret (s, act_symbols)
  | None =>
      (s <- act_to_symbol act_symbols k ;;
       fret (s, dict_set k s act_symbols))%fuel
  end.

(** The local variables of [rec_func] and the shared [act_symbols]. *)
Record loop_state := {
  res : pyval;
  outputAmount : num;
  act_symbols : symtab
}.

(** Lines 293-306: the expression that stands for the input of [exch], a
    symbol for a background activity and the expression of the activity
    itself otherwise; [rec] is the recursive call. *)
Definition input_expr (rec : Activity -> symtab -> fueled (pyval * symtab))
    (act : Activity) (exch : Exchange) (st : symtab) : fueled (pyval * symtab) :=
  if is_background (fst (exch_input exch)) then
    ('(sym, st') <- symbol_for st (exch_input exch) ;;
     fret (SymE (Sym sym), st'))%fuel
  else if py_eq (fst (exch_input exch)) (act_database act)
          && py_eq (snd (exch_input exch)) (act_code act)
  then fraise (RecursiveExchange (act_key act))
  else
    match getAct (exch_input exch) with
    | None => fraise (UnknownObject (exch_input exch))
    | Some sub_act => rec sub_act st
    end.

(** The body of the [for exch in act.exchanges()] loop: the state after
    the exchange [exch]. *)
Definition exch_step (rec : Activity -> symtab -> fueled (pyval * symtab))
    (act : Activity) (exch : Exchange) (s : loop_state) : fueled loop_state :=
  match exch_formula exch with
  | OpaqueFunction => fret s                      (* continue *)
  | formula =>
      if py_eq (exch_input exch) (exch_output exch) then
        fret (if num_eqb (exch_amount exch) num1 then s
              else {| res := res s; outputAmount := exch_amount exch;
                      act_symbols := act_symbols s |})
      else
        ('(act_expr, st') <- input_expr rec act exch (act_symbols s) ;;
         fret {| res := py_add (res s) (py_mul (formula_value formula) act_expr);
                 outputAmount := outputAmount s;
                 act_symbols := st' |})%fuel
  end.

Fixpoint exch_loop (rec : Activity -> symtab -> fueled (pyval * symtab))
    (act : Activity) (exs : list Exchange) (s : loop_state) : fueled loop_state :=
  match exs with
  | [] => fret s
  | exch :: rest =>
      (s' <- exch_step rec act exch s ;; exch_loop rec act rest s')%fuel
  end.

Definition initial_state (st : symtab) : loop_state :=
  {| res := PyNum num0; outputAmount := num1; act_symbols := st |}.

Fixpoint rec_func (fuel : nat) (act : Activity) (st : symtab)
    : fueled (pyval * symtab) :=
  match fuel with
  | 0 => None
  | S fuel' =>
      (s <- exch_loop (rec_func fuel') act (act_exchanges act) (initial_state st) ;;
       match py_div (res s) (outputAmount s) with
       | Ok v => fret (v, act_symbols s)
       | Err e => fraise e
       end)%fuel
  end.

Definition _reverse_dict {K V} `{EqDec V} (dic : dict K V) : dict V K :=
  fold_left (fun acc kv => dict_set (snd kv) (fst kv) acc) dic [].

Definition actToExpression (fuel : nat) (act : Activity)
    : fueled (pyval * dict string key) :=
  ('(e, st) <- rec_func fuel act [] ;;
   fret (e, _reverse_dict st))%fuel.


(** ** numpy arrays of rank at most two and their broadcasting *)

Inductive ndarray :=
| Nd0 (x : num)                   (* a scalar *)
| Nd1 (xs : list num)             (* shape (n,) *)
| Nd2 (rows : list (list num)).   (* shape (m, k) *)

Fixpoint zip_with (f : num -> num -> num) (xs ys : list num) : list num :=
  match xs, ys with
  | x :: xs', y :: ys' => f x y :: zip_with f xs' ys'
  | _, _ => []
  end.

(** Two axes are combined when they have the same length or one has length 1. *)
Definition bcast1 (f : num -> num -> num) (xs ys : list num) : result (list num) :=
  if List.length xs =? List.length ys then Ok (zip_with f xs ys)
  else match xs, ys with
       | [x], _ => Ok (map (f x) ys)
       | _, [y] => Ok (map (fun a => f a y) xs)
       | _, _ => Err ValueError
       end.

Fixpoint sequence {A} (l : list (result A)) : result (list A) :=
  match l with
  | [] => Ok []
  | m :: r => (a <- m ;; r' <- sequence r ;; Ok (a :: r'))%res
  end.

Fixpoint zip_rows (f : num -> num -> num) (r1 r2 : list (list num))
    : list (result (list num)) :=
  match r1, r2 with
  | x :: r1', y :: r2' => bcast1 f x y :: zip_rows f r1' r2'
  | _, _ => []
  end.

Definition bcast2 (f : num -> num -> num) (r1 r2 : list (list num))
    : result (list (list num)) :=
  if List.length r1 =? List.length r2 then sequence (zip_rows f r1 r2)
  else match r1, r2 with
       | [x], _ => sequence (map (bcast1 f x) r2)
       | _, [y] => sequence (map (fun a => bcast1 f a y) r1)
       | _, _ => Err ValueError
       end.

Definition np_binop (f : num -> num -> num) (a b : ndarray) : result ndarray :=
  match a, b with
  | Nd0 x, Nd0 y => Ok (Nd0 (f x y))
  | Nd0 x, Nd1 ys => Ok (Nd1 (map (f x) ys))
  | Nd1 xs, Nd0 y => Ok (Nd1 (map (fun a => f a y) xs))
  | Nd1 xs, Nd1 ys => (r <- bcast1 f xs ys ;; Ok (Nd1 r))%res
  | Nd0 x, Nd2 r2 => Ok (Nd2 (map (map (f x)) r2))
  | Nd2 r1, Nd0 y => Ok (Nd2 (map (map (fun a => f a y)) r1))
  | Nd1 xs, Nd2 r2 => (r <- bcast2 f [xs] r2 ;; Ok (Nd2 r))%res
  | Nd2 r1, Nd1 ys => (r <- bcast2 f r1 [ys] ;; Ok (Nd2 r))%res
  | Nd2 r1, Nd2 r2 => (r <- bcast2 f r1 r2 ;; Ok (Nd2 r))%res
  end.

(** ** Compiled functions: [expr.xreplace(sub)] and [lambdify(names, expr, 'numpy')] *)

(** Every symbol of [sub] is replaced by its number.  sympy evaluates the
    result again, which may remove symbols (a factor 0 removes what it
    multiplies) but leaves the value of the compiled function as it is; the
    function is compiled from the substituted tree. *)
Fixpoint xreplace (sub : dict string num) (e : expr) : expr :=
  match e with
  | Num x => Num x
  | Sym s => match dict_get s sub with Some v => Num v | None => Sym s end
  | Bin op a b => Bin op (xreplace sub a) (xreplace sub b)
  end.

(** The function that [lambdify] returns: its argument names and its body. *)
Record Lambda := {
  lam_args : list string;
  lam_body : expr
}.

Definition lambdify (names : list string) (e : expr) : Lambda :=
  {| lam_args := names; lam_body := e |}.

(** The body evaluated on numpy arrays; a symbol that is no argument is an
    unbound name. *)
Fixpoint np_eval (env : dict string ndarray) (e : expr) : result ndarray :=
  match e with
  | Num x => Ok (Nd0 x)
  | Sym s => match dict_get s env with Some a => Ok a | None => Err (NameError s) end
  | Bin op a b =>
      (x <- np_eval env a ;; y <- np_eval env b ;; np_binop (binop_apply op) x y)%res
  end.

(** Calling the function with [kwargs] as keyword arguments: every argument
    must be given and nothing else. *)
Definition call_lambda (lambd : Lambda) (kwargs : dict string ndarray) : result ndarray :=
  if forallb (fun a => dict_mem a kwargs) (lam_args lambd)
     && forallb (fun k => mem k (lam_args lambd)) (dict_keys kwargs)
  then np_eval kwargs (lam_body lambd)
  else Err TypeError.

(** ** Result tables (pandas [DataFrame]) *)

Inductive label := Idx (i : nat) | Name (s : string).

Record DataFrame := {
  df_index : list label;        (* row labels *)
  df_columns : list string;     (* column labels *)
  df_rows : list (list num)     (* one list per row *)
}.

(** [pd.DataFrame(res, index=names).transpose()] for [res] of shape
    [(len names, n)]: one row per sample, one column per method. *)
Definition frame_of_matrix (names : list string) (n : nat) (res : list (list num))
    : DataFrame :=
  {| df_index := map Idx (seq 0 n);
     df_columns := names;
     df_rows := map (fun i => map (fun r => nth i r num0) res) (seq 0 n) |}.

(** [df.rename(index={0: name})] *)
Definition rename_index_0 (name : string) (df : DataFrame) : DataFrame :=
  {| df_index := map (fun l => match l with Idx 0 => Name name | _ => l end) (df_index df);
     df_columns := df_columns df;
     df_rows := df_rows df |}.

(** [pd.concat(dfs)] for tables with the same columns. *)
Definition pd_concat (dfs : list DataFrame) : result DataFrame :=
  match dfs with
  | [] => Err ValueError
  | df :: _ =>
      Ok {| df_index := flat_map df_index dfs;
            df_columns := df_columns df;
            df_rows := flat_map df_rows dfs |}
  end.

(** ** [postMultiLCAAlgebric] *)

(** Lines 126-133: the length of the sample vectors. *)
Fixpoint param_length_loop (ps : params) (param_length : nat) : result nat :=
  match ps with
  | [] => Ok param_length
  | (_, PyList val) :: r =>
      if param_length =? 1 then param_length_loop r (List.length val)
      else if negb (param_length =? List.length val) then Err ShapeMismatch
      else param_length_loop r param_length
  | _ :: r => param_length_loop r param_length
  end.

(** Lines 136-140: [np.array(val)] for a list, [np.array([val] * param_length)]
    for anything else. *)
Definition expand_value (param_length : nat) (val : pval) : ndarray :=
  match val with
  | PyList xs => Nd1 (np_array xs)
  | Scalar x => Nd1 (np_array (repeat x param_length))
  | OtherSeq xs =>
      match param_length with
      | 0 => Nd1 []
      | _ => Nd2 (repeat (np_array xs) param_length)
      end
  end.

Definition expand_params (param_length : nat) (ps : params) : dict string ndarray :=
  map (fun kv => (fst kv, expand_value param_length (snd kv))) ps.

(** [alpha * a] *)
Definition scale (alpha : num) (a : ndarray) : ndarray :=
  match a with
  | Nd0 x => Nd0 (nmul alpha x)
  | Nd1 xs => Nd1 (map (nmul alpha) xs)
  | Nd2 rows => Nd2 (map (map (nmul alpha)) rows)
  end.

(** The values that [res[imethod, :] = a] writes into a row of length [n]
    of [res], an array of 64-bit floats. *)
Definition as_row (n : nat) (a : ndarray) : result (list num) :=
  match a with
  | Nd0 x => Ok (repeat (np_float64 x) n)
  | Nd1 xs | Nd2 [xs] =>
      if List.length xs =? n then Ok (map np_float64 xs)
      else match xs with [x] => Ok (repeat (np_float64 x) n) | _ => Err ValueError end
  | Nd2 _ => Err ValueError
  end.

Fixpoint set_row (i : nat) (row : list num) (res : list (list num))
    : result (list (list num)) :=
  match res, i with
  | [], _ => Err IndexError
  | _ :: r, 0 => Ok (row :: r)
  | x :: r, S i' => (r' <- set_row i' row r ;; Ok (x :: r'))%res
  end.

(** Lines 145-146: the loop over the compiled functions. *)
Fixpoint lambdas_loop (alpha : num) (kwargs : dict string ndarray) (n : nat)
    (imethod : nat) (lambdas : list Lambda) (res : list (list num))
    : result (list (list num)) :=
  match lambdas with
  | [] => Ok res
  | lambd :: rest =>
      (v <- call_lambda lambd kwargs ;;
       row <- as_row n (scale alpha v) ;;
       res' <- set_row imethod row res ;;
       lambdas_loop alpha kwargs n (S imethod) rest res')%res
  end.

Definition postMultiLCAAlgebric (methods : list method) (lambdas : list Lambda)
    (alpha : num) (ps : params) : result DataFrame :=
  (ps <- _completeParamValues ctx ps ;;
   param_length <- param_length_loop ps 1 ;;
   let kwargs := expand_params param_length ps in
   let res := repeat (repeat (np_float64 num0) param_length) (List.length methods) in
   res <- lambdas_loop alpha kwargs param_length 0 lambdas res ;;
   Ok (frame_of_matrix (map method_name methods) param_length res))%res.

(** ** The parameter registry *)

Definition _expand_param_names (param_names : list string) : result (list string) :=
  (ll <- sequence (map (fun key =>
           match dict_get key (_param_registry ctx) with
           | Some p => Ok (p_names p)
           | None => Err (KeyError key)
           end) param_names) ;;
   Ok (List.concat ll))%res.

Definition _expanded_names_to_names (param_names : list string) : result (list string) :=
  let param_names := dedup param_names in
  let res :=
    fold_left (fun res param =>
      fold_left (fun res name =>
        if mem name param_names then dict_set name param res else res)
        (p_names param) res)
      (dict_values (_param_registry ctx)) [] in
  let missing := filter (fun n => negb (mem n (dict_keys res))) param_names in
  match missing with
  | [] => Ok (dedup (map p_name (dict_values res)))
  | _ => Err (UnknownParams missing)
  end.

(** ** [preMultiLCAAlgebric] *)

(** The activity that stands for a symbol in the background computation: a
    biosphere flow is replaced by its proxy in the model's database
    ([_getOrCreateDummyBiosphereActCopy]; creating it is not modelled). *)
Definition pure_tech_act (dbname : string) (k : key) : key :=
  if py_eq (fst k) (BIOSPHERE3_DB_NAME ctx) then (dbname, (snd k ++ "#asTech")%string) else k.

Definition preMultiLCAAlgebric (fuel : nat) (model : Activity) (methods : list method)
    : fueled (list Lambda * list string) :=
  ('(e, actBySymbolName) <- actToExpression fuel model ;;
   let dbname := act_database model in
   match e with
   | PyNum _ => fraise AttributeError       (* a Python number has no free_symbols *)
   | SymE e =>
       let free_names := dedup (free_symbols e) in
       let act_names := dict_keys actBySymbolName in
       let expected_names := filter (fun n => negb (mem n act_names)) free_names in
       Some
         (names <- _expanded_names_to_names expected_names ;;
          expected_names <- _expand_param_names names ;;
          let pureTechActBySymbol :=
            map (fun kv => (fst kv, pure_tech_act dbname (snd kv))) actBySymbolName in
          let lambdas :=
            map (fun method =>
                   let sub := map (fun kv => (fst kv, lca_score ctx method (snd kv)))
                                  pureTechActBySymbol in
                   lambdify expected_names (xreplace sub e))
                methods in
          Ok (lambdas, expected_names))%res
   end)%fuel.

(** ** [multiLCAAlgebric] *)

Inductive model_arg :=
| Model (model : Activity)
| Scaled (model : Activity) (alpha : num).    (* a (model, alpha) tuple *)

Inductive models_arg :=
| Single (m : model_arg)
| ModelList (ms : list model_arg).

(** Lines 200-204: missing names get the default of the registry. *)
Fixpoint fill_defaults (expected_params : list string) (ps : params) : result params :=
  match expected_params with
  | [] => Ok ps
  | expected_name :: rest =>
      if dict_mem expected_name ps then fill_defaults rest ps
      else match dict_get expected_name (_param_registry ctx) with
           | Some p => fill_defaults rest (dict_set expected_name (p_default p) ps)
           | None => Err (KeyError expected_name)
           end
  end.

(** Lines 207-212 *)
Definition filter_params (expected_params : list string) (ps : params) : params :=
  filter (fun kv => mem (fst kv) expected_params) ps.

Definition model_of (m : model_arg) : Activity :=
  match m with Model model => model | Scaled model _ => model end.

(** Lines 191-220 for one model: the caller's [params] dictionary [ps] after
    the defaults were added, and the table of the model. *)
Definition model_table (fuel : nat) (methods : list method) (m : model_arg)
    (ps : params) : fueled (params * DataFrame) :=
  let '(model, alpha) :=
    match m with Model model => (model, num1) | Scaled model alpha => (model, alpha) end in
  ('(lambdas, expected_names) <- preMultiLCAAlgebric fuel model methods ;;
   Some
     (expected_params <- _expanded_names_to_names expected_names ;;
      ps <- fill_defaults expected_params ps ;;
      let filtered_params := filter_params expected_params ps in
      df <- postMultiLCAAlgebric methods lambdas alpha filtered_params ;;
      let model_name := _actName ctx model in
      let df := if List.length (df_index df) =? 1 then rename_index_0 model_name df else df in
      Ok (ps, df))%res)%fuel.

(** The body of the loop over the models: line 222 stores the table under
    the display name of the model. *)
Definition model_step (fuel : nat) (methods : list method) (m : model_arg)
    (st : params * dict string DataFrame) : fueled (params * dict string DataFrame) :=
  let '(ps, dfs) := st in
  ('(ps', df) <- model_table fuel methods m ps ;;
   fret (ps', dict_set (_actName ctx (model_of m)) df dfs))%fuel.

Fixpoint models_loop (fuel : nat) (methods : list method) (models : list model_arg)
    (st : params * dict string DataFrame) : fueled (params * dict string DataFrame) :=
  match models with
  | [] => fret st
  | m :: rest =>
      (st' <- model_step fuel methods m st ;; models_loop fuel methods rest st')%fuel
  end.

Definition multiLCAAlgebric (fuel : nat) (models : models_arg) (methods : list method)
    (ps : params) : fueled DataFrame :=
  let models := match models with Single m => [m] | ModelList ms => ms end in
  ('(_, dfs) <- models_loop fuel methods models (ps, []) ;;
   match dict_values dfs with
   | [df] => fret df
   | l => Some (pd_concat l)
   end)%fuel.

End WithCollaborators.
End Model.

Arguments Sym {num} s.
Arguments OpaqueFunction {num}.

(** ** Exact rationals as numbers *)

#[export] Instance Q_Number : Number Q := {|
  num0 := 0%Q;
  num1 := 1%Q;
  nadd := fun x y => Qred (x + y);
  nsub := fun x y => Qred (x - y);
  nmul := fun x y => Qred (x * y);
  ndiv := fun x y => Qred (x / y);
  num_eqb := Qeq_bool;
  np_astype := fun _ x => x;
  np_float64 := fun x => x
|}.

(** ** Python integers, 64-bit numpy integers and floats

    The numbers that reach numpy: a Python integer has any size, an element
    of an integer array has 64 bits and wraps around, and the presence of one
    float makes [np.array] hold floats throughout.  A float stands for the
    rational it holds; rounding is not modelled.  Integers that do not fit 64
    bits leave the list as it is (numpy then holds the Python objects). *)

Inductive pynumber :=
| PyInt (z : Z)       (* a Python [int] *)
| Int64 (z : Z)       (* a numpy [int64] *)
| Float (q : Q).      (* a Python [float] or a numpy [float64] *)

Definition wrap64 (z : Z) : Z := ((z + 2 ^ 63) mod 2 ^ 64 - 2 ^ 63)%Z.

Definition to_Q (x : pynumber) : Q :=
  match x with PyInt z | Int64 z => inject_Z z | Float q => q end.

Definition is_float (x : pynumber) : bool :=
  match x with Float _ => true | _ => false end.

Definition fits_int64 (x : pynumber) : bool :=
  match x with
  | PyInt z | Int64 z => ((- 2 ^ 63 <=? z) && (z <? 2 ^ 63))%Z
  | Float _ => false
  end.

(** An operation on two numbers: Python's on two Python integers, wrapping
    as soon as a 64-bit integer takes part, on floats as soon as a float
    does. *)
Definition py_arith (fz : Z -> Z -> Z) (fq : Q -> Q -> Q) (x y : pynumber) : pynumber :=
  match x, y with
  | PyInt a, PyInt b => PyInt (fz a b)
  | PyInt a, Int64 b | Int64 a, PyInt b | Int64 a, Int64 b => Int64 (wrap64 (fz a b))
  | _, _ => Float (Qred (fq (to_Q x) (to_Q y)))
  end.

#[export] Instance pynumber_Number : Number pynumber := {|
  num0 := PyInt 0;
  num1 := PyInt 1;
  nadd := py_arith Z.add Qplus;
  nsub := py_arith Z.sub Qminus;
  nmul := py_arith Z.mul Qmult;
  ndiv := fun x y => Float (Qred (to_Q x / to_Q y));     (* true division *)
  num_eqb := fun x y => Qeq_bool (to_Q x) (to_Q y);
  np_astype := fun xs x =>
    if existsb is_float xs then Float (to_Q x)
    else if forallb fits_int64 xs
         then match x with PyInt z | Int64 z => Int64 z | Float _ => x end
         else x;
  np_float64 := fun x => Float (to_Q x)
|}.

(** Modelled from the spec: [_completeParamValues] of [params.py] is not part
    of [lca.py].  This is its instance for a registry without enumerated
    parameters, where there is nothing to expand: an unrecognised name raises
    (section 6, "raises an Unknown-Parameter condition for unrecognized
    names") and the values are returned as they are. *)
Definition plainCompleteParamValues {num} (registry : dict string (ParamDef num))
    (ps : params num) : result (params num) :=
  match filter (fun kv => negb (dict_mem (fst kv) registry)) ps with
  | [] => Ok ps
  | l => Err (UnknownParams (map fst l))
  end.

(** ** Specification predicates *)

Section Specification.
Context (num : Type) {NUM : Number num}.
Variable ctx : Collaborators num.

(** The states of [act_symbols] during one pass: each one follows from the
    previous by one lookup-or-allocation. *)
Inductive pass_extends : symtab -> symtab -> Prop :=
| pass_refl st : pass_extends st st
| pass_step st st1 k s st2 :
    pass_extends st st1 ->
    symbol_for ctx st1 k = Some (Ok (s, st2)) ->
    pass_extends st st2.

Definition pass_state (st : symtab) : Prop := pass_extends [] st.

(** An exchange that adds a term: its amount is no Python function and it is
    no self-loop. *)
Definition contributes (e : Exchange num) : bool :=
  match exch_formula e with
  | OpaqueFunction => false
  | _ => negb (py_eq (exch_input e) (exch_output e))
  end.

(** The activity on which [rec_func] is called for the exchange [e] of [a]. *)
Definition callee (a : Activity num) (e : Exchange num) : option (Activity num) :=
  if contributes e && negb (is_background ctx (fst (exch_input e)))
     && negb (py_eq (exch_input e) (act_key a))
  then getAct ctx (exch_input e) else None.

(** The background activity that the exchange [e] refers to. *)
Definition leaf (e : Exchange num) : option key :=
  if contributes e && is_background ctx (fst (exch_input e))
  then Some (exch_input e) else None.

Definition calls (a sub : Activity num) : Prop :=
  exists e, In e (act_exchanges a) /\ callee a e = Some sub.

(** The activities that the traversal from [root] reaches. *)
Inductive visits (root : Activity num) : Activity num -> Prop :=
| visits_root : visits root root
| visits_sub a sub : visits root a -> calls a sub -> visits root sub.

(** The background and biosphere leaves reachable from [root]. *)
Definition reachable_leaf (root : Activity num) (k : key) : Prop :=
  exists a e, visits root a /\ In e (act_exchanges a) /\ leaf e = Some k.

(** A symbol of the formula of an exchange that the traversal from [root]
    turns into a term. *)
Definition formula_symbol (root : Activity num) (s : string) : Prop :=
  exists a e, visits root a /\ In e (act_exchanges a) /\ contributes e = true /\
              In s (pyval_symbols (formula_value (exch_formula e))).

(** sympy's evaluation gives an expression no symbol that its operands do
    not have. *)
Definition adds_no_symbol : Prop :=
  forall op a b s, In s (free_symbols (sympy_op ctx op a b)) ->
                   In s (free_symbols a) \/ In s (free_symbols b).

(** sympy's evaluation drops no symbol of its operands: nothing cancels and
    no product has the factor 0. *)
Definition drops_no_symbol : Prop :=
  forall op a b s, In s (free_symbols a) \/ In s (free_symbols b) ->
                   In s (free_symbols (sympy_op ctx op a b)).

(** The activities are stored as Brightway stores them. *)
Definition brightway_data : Prop :=
  forall a, In a (activities ctx) -> own_outputs a.

(** No exchange of a stored activity has the activity itself as input. *)
Definition no_self_reference : Prop :=
  forall a e, In a (activities ctx) -> In e (act_exchanges a) ->
              exch_input e <> act_key a.

(** The leaves that one exchange of [a] brings. *)
Definition step_leaves (a : Activity num) (e : Exchange num) (k : key) : Prop :=
  leaf e = Some k \/ exists sub, callee a e = Some sub /\ reachable_leaf sub k.

(** What [rec_func] guarantees on [a] when it succeeds. *)
Definition traversal_spec (a : Activity num) (st : symtab) (v : pyval num)
    (st' : symtab) : Prop :=
  pass_extends st st'
  /\ (forall k, In k (dict_keys st') <-> In k (dict_keys st) \/ reachable_leaf a k)
  /\ (adds_no_symbol ->
      forall sym, In sym (pyval_symbols v) ->
        (exists k, reachable_leaf a k /\ dict_get k st' = Some sym)
        \/ formula_symbol a sym).


(** The symbol table maps distinct activities to distinct symbols. *)
Definition injective_symbols (st : symtab) : Prop :=
  forall k1 k2 s, dict_get k1 st = Some s -> dict_get k2 st = Some s -> k1 = k2.

End Specification.

(** ** Sample vectors *)

Section Samples.
Context (num : Type) {NUM : Number num}.

(** [isinstance(val, list)] *)
Definition is_pylist (v : pval num) : bool :=
  match v with PyList _ => true | _ => false end.

(** The [i]-th sample of a parameter value: the [i]-th element of a list,
    the value itself otherwise. *)
Definition sample (i : nat) (v : pval num) : pval num :=
  match v with
  | PyList xs => Scalar (nth i xs num0)
  | _ => v
  end.

Definition sample_params (i : nat) (ps : params num) : params num :=
  map (fun kv => (fst kv, sample i (snd kv))) ps.

(** A number, or a list of [n] samples. *)
Definition is_sample_vector (n : nat) (v : pval num) : bool :=
  match v with
  | Scalar _ => true
  | PyList xs => List.length xs =? n
  | OtherSeq _ => false
  end.

(** The numbers that [np.array] receives for a value when the vectors have
    [n] samples. *)
Definition samples_of (n : nat) (v : pval num) : list num :=
  match v with
  | Scalar x => repeat x n
  | PyList xs | OtherSeq xs => xs
  end.

(** The numbers of [xs] have one numeric type: numpy holds each of them in
    the array of [xs] as it holds it alone. *)
Definition one_dtype (xs : list num) : Prop :=
  forall x, In x xs -> np_astype xs x = np_astype [x] x.

(** The [i]-th entry of a one-dimensional array, as an array of one entry. *)
Definition pick (i : nat) (a : ndarray num) : ndarray num :=
  match a with
  | Nd1 xs => Nd1 [nth i xs num0]
  | _ => a
  end.

(** A scalar or a one-dimensional array of [n] entries. *)
Definition sample_array (n : nat) (a : ndarray num) : Prop :=
  match a with
  | Nd0 _ => True
  | Nd1 xs => List.length xs = n
  | Nd2 _ => False
  end.

(** A compiled function that can be called with the parameters [ps]: its
    arguments are the keys of [ps] and its body uses no other symbol. *)
Definition callable_with (ps : params num) (lambd : Lambda num) : Prop :=
  (forall a, In a (lam_args lambd) <-> In a (dict_keys ps))
  /\ incl (free_symbols (lam_body lambd)) (lam_args lambd).

End Samples.

(** ** Models and parameters of a call *)

Section Calls.
Context (num : Type) {NUM : Number num}.
Variable ctx : Collaborators num.

(** The display name under which the table of a model is stored. *)
Definition display_name (m : model_arg num) : string := _actName ctx (model_of m).

(** No entry of the registry has the expanded name [n]. *)
Definition unknown_name (n : string) : Prop :=
  forall p, In p (dict_values (_param_registry ctx)) -> ~ In n (p_names p).

(** The entries whose value is a Python list, in order. *)
Definition lists_of (ps : params num) : params num :=
  filter (fun kv => is_pylist (snd kv)) ps.

(** Two dictionaries with the same bindings and the same list-valued
    entries in the same order; the other entries may sit anywhere. *)
Definition params_equiv (x y : params num) : Prop :=
  (forall k, dict_get k x = dict_get k y) /\ lists_of x = lists_of y.

(** The caller's dictionary without the parameter [p] ([x]) and with [p]
    given as [d] ([y]), at any moment of the loop over the models: [x] has
    no [p] yet, or has received the default [d]. *)
Definition default_related (p : string) (d : pval num) (x y : params num) : Prop :=
  lists_of x = lists_of y
  /\ (forall k, k <> p -> dict_get k x = dict_get k y)
  /\ dict_get p y = Some d
  /\ (dict_get p x = None \/ dict_get p x = Some d).

(** Two results that are the same value, or both an exception. *)
Definition same_result {A} (r r' : result A) : Prop :=
  match r, r' with
  | Ok a, Ok b => a = b
  | Err _, Err _ => True
  | _, _ => False
  end.

(** [_completeParamValues] does not depend on where the numbers sit. *)
Definition completion_proper : Prop :=
  forall x y, params_equiv x y ->
    match _completeParamValues ctx x, _completeParamValues ctx y with
    | Ok a, Ok b => params_equiv a b
    | Err _, Err _ => True
    | _, _ => False
    end.

(** Two calls end alike: with the same table, or both with an exception. *)
Definition same_outcome {A} (r r' : fueled A) : Prop :=
  match r, r' with
  | Some (Ok a), Some (Ok b) => a = b
  | Some (Err _), Some (Err _) => True
  | None, None => True
  | _, _ => False
  end.

End Calls.

(** ** Example models over the rationals *)

Definition exchange (i o : key) (f : amount_or_formula Q) : Exchange Q :=
  {| exch_input := i; exch_output := o; exch_amount := 1%Q; exch_formula := f |}.

Definition activity (db code nm : string) (exs : list (Exchange Q)) : Activity Q :=
  {| act_database := db; act_code := code; act_name := nm; act_exchanges := exs |}.

Definition collaborators (acts : list (Activity Q)) (registry : dict string (ParamDef Q))
    (score : key -> Q) : Collaborators Q :=
  {| BIOSPHERE3_DB_NAME := "biosphere3";
     ECOINVENT_DB_NAME := "ecoinvent";
     activities := acts;
     _param_registry := registry;
     _completeParamValues := plainCompleteParamValues registry;
     _actName := @act_name Q;
     lca_score := fun _ k => score k;
     sympy_op := @sympy_evaluate Q Q_Number |}.

(** Two foreground activities that use each other; no exchange has its own
    activity as input. *)
Definition cycA : Activity Q :=
  activity "fg" "A" "a" [exchange ("fg", "B") ("fg", "A") (Literal 1%Q)].
Definition cycB : Activity Q :=
  activity "fg" "B" "b" [exchange ("fg", "A") ("fg", "B") (Literal 1%Q)].
Definition cycle_ctx : Collaborators Q :=
  collaborators [cycA; cycB] [] (fun _ => 1%Q).

(** A root whose two sub-activities share a third one. *)
Definition bg1 : Activity Q := activity "ecoinvent" "bg1" "market for bg" [].
Definition bg2 : Activity Q := activity "ecoinvent" "bg2" "market for bg" [].
Definition dT : Activity Q :=
  activity "fg" "T" "shared" [exchange ("ecoinvent", "bg1") ("fg", "T") (Literal 1%Q)].
Definition dS1 : Activity Q :=
  activity "fg" "S1" "first" [exchange ("fg", "T") ("fg", "S1") (Literal 2%Q)].
Definition dS2 : Activity Q :=
  activity "fg" "S2" "second" [exchange ("fg", "T") ("fg", "S2") (Literal 3%Q)].
Definition dR : Activity Q :=
  activity "fg" "R" "root"
    [exchange ("fg", "S1") ("fg", "R") (Literal 1%Q);
     exchange ("fg", "S2") ("fg", "R") (Literal 1%Q)].
Definition diamond_ctx : Collaborators Q :=
  collaborators [dR; dS1; dS2; dT; bg1] [] (fun _ => 1%Q).

(** The registry of one parameter [p] with default 3. *)
Definition p_registry : dict string (ParamDef Q) :=
  [("p", {| p_name := "p"; p_names := ["p"]; p_default := Scalar 3%Q |})].

(** A model whose single exchange has the formula [p]. *)
Definition pRoot : Activity Q :=
  activity "fg" "P" "model P" [exchange ("ecoinvent", "bg1") ("fg", "P") (Formula (Sym "p"))].
Definition param_ctx : Collaborators Q :=
  collaborators [pRoot; bg1] p_registry (fun _ => 10%Q).

(** The scenario of section 8: [0.5 * bg1 + 2 * subAct], [subAct = 1 * bg2],
    with scores 10 and 4. *)
Definition sSub : Activity Q :=
  activity "fg" "subAct" "sub activity"
    [exchange ("ecoinvent", "bg2") ("fg", "subAct") (Literal 1%Q)].
Definition sM : Activity Q :=
  activity "fg" "M" "model M"
    [exchange ("ecoinvent", "bg1") ("fg", "M") (Literal (1 # 2)%Q);
     exchange ("fg", "subAct") ("fg", "M") (Literal 2%Q)].
(** Another activity with the display name of [sM]. *)
Definition sTwin : Activity Q :=
  activity "fg" "M2" "model M"
    [exchange ("ecoinvent", "bg2") ("fg", "M2") (Literal 1%Q)].
Definition scenario_ctx : Collaborators Q :=
  collaborators [sM; sSub; sTwin; bg1; bg2] []
    (fun k => if py_eq k ("ecoinvent", "bg1") then 10%Q else 4%Q).

(** An activity that uses a part of its own output: beside its production
    exchange (amount 1) it has an exchange of amount 1/10 whose input is the
    activity itself, and one exchange to a background activity. *)
Definition own_use : Exchange Q :=
  {| exch_input := ("fg", "U"); exch_output := ("fg", "U");
     exch_amount := (1 # 10)%Q; exch_formula := Literal (1 # 10)%Q |}.
Definition uRoot : Activity Q :=
  activity "fg" "U" "own use"
    [exchange ("fg", "U") ("fg", "U") (Literal 1%Q);
     own_use;
     exchange ("ecoinvent", "bg1") ("fg", "U") (Literal 1%Q)].
Definition own_use_ctx : Collaborators Q :=
  collaborators [uRoot; bg1] [] (fun _ => 1%Q).

(** A model whose two terms in [bg1] cancel: [p * bg1 + (-p) * bg1 + p * bg2]. *)
Definition cRoot : Activity Q :=
  activity "fg" "C" "model C"
    [exchange ("ecoinvent", "bg1") ("fg", "C") (Formula (Sym "p"));
     exchange ("ecoinvent", "bg1") ("fg", "C")
       (Formula (Bin OMul (Num (- 1)%Q) (Sym "p")));
     exchange ("ecoinvent", "bg2") ("fg", "C") (Formula (Sym "p"))].
Definition cancel_ctx : Collaborators Q :=
  collaborators [cRoot; bg1; bg2] p_registry (fun _ => 10%Q).

(** A model with the parameters [a] and [b]: [a * bg1 + b * bg2]. *)
Definition ab_registry : dict string (ParamDef Q) :=
  [("a", {| p_name := "a"; p_names := ["a"]; p_default := Scalar 1%Q |});
   ("b", {| p_name := "b"; p_names := ["b"]; p_default := Scalar 1%Q |})].
Definition abRoot : Activity Q :=
  activity "fg" "AB" "model AB"
    [exchange ("ecoinvent", "bg1") ("fg", "AB") (Formula (Sym "a"));
     exchange ("ecoinvent", "bg2") ("fg", "AB") (Formula (Sym "b"))].
Definition ab_ctx : Collaborators Q :=
  collaborators [abRoot; bg1; bg2] ab_registry (fun _ => 1%Q).
Definition method_X : method := ("family", "X", "unit").

(** [pRoot] with a registry that does not know its parameter [p]. *)
Definition unknown_ctx : Collaborators Q :=
  collaborators [pRoot; bg1] [] (fun _ => 10%Q).

(** A model whose terms cancel, [p * bg1 + (-p) * bg1], with a registry that
    does not know [p]. *)
Definition zRoot : Activity Q :=
  activity "fg" "Z" "model Z"
    [exchange ("ecoinvent", "bg1") ("fg", "Z") (Formula (Sym "p"));
     exchange ("ecoinvent", "bg1") ("fg", "Z")
       (Formula (Bin OMul (Num (- 1)%Q) (Sym "p")))].
Definition zero_ctx : Collaborators Q :=
  collaborators [zRoot; bg1] [] (fun _ => 10%Q).

(** The symbol table of [scenario_ctx] after the first background activity. *)
Definition alloc_state : symtab := [(("ecoinvent", "bg1"), "market_for_bg")].

(** Five samples of [a] and of [b], and a function compiled for them. *)
Definition five_samples : params Q :=
  [("a", PyList [1%Q; 2%Q; 3%Q; 4%Q; 5%Q]);
   ("b", PyList [10%Q; 20%Q; 30%Q; 40%Q; 50%Q])].
Definition ab_lambda : Lambda Q :=
  lambdify ["a"; "b"] (Bin OAdd (Bin OMul (Sym "a") (Num 10%Q)) (Sym "b")).

(** A vector of an integer and a float, and the function [10 * p * p]
    compiled for it, in the arithmetic of Python and numpy. *)
Definition numpy_registry : dict string (ParamDef pynumber) :=
  [("p", {| p_name := "p"; p_names := ["p"]; p_default := Scalar (Float 3) |})].
Definition numpy_ctx : Collaborators pynumber :=
  {| BIOSPHERE3_DB_NAME := "biosphere3";
     ECOINVENT_DB_NAME := "ecoinvent";
     activities := [];
     _param_registry := numpy_registry;
     _completeParamValues := plainCompleteParamValues numpy_registry;
     _actName := @act_name pynumber;
     lca_score := fun _ _ => Float 1;
     sympy_op := @sympy_evaluate pynumber pynumber_Number |}.
Definition mixed_samples : params pynumber :=
  [("p", PyList [PyInt 4294967296; Float (1 # 2)])].
Definition float_samples : params pynumber :=
  [("p", PyList [Float 1; Float 2; Float (5 # 2); Float 4; Float 4294967296])].
Definition ten_p_p : Lambda pynumber :=
  lambdify ["p"] (Bin OMul (Bin OMul (Num (PyInt 10)) (Sym "p")) (Sym "p")).


(** The calls below an activity of an example model, one exchange at a time. *)
Ltac acc_calls :=
  constructor; intros ? (? & I & C); simpl in I;
  repeat (destruct I as [<-|I];
          [vm_compute in C; first [discriminate C | injection C as <-; acc_calls]|]);
  destruct I.

(** A biosphere flow, stored beside a foreground activity. *)
Definition co2 : Activity Q := activity "biosphere3" "co2" "Carbon dioxide" [].
Definition stored_activities : list (Activity Q) := [sSub; co2].

(** ** Further operations and predicates *)

Section Further.
Context (num : Type) {NUM : Number num}.
Variable ctx : Collaborators num.

(** [_getDb(db_name).get(code)] on an explicit list of stored activities. *)
Definition db_get (db : list (Activity num)) (k : key) : option (Activity num) :=
  find (fun a => py_eq (act_key a) k) db.

(** Modelled from the spec: [newActivity] of [helpers.py] is not part of
    [lca.py].  Section 4.2 describes what it is called for here: a proxy
    activity of the model's database, "a 1-unit wrapper around the biosphere
    flow", stored under the code it is given.  The new activity is returned
    with the database. *)
Definition newActivity (db : list (Activity num)) (dbname name : string)
    (input : Activity num) (code : string) : Activity num * list (Activity num) :=
  let act :=
    {| act_database := dbname; act_code := code; act_name := name;
       act_exchanges :=
         [{| exch_input := act_key input; exch_output := (dbname, code);
             exch_amount := num1; exch_formula := Literal num1 |}] |} in
  (act, db ++ [act]).

(** [_getOrCreateDummyBiosphereActCopy(dbname, code)] with the stored
    activities passed in and out: the [try] branch finds the proxy, the
    [except] branch creates it from the biosphere flow. *)
Definition _getOrCreateDummyBiosphereActCopy (db : list (Activity num))
    (dbname code : string) : result (Activity num * list (Activity num)) :=
  let code_to_find := (code ++ "#asTech")%string in
  match db_get db (dbname, code_to_find) with
  | Some act => Ok (act, db)
  | None =>
      match db_get db (BIOSPHERE3_DB_NAME ctx, code) with
      | None => Err (UnknownObject (BIOSPHERE3_DB_NAME ctx, code))
      | Some bioAct =>
          let name := (act_name bioAct ++ " # asTech")%string in
          Ok (newActivity db dbname name bioAct code_to_find)
      end
  end.

(** The divisor that the exchanges [exs] leave in [outputAmount], which was
    [o] before: the amount of the last self-loop whose amount is not 1. *)
Fixpoint output_amount (exs : list (Exchange num)) (o : num) : num :=
  match exs with
  | [] => o
  | e :: r =>
      match exch_formula e with
      | OpaqueFunction => output_amount r o
      | _ =>
          if py_eq (exch_input e) (exch_output e) && negb (num_eqb (exch_amount e) num1)
          then output_amount r (exch_amount e)
          else output_amount r o
      end
  end.

Definition with_output (o : num) (s : loop_state num) : loop_state num :=
  {| res := res s; outputAmount := o; act_symbols := act_symbols s |}.

Definition fmap {A B} (f : A -> B) (m : fueled A) : fueled B :=
  fbind m (fun a => fret (f a)).

(** [v] is a sympy expression, not a plain number. *)
Definition is_symbolic (v : pyval num) : bool :=
  match v with SymE _ => true | PyNum _ => false end.

Definition is_formula (f : amount_or_formula num) : bool :=
  match f with Formula _ => true | _ => false end.

(** The traversal from [root] meets an exchange that brings a symbol: one to
    a background activity, or one whose amount is a formula. *)
Definition symbolic_source (root : Activity num) : Prop :=
  exists x e, visits ctx root x /\ In e (act_exchanges x) /\ contributes e = true
              /\ (is_background ctx (fst (exch_input e)) = true
                  \/ is_formula (exch_formula e) = true).

(** The exchange [e] of [a] brings a symbol into the sum of [a]: by its
    input, by its amount, or by the expression of the activity it calls. *)
Definition brings_symbol (a : Activity num) (e : Exchange num) : Prop :=
  contributes e = true
  /\ (is_background ctx (fst (exch_input e)) = true
      \/ is_formula (exch_formula e) = true
      \/ exists sub, callee ctx a e = Some sub /\ symbolic_source sub).

(** Where the symbol of [k] comes from. *)
Definition named_after (k : key) (s : string) : Prop :=
  exists a, getAct ctx k = Some a
    /\ (s = _slugify (act_name a)
        \/ exists i, 1 <= i /\ s = (_slugify (act_name a) ++ decimal i)%string).

(** An entry of the dictionary that [_expanded_names_to_names] builds:
    a requested name and a parameter of the registry that has it. *)
Definition owns (names : list string) (l : list (ParamDef num))
    (nq : string * ParamDef num) : Prop :=
  In (fst nq) names /\ In (snd nq) l /\ In (fst nq) (p_names (snd nq)).

(** The models of a call, as a list. *)
Definition models_of (models : models_arg num) : list (model_arg num) :=
  match models with Single m => [m] | ModelList ms => ms end.

(** The parameters without the name [q]. *)
Definition without_param (q : string) (ps : params num) : params num :=
  filter (fun kv => negb (py_eq (fst kv) q)) ps.

(** No model of the list requires the parameter [q]. *)
Definition not_required (fuel : nat) (methods : list method)
    (ms : list (model_arg num)) (q : string) : Prop :=
  forall m lambdas names expected,
    In m ms ->
    preMultiLCAAlgebric ctx fuel (model_of m) methods = Some (Ok (lambdas, names)) ->
    _expanded_names_to_names ctx names = Ok expected ->
    ~ In q expected.

(** Every entry of the registry is stored under its own name. *)
Definition registry_wf : Prop :=
  forall q, In q (dict_values (_param_registry ctx)) ->
            dict_get (p_name q) (_param_registry ctx) = Some q.

(** The lengths of the list-valued entries, in order. *)
Definition list_lengths (ps : params num) : list nat :=
  flat_map (fun kv => match snd kv with PyList xs => [List.length xs] | _ => [] end) ps.

(** What the length check does on these lengths: leading lists of one
    element are passed over, the next list fixes the length, and every later
    list must have it. *)
Fixpoint checked_length (lens : list nat) : result nat :=
  match lens with
  | [] => Ok 1
  | 1 :: r => checked_length r
  | n :: r => if forallb (Nat.eqb n) r then Ok n else Err ShapeMismatch
  end.

End Further.

(** Characters of a slug. *)
Fixpoint string_forall (P : ascii -> bool) (s : string) : bool :=
  match s with
  | EmptyString => true
  | String c r => P c && string_forall P r
  end.

Definition is_slug_char (c : ascii) : bool := is_alnum c || Ascii.eqb c "_".

(** No two underscores in a row. *)
Fixpoint no_double_underscore (s : string) : bool :=
  match s with
  | EmptyString => true
  | String c r =>
      match r with
      | String c' _ => negb (Ascii.eqb c "_" && Ascii.eqb c' "_")
      | EmptyString => true
      end && no_double_underscore r
  end.

(** * Properties *)

(** ** Lists, strings and dictionaries *)

Lemma mem_In {A} `{EqDec A} (x : A) (l : list A) : mem x l = true <-> In x l.
Proof. unfold mem. destruct (in_dec eq_dec x l); split; intros; auto; discriminate. Qed.

Lemma mem_not_In {A} `{EqDec A} (x : A) (l : list A) : mem x l = false <-> ~ In x l.
Proof. unfold mem. destruct (in_dec eq_dec x l); split; intros; auto; try discriminate; contradiction. Qed.

Lemma py_eq_true {A} `{EqDec A} (x y : A) : py_eq x y = true <-> x = y.
Proof. unfold py_eq. destruct (eq_dec x y); split; intros; auto; discriminate. Qed.

Lemma py_eq_false {A} `{EqDec A} (x y : A) : py_eq x y = false <-> x <> y.
Proof. unfold py_eq. destruct (eq_dec x y); split; intros; auto; try discriminate; contradiction. Qed.

Lemma dedup_In {A} `{EqDec A} (x : A) (l : list A) : In x (dedup l) <-> In x l.
Proof.
  induction l as [|y l IH]; simpl; [tauto|].
  destruct (mem y l) eqn:E.
  - apply mem_In in E. rewrite IH. split; [tauto|]. intros [->|]; auto.
  - simpl. rewrite IH. tauto.
Qed.

Lemma dedup_NoDup {A} `{EqDec A} (l : list A) : NoDup (dedup l).
Proof.
  induction l as [|y l IH]; simpl; [constructor|].
  destruct (mem y l) eqn:E; auto.
  constructor; auto. apply mem_not_In in E. now rewrite dedup_In.
Qed.

Lemma append_cancel (b s t : string) : (b ++ s)%string = (b ++ t)%string -> s = t.
Proof. induction b; simpl; intros E; [assumption|]. injection E; auto. Qed.

Lemma append_nonempty (b s : string) : (b ++ s)%string = b -> s = EmptyString.
Proof. induction b; simpl; intros E; [assumption|]. injection E; auto. Qed.

Lemma decimal_inj (i j : nat) : decimal i = decimal j -> i = j.
Proof.
  unfold decimal. intros E.
  assert (E' : Some (Nat.to_uint i) = Some (Nat.to_uint j))
    by (rewrite <- !NilEmpty.usu; now rewrite E).
  injection E' as E'.
  rewrite <- (Unsigned.of_to i), <- (Unsigned.of_to j). now rewrite E'.
Qed.

Lemma decimal_nonempty (i : nat) : decimal i <> EmptyString.
Proof.
  unfold decimal. intros E.
  pose proof (NilEmpty.usu (Nat.to_uint i)) as U. rewrite E in U. simpl in U.
  injection U as U.
  pose proof (Unsigned.of_to i) as O. rewrite <- U in O. simpl in O. subst i.
  discriminate U.
Qed.

Section DictFacts.
Context {K V : Type} `{EqDec K}.
Implicit Types (d : dict K V) (k : K) (v : V).

Lemma dict_get_In k v d : dict_get k d = Some v -> In (k, v) d.
Proof.
  induction d as [|[k' v'] d IH]; simpl; [discriminate|].
  destruct (eq_dec k k'); intros E; [injection E as ->; subst; auto|auto].
Qed.

Lemma dict_get_None k d : dict_get k d = None <-> ~ In k (dict_keys d).
Proof.
  induction d as [|[k' v'] d IH]; simpl; [tauto|].
  destruct (eq_dec k k'); [subst; split; [discriminate|intros N; exfalso; auto]|].
  rewrite IH. split; intros N; [intros [E|I]; [congruence|auto]|auto].
Qed.

Lemma dict_get_Some_key k v d : dict_get k d = Some v -> In k (dict_keys d).
Proof. intros E. apply dict_get_In in E. apply (in_map fst) in E. exact E. Qed.

Lemma dict_key_get k d : In k (dict_keys d) -> exists v, dict_get k d = Some v.
Proof.
  intros I. destruct (dict_get k d) eqn:E; [eauto|].
  apply dict_get_None in E. contradiction.
Qed.

Lemma In_dict_get k v d : NoDup (dict_keys d) -> In (k, v) d -> dict_get k d = Some v.
Proof.
  induction d as [|[k' v'] d IH]; simpl; [tauto|].
  intros ND [E|I].
  - injection E as -> ->. destruct (eq_dec k k); congruence.
  - inversion ND; subst. destruct (eq_dec k k'); [subst|auto].
    exfalso. apply (in_map fst) in I. auto.
Qed.

Lemma dict_get_set_same k v d : dict_get k (dict_set k v d) = Some v.
Proof.
  induction d as [|[k' v'] d IH]; simpl.
  - destruct (eq_dec k k); congruence.
  - destruct (eq_dec k k') as [->|N]; simpl.
    + destruct (eq_dec k' k'); congruence.
    + destruct (eq_dec k k'); congruence.
Qed.

Lemma dict_get_set_other k k0 v d : k0 <> k -> dict_get k0 (dict_set k v d) = dict_get k0 d.
Proof.
  intros N. induction d as [|[k' v'] d IH]; simpl.
  - destruct (eq_dec k0 k); congruence.
  - destruct (eq_dec k k') as [->|N']; simpl.
    + destruct (eq_dec k0 k'); congruence.
    + destruct (eq_dec k0 k'); congruence.
Qed.

(** Writing a new key appends the entry. *)
Lemma dict_set_fresh k v d : dict_get k d = None -> dict_set k v d = d ++ [(k, v)].
Proof.
  induction d as [|[k' v'] d IH]; simpl; [reflexivity|].
  destruct (eq_dec k k'); [discriminate|]. intros E. now rewrite IH.
Qed.

(** Writing an existing key keeps the keys and their order. *)
Lemma dict_keys_set_present k v d :
  In k (dict_keys d) -> dict_keys (dict_set k v d) = dict_keys d.
Proof.
  induction d as [|[k' v'] d IH]; simpl; [tauto|].
  destruct (eq_dec k k') as [->|N]; simpl; [reflexivity|].
  intros [E|I]; [congruence|]. now rewrite IH.
Qed.

Lemma dict_keys_set_In k k0 v d :
  In k0 (dict_keys (dict_set k v d)) <-> k0 = k \/ In k0 (dict_keys d).
Proof.
  induction d as [|[k' v'] d IH]; simpl.
  - split; [intros [E|[]]; auto|intros [E|[]]; auto].
  - destruct (eq_dec k k') as [->|N]; simpl.
    + split; [tauto|]. intros [E|[E|I]]; auto.
    + rewrite IH. tauto.
Qed.

Lemma dict_keys_set_NoDup k v d : NoDup (dict_keys d) -> NoDup (dict_keys (dict_set k v d)).
Proof.
  induction d as [|[k' v'] d IH]; simpl; intros ND.
  - constructor; [tauto|constructor].
  - inversion ND; subst.
    destruct (eq_dec k k') as [->|N]; simpl; [assumption|].
    constructor; auto. rewrite dict_keys_set_In. intros [E|I]; [congruence|auto].
Qed.

End DictFacts.

(** ** The symbol allocator *)

Lemma find_free_None fuel used base slug i :
  find_free fuel used base slug i = None ->
  In slug used /\ forall j, i <= j < i + fuel -> In (base ++ decimal j)%string used.
Proof.
  revert slug i. induction fuel as [|fuel IH]; intros slug i; simpl.
  - destruct (mem slug used) eqn:M; [|discriminate]. intros _.
    apply mem_In in M. split; [assumption|]. intros j Hj. lia.
  - destruct (mem slug used) eqn:M; [|discriminate]. intros E.
    apply mem_In in M. apply IH in E as [I0 Ij]. split; [assumption|].
    intros j Hj. destruct (Nat.eq_dec j i) as [->|N]; [assumption|].
    apply Ij. lia.
Qed.

Lemma find_free_Some fuel used base slug i s :
  find_free fuel used base slug i = Some s ->
  ~ In s used /\
  (s = slug \/
   exists j, i <= j /\ s = (base ++ decimal j)%string /\ In slug used /\
             forall j', i <= j' < j -> In (base ++ decimal j')%string used).
Proof.
  revert slug i. induction fuel as [|fuel IH]; intros slug i; simpl.
  - destruct (mem slug used) eqn:M; [discriminate|]. intros E. injection E as <-.
    apply mem_not_In in M. auto.
  - destruct (mem slug used) eqn:M.
    + intros E. apply mem_In in M. apply IH in E as [Hn [->|(j & Hj & -> & Hu & Hb)]].
      * split; [assumption|]. right. exists i. repeat split; auto. intros j' Hj'. lia.
      * split; [assumption|]. right. exists j. repeat split; auto; [lia|].
        intros j' Hj'. destruct (Nat.eq_dec j' i) as [->|N]; [assumption|].
        apply Hb. lia.
    + intros E. injection E as <-. apply mem_not_In in M. auto.
Qed.

(** The loop of [act_to_symbol] ends: among the slug and its first
    [length used] suffixed variants, one is not in use. *)
Lemma find_free_total used base :
  find_free (List.length used) used base base 1 <> None.
Proof.
  intros E. apply find_free_None in E as [I0 Ij].
  set (cand := base :: map (fun j => (base ++ decimal j)%string) (seq 1 (List.length used))).
  assert (ND : NoDup cand).
  { constructor.
    - rewrite in_map_iff. intros (j & E & _). apply append_nonempty in E.
      now apply decimal_nonempty in E.
    - apply Injective_map_NoDup; [|apply seq_NoDup].
      intros a b E. apply append_cancel in E. now apply decimal_inj. }
  assert (IN : incl cand used).
  { intros s [<-|I]; [assumption|]. apply in_map_iff in I as (j & <- & I).
    apply in_seq in I. apply Ij. lia. }
  pose proof (NoDup_incl_length ND IN) as L. unfold cand in L. simpl in L.
  rewrite length_map, length_seq in L. lia.
Qed.

Section Allocation.
Context (num : Type) {NUM : Number num}.
Variable ctx : Collaborators num.

Lemma getAct_key k a : getAct ctx k = Some a -> act_key a = k.
Proof.
  unfold getAct. intros E. apply find_some in E as [_ E]. now apply py_eq_true in E.
Qed.

Lemma act_to_symbol_total st k : act_to_symbol ctx st k <> None.
Proof.
  unfold act_to_symbol. destruct (getAct ctx k); [|discriminate].
  pose proof (find_free_total (dict_values st) (_slugify (act_name a))) as T.
  unfold dict_values in *. rewrite length_map in T.
  destruct (find_free _ _ _ _ _); [discriminate|contradiction].
Qed.

Lemma act_to_symbol_fresh st k s :
  act_to_symbol ctx st k = Some (Ok s) -> ~ In s (dict_values st).
Proof.
  unfold act_to_symbol. destruct (getAct ctx k); [|discriminate].
  destruct (find_free _ _ _ _ _) eqn:E; [|discriminate].
  simpl. intros E'. injection E' as <-. now apply find_free_Some in E.
Qed.

Lemma symbol_for_total st k : symbol_for ctx st k <> None.
Proof.
  unfold symbol_for. destruct (dict_get k st); [discriminate|].
  pose proof (act_to_symbol_total st k) as T.
  destruct (act_to_symbol ctx st k) as [[s|e]|]; unfold fbind, fret; simpl;
    [discriminate|discriminate|contradiction].
Qed.

(** What a lookup-or-allocation does to the table. *)
Lemma symbol_for_spec st k s st' :
  symbol_for ctx st k = Some (Ok (s, st')) ->
  (dict_get k st = Some s /\ st' = st) \/
  (dict_get k st = None /\ st' = st ++ [(k, s)] /\ ~ In s (dict_values st) /\
   exists a, getAct ctx k = Some a).
Proof.
  unfold symbol_for. destruct (dict_get k st) eqn:G.
  - intros E. injection E as <- <-. auto.
  - destruct (act_to_symbol ctx st k) as [[s0|e]|] eqn:A; simpl; try discriminate.
    intros E. injection E as <- <-. right. repeat split; auto.
    + now apply dict_set_fresh.
    + eapply act_to_symbol_fresh; eauto.
    + unfold act_to_symbol in A. destruct (getAct ctx k); [eauto|discriminate].
Qed.

Lemma symbol_for_get st k s st' :
  symbol_for ctx st k = Some (Ok (s, st')) -> dict_get k st' = Some s.
Proof.
  unfold symbol_for. destruct (dict_get k st) eqn:G.
  - intros E. injection E as <- <-. assumption.
  - destruct (act_to_symbol ctx st k) as [[s0|e]|]; simpl; try discriminate.
    intros E. injection E as <- <-. apply dict_get_set_same.
Qed.

Lemma symbol_for_again st k s :
  dict_get k st = Some s -> symbol_for ctx st k = Some (Ok (s, st)).
Proof. unfold symbol_for. now intros ->. Qed.

Lemma dict_get_app_l {K V} `{EqDec K} (k : K) (v : V) (d d' : dict K V) :
  dict_get k d = Some v -> dict_get k (d ++ d') = Some v.
Proof.
  induction d as [|[k' v'] d IH]; simpl; [discriminate|].
  destruct (eq_dec k k'); auto.
Qed.

Lemma dict_get_app_r {K V} `{EqDec K} (k : K) (d d' : dict K V) :
  dict_get k d = None -> dict_get k (d ++ d') = dict_get k d'.
Proof.
  induction d as [|[k' v'] d IH]; simpl; [reflexivity|].
  destruct (eq_dec k k'); [discriminate|auto].
Qed.

(** A pass only adds entries. *)
Lemma pass_extends_get st st' k s :
  pass_extends ctx st st' -> dict_get k st = Some s -> dict_get k st' = Some s.
Proof.
  induction 1 as [|st st1 k0 s0 st2 _ IH S]; intros G; [assumption|].
  specialize (IH G). apply symbol_for_spec in S as [[_ ->]|(_ & -> & _)]; auto.
  now apply dict_get_app_l.
Qed.

Lemma pass_extends_trans st1 st2 st3 :
  pass_extends ctx st1 st2 -> pass_extends ctx st2 st3 -> pass_extends ctx st1 st3.
Proof.
  intros E1 E2. revert E1.
  induction E2 as [|st st' k s st'' _ IH S]; intros E1; [assumption|].
  eapply pass_step; [apply IH; exact E1|exact S].
Qed.

Lemma pass_extends_app st st' : pass_extends ctx st st' -> exists l, st' = st ++ l.
Proof.
  induction 1 as [|st st1 k0 s0 st2 _ [l ->] S].
  - exists []. now rewrite app_nil_r.
  - apply symbol_for_spec in S as [[_ ->]|(_ & -> & _)]; [eauto|].
    exists (l ++ [(k0, s0)]). now rewrite app_assoc.
Qed.

Lemma dict_get_value {K V} `{EqDec K} (k : K) (v : V) (d : dict K V) :
  dict_get k d = Some v -> In v (dict_values d).
Proof. intros E. apply dict_get_In in E. apply (in_map snd) in E. exact E. Qed.

Lemma injective_symbols_step st k s st' :
  injective_symbols st -> symbol_for ctx st k = Some (Ok (s, st')) ->
  injective_symbols st'.
Proof.
  intros Inj S. apply symbol_for_spec in S as [[_ ->]|(G & -> & F & _)]; [assumption|].
  intros k1 k2 s0 G1 G2.
  destruct (dict_get k1 st) eqn:E1; destruct (dict_get k2 st) eqn:E2.
  - erewrite dict_get_app_l in G1 by exact E1. erewrite dict_get_app_l in G2 by exact E2.
    injection G1 as ->. injection G2 as ->. eapply Inj; eauto.
  - erewrite dict_get_app_l in G1 by exact E1. rewrite dict_get_app_r in G2 by exact E2.
    injection G1 as ->. simpl in G2. destruct (eq_dec k2 k); [|discriminate].
    injection G2 as ->. exfalso. apply F. eapply dict_get_value; eauto.
  - rewrite dict_get_app_r in G1 by exact E1. erewrite dict_get_app_l in G2 by exact E2.
    injection G2 as ->. simpl in G1. destruct (eq_dec k1 k); [|discriminate].
    injection G1 as ->. exfalso. apply F. eapply dict_get_value; eauto.
  - rewrite dict_get_app_r in G1 by exact E1. rewrite dict_get_app_r in G2 by exact E2.
    simpl in G1, G2.
    destruct (eq_dec k1 k); [|discriminate]. destruct (eq_dec k2 k); [|discriminate].
    congruence.
Qed.

Lemma injective_symbols_extends st st' :
  pass_extends ctx st st' -> injective_symbols st -> injective_symbols st'.
Proof.
  induction 1 as [|st st1 k s st2 _ IH S]; intros I; [assumption|].
  eapply injective_symbols_step; [apply IH; exact I|exact S].
Qed.

Lemma pass_state_injective st : pass_state ctx st -> injective_symbols st.
Proof. intros P. eapply injective_symbols_extends; [exact P|]. intros k1 k2 s G. discriminate. Qed.

End Allocation.

(** ** The traversal of [rec_func] *)

Section Traversal.
Context (num : Type) {NUM : Number num}.
Variable ctx : Collaborators num.

Implicit Types (a sub root : Activity num) (e : Exchange num).
Implicit Types (st : symtab) (s : loop_state num).
Implicit Types (rec : Activity num -> symtab -> fueled (pyval num * symtab)).

Lemma rec_func_S fuel a st :
  rec_func ctx (S fuel) a st =
  fbind (exch_loop ctx (rec_func ctx fuel) a (act_exchanges a) (initial_state st))
        (fun s => match py_div ctx (res s) (outputAmount s) with
                  | Ok v => fret (v, act_symbols s)
                  | Err e => fraise e
                  end).
Proof. reflexivity. Qed.

Lemma self_check a e :
  py_eq (fst (exch_input e)) (act_database a) && py_eq (snd (exch_input e)) (act_code a)
  = py_eq (exch_input e) (act_key a).
Proof.
  unfold py_eq, act_key. destruct (exch_input e) as [d c]; simpl.
  case_dec; simpl; try reflexivity; congruence.
Qed.

Lemma contributes_formula e :
  contributes e = true ->
  exch_formula e <> OpaqueFunction /\ py_eq (exch_input e) (exch_output e) = false.
Proof.
  unfold contributes. destruct (exch_formula e); try discriminate;
    intros E; apply negb_true_iff in E; split; auto; discriminate.
Qed.

(** The three ways in which the body of the loop succeeds. *)
Lemma exch_step_Ok rec a e s s' :
  exch_step ctx rec a e s = Some (Ok s') ->
  (contributes e = false /\ res s' = res s /\ act_symbols s' = act_symbols s)
  \/ (exists k sym, leaf ctx e = Some k
        /\ symbol_for ctx (act_symbols s) k = Some (Ok (sym, act_symbols s'))
        /\ res s' = py_add ctx (res s) (py_mul ctx (formula_value (exch_formula e)) (SymE (Sym sym))))
  \/ (exists sub v, callee ctx a e = Some sub
        /\ rec sub (act_symbols s) = Some (Ok (v, act_symbols s'))
        /\ res s' = py_add ctx (res s) (py_mul ctx (formula_value (exch_formula e)) v)).
Proof.
  unfold exch_step, leaf, callee, contributes, input_expr.
  rewrite self_check.
  destruct (exch_formula e) eqn:F;
    try (destruct (py_eq (exch_input e) (exch_output e)) eqn:IO; simpl;
         [ intros E; injection E as <-; left;
           destruct (num_eqb (exch_amount e) num1); auto
         | destruct (is_background ctx (fst (exch_input e))) eqn:B; simpl;
           [ destruct (symbol_for ctx (act_symbols s) (exch_input e))
               as [[[sym st']|err]|] eqn:SF;
             simpl; try discriminate;
             intros E; injection E as <-; right; left; exists (exch_input e), sym; auto
           | destruct (py_eq (exch_input e) (act_key a)) eqn:K; simpl; [discriminate|];
             destruct (getAct ctx (exch_input e)) as [sub|]; simpl; [|discriminate];
             destruct (rec sub (act_symbols s)) as [[[v st']|err]|] eqn:R;
             simpl; try discriminate;
             intros E; injection E as <-; right; right; exists sub, v; auto ] ]).
  intros E. injection E as <-. auto.
Qed.

(** The body of the loop returns when the recursive call does. *)
Lemma exch_step_total rec a e s :
  (forall sub, callee ctx a e = Some sub -> forall st, rec sub st <> None) ->
  exch_step ctx rec a e s <> None.
Proof.
  unfold exch_step, callee, contributes, input_expr. rewrite self_check.
  intros H.
  destruct (exch_formula e) eqn:F; try discriminate;
    (destruct (py_eq (exch_input e) (exch_output e)) eqn:IO; simpl; [discriminate|];
     simpl in H;
     destruct (is_background ctx (fst (exch_input e))) eqn:B; simpl in *;
     [ pose proof (symbol_for_total ctx (act_symbols s) (exch_input e)) as T;
       destruct (symbol_for ctx (act_symbols s) (exch_input e)) as [[[sym st']|err]|];
       simpl; [discriminate|discriminate|contradiction]
     | destruct (py_eq (exch_input e) (act_key a)) eqn:K; simpl in *; [discriminate|];
       destruct (getAct ctx (exch_input e)) as [sub|]; simpl; [|discriminate];
       specialize (H sub eq_refl (act_symbols s));
       destruct (rec sub (act_symbols s)) as [[[v st']|err]|];
       simpl; [discriminate|discriminate|contradiction] ]).
Qed.

Lemma exch_loop_total rec a exs s :
  (forall e sub, In e exs -> callee ctx a e = Some sub -> forall st, rec sub st <> None) ->
  exch_loop ctx rec a exs s <> None.
Proof.
  revert s. induction exs as [|e exs IH]; intros s H; simpl; [discriminate|].
  assert (T : exch_step ctx rec a e s <> None).
  { apply exch_step_total. intros sub C. apply (H e sub); simpl; auto. }
  destruct (exch_step ctx rec a e s) as [[s'|err]|]; simpl;
    [|discriminate|contradiction].
  apply IH. intros e' sub I. apply H. simpl; auto.
Qed.

(** One amount of fuel serves all the activities called from [a]. *)
Lemma callees_bound a exs :
  (forall sub, calls ctx a sub ->
     exists n, forall fuel, n <= fuel -> forall st, rec_func ctx fuel sub st <> None) ->
  incl exs (act_exchanges a) ->
  exists n, forall e sub, In e exs -> callee ctx a e = Some sub ->
    forall fuel, n <= fuel -> forall st, rec_func ctx fuel sub st <> None.
Proof.
  intros H. induction exs as [|e exs IH]; intros I.
  - exists 0. intros e sub [].
  - destruct IH as [n Hn]; [intros x Hx; apply I; simpl; auto|].
    destruct (callee ctx a e) as [sub|] eqn:C.
    + destruct (H sub) as [m Hm]; [exists e; split; [apply I; simpl; auto|assumption]|].
      exists (Nat.max n m). intros e' sub' [<-|I'] C' fuel L st.
      * rewrite C in C'. injection C' as <-. apply Hm. lia.
      * apply (Hn e' sub' I' C'). lia.
    + exists n. intros e' sub' [<-|I'] C' fuel L st; [congruence|].
      apply (Hn e' sub' I' C'). lia.
Qed.

(** When the chain of calls below [a] is well founded, [rec_func] returns
    on [a] as soon as the fuel exceeds a bound. *)
Lemma rec_func_returns a :
  Acc (fun sub a' => calls ctx a' sub) a ->
  exists n, forall fuel, n <= fuel -> forall st, rec_func ctx fuel a st <> None.
Proof.
  induction 1 as [a _ IH].
  destruct (@callees_bound a (act_exchanges a) IH (incl_refl _)) as [n Hn].
  exists (S n). intros fuel L st. destruct fuel as [|fuel]; [lia|].
  rewrite rec_func_S.
  assert (T : exch_loop ctx (rec_func ctx fuel) a (act_exchanges a) (initial_state st) <> None).
  { apply exch_loop_total. intros e sub I C st'. apply (Hn e sub I C). lia. }
  destruct (exch_loop ctx (rec_func ctx fuel) a (act_exchanges a) (initial_state st))
    as [[s'|err]|]; simpl; [|discriminate|contradiction].
  destruct (py_div ctx (res s') (outputAmount s')); discriminate.
Qed.

(** More fuel does not change a result. *)
Lemma exch_step_mono rec rec' a e s r :
  (forall sub st r, rec sub st = Some r -> rec' sub st = Some r) ->
  exch_step ctx rec a e s = Some r -> exch_step ctx rec' a e s = Some r.
Proof.
  intros H. unfold exch_step, input_expr.
  destruct (exch_formula e); auto;
    (destruct (py_eq (exch_input e) (exch_output e)); auto;
     destruct (is_background ctx (fst (exch_input e))); auto;
     destruct (_ && _); auto;
     destruct (getAct ctx (exch_input e)) as [sub|]; auto;
     destruct (rec sub (act_symbols s)) as [r0|] eqn:R; [|discriminate];
     rewrite (H _ _ _ R); auto).
Qed.

Lemma exch_loop_mono rec rec' a exs s r :
  (forall sub st r, rec sub st = Some r -> rec' sub st = Some r) ->
  exch_loop ctx rec a exs s = Some r -> exch_loop ctx rec' a exs s = Some r.
Proof.
  intros H. revert s. induction exs as [|e exs IH]; intros s; simpl; [auto|].
  destruct (exch_step ctx rec a e s) as [r0|] eqn:S; [|discriminate].
  erewrite exch_step_mono; [|exact H|exact S]. destruct r0 as [s'|err]; simpl; auto.
Qed.

Lemma rec_func_mono fuel a st r :
  rec_func ctx fuel a st = Some r -> rec_func ctx (S fuel) a st = Some r.
Proof.
  revert a st r. induction fuel as [|fuel IH]; intros a st r; [discriminate|].
  rewrite (rec_func_S (S fuel)), (rec_func_S fuel).
  destruct (exch_loop ctx (rec_func ctx fuel) a (act_exchanges a) (initial_state st))
    as [r0|] eqn:L; [|discriminate].
  erewrite exch_loop_mono; [|exact IH|exact L]. auto.
Qed.

Lemma rec_func_le fuel fuel' a st r :
  fuel <= fuel' -> rec_func ctx fuel a st = Some r -> rec_func ctx fuel' a st = Some r.
Proof. induction 1; intros E; [assumption|]. apply rec_func_mono. auto. Qed.

End Traversal.


(** ** What a successful traversal leaves in the symbol table *)

Section Leaves.
Context (num : Type) {NUM : Number num}.
Variable ctx : Collaborators num.

Implicit Types (a sub root x : Activity num) (e : Exchange num).
Implicit Types (st : symtab) (s : loop_state num) (k : key).
Implicit Types (rec : Activity num -> symtab -> fueled (pyval num * symtab)).

Lemma visits_calls a sub x : calls ctx a sub -> visits ctx sub x -> visits ctx a x.
Proof.
  intros C V. induction V as [|y z _ IH C'].
  - eapply visits_sub; [apply visits_root|exact C].
  - eapply visits_sub; [exact IH|exact C'].
Qed.

Lemma visits_head a x :
  visits ctx a x -> x = a \/ exists sub, calls ctx a sub /\ visits ctx sub x.
Proof.
  induction 1 as [|y z V IH C]; [auto|]. right.
  destruct IH as [->|(sub & C0 & V0)].
  - exists z. split; [exact C|apply visits_root].
  - exists sub. split; [exact C0|]. eapply visits_sub; [exact V0|exact C].
Qed.

Lemma reachable_leaf_sub a sub k :
  calls ctx a sub -> reachable_leaf ctx sub k -> reachable_leaf ctx a k.
Proof.
  intros C (x & e & V & I & L). exists x, e. split; [|auto].
  eapply visits_calls; eauto.
Qed.

Lemma formula_symbol_sub a sub sym :
  calls ctx a sub -> formula_symbol ctx sub sym -> formula_symbol ctx a sym.
Proof.
  intros C (x & e & V & I & L). exists x, e. split; [|auto].
  eapply visits_calls; eauto.
Qed.

Lemma step_leaves_reachable a e k :
  In e (act_exchanges a) -> step_leaves ctx a e k -> reachable_leaf ctx a k.
Proof.
  intros I [L|(sub & C & R)].
  - exists a, e. split; [apply visits_root|auto].
  - eapply reachable_leaf_sub; [exists e; eauto|exact R].
Qed.

Lemma reachable_leaf_step a k :
  reachable_leaf ctx a k -> exists e, In e (act_exchanges a) /\ step_leaves ctx a e k.
Proof.
  intros (x & e & V & I & L). apply visits_head in V as [->|(sub & (e0 & I0 & C0) & V)].
  - exists e. split; [exact I|left; exact L].
  - exists e0. split; [exact I0|]. right. exists sub. split; [exact C0|].
    exists x, e. auto.
Qed.

Lemma leaf_background e k : leaf ctx e = Some k -> is_background ctx (fst k) = true.
Proof.
  unfold leaf. destruct (contributes e); simpl; [|discriminate].
  destruct (is_background ctx (fst (exch_input e))) eqn:B; [|discriminate].
  intros E. injection E as <-. exact B.
Qed.

Lemma leaf_contributes e k : leaf ctx e = Some k -> contributes e = true.
Proof. unfold leaf. destruct (contributes e); simpl; [auto|discriminate]. Qed.

Lemma callee_contributes a e sub : callee ctx a e = Some sub -> contributes e = true.
Proof. unfold callee. destruct (contributes e); simpl; [auto|discriminate]. Qed.

Lemma not_contributes_no_leaves a e k : contributes e = false -> ~ step_leaves ctx a e k.
Proof.
  intros N [L|(sub & C & _)].
  - apply leaf_contributes in L. congruence.
  - apply callee_contributes in C. congruence.
Qed.

Lemma leaf_not_callee a e k sub : leaf ctx e = Some k -> callee ctx a e <> Some sub.
Proof.
  unfold leaf, callee. destruct (contributes e); simpl; [|discriminate].
  destruct (is_background ctx (fst (exch_input e))); simpl; discriminate.
Qed.

Lemma callee_not_leaf a e k sub : callee ctx a e = Some sub -> leaf ctx e <> Some k.
Proof. intros C L. eapply leaf_not_callee; eauto. Qed.

Lemma symbol_for_keys st k sym st' :
  symbol_for ctx st k = Some (Ok (sym, st')) ->
  forall k', In k' (dict_keys st') <-> In k' (dict_keys st) \/ k' = k.
Proof.
  intros S k'. pose proof (symbol_for_get _ _ _ S) as G.
  apply symbol_for_spec in S as [[G0 ->]|(_ & -> & _)].
  - split; [auto|]. intros [I| ->]; [exact I|]. eapply dict_get_Some_key; eauto.
  - unfold dict_keys. rewrite map_app, in_app_iff. simpl. intuition congruence.
Qed.

Lemma pyval_symbols_add (v w : pyval num) sym :
  adds_no_symbol ctx ->
  In sym (pyval_symbols (py_add ctx v w)) ->
  In sym (pyval_symbols v) \/ In sym (pyval_symbols w).
Proof.
  intros A. unfold pyval_symbols.
  destruct v, w; simpl; try tauto; intros I; apply A in I; exact I.
Qed.

Lemma pyval_symbols_mul (v w : pyval num) sym :
  adds_no_symbol ctx ->
  In sym (pyval_symbols (py_mul ctx v w)) ->
  In sym (pyval_symbols v) \/ In sym (pyval_symbols w).
Proof.
  intros A. unfold pyval_symbols.
  destruct v, w; simpl; try tauto; intros I; apply A in I; exact I.
Qed.

Lemma pyval_symbols_div (v w : pyval num) d sym :
  adds_no_symbol ctx ->
  py_div ctx v d = Ok w -> In sym (pyval_symbols w) -> In sym (pyval_symbols v).
Proof.
  intros A. unfold pyval_symbols, py_div. destruct v; simpl.
  - destruct (num_eqb d num0); [discriminate|]. intros E. injection E as <-. simpl. tauto.
  - intros E. injection E as <-. simpl. intros I. apply A in I as [I|[]]. exact I.
Qed.

Lemma exch_step_spec rec a e s s' :
  (forall sub st v st', rec sub st = Some (Ok (v, st')) -> traversal_spec ctx sub st v st') ->
  exch_step ctx rec a e s = Some (Ok s') ->
  pass_extends ctx (act_symbols s) (act_symbols s')
  /\ (forall k, In k (dict_keys (act_symbols s')) <->
                In k (dict_keys (act_symbols s)) \/ step_leaves ctx a e k)
  /\ (adds_no_symbol ctx ->
      forall sym, In sym (pyval_symbols (res s')) ->
        In sym (pyval_symbols (res s))
        \/ (exists k, step_leaves ctx a e k /\ dict_get k (act_symbols s') = Some sym)
        \/ (contributes e = true /\ In sym (pyval_symbols (formula_value (exch_formula e))))
        \/ (exists sub, callee ctx a e = Some sub /\ formula_symbol ctx sub sym)).
Proof.
  intros Hrec S.
  apply exch_step_Ok in S as [(N & R & A)|[(k0 & sym0 & L & S & R)|(sub & v & C & S & R)]].
  - rewrite A, R. split; [apply pass_refl|]. split; [|auto].
    intros k. split; [auto|]. intros [I|L]; [exact I|].
    exfalso. eapply not_contributes_no_leaves; eauto.
  - split; [eapply pass_step; [apply pass_refl|exact S]|]. split.
    + intros k. rewrite (symbol_for_keys _ _ S). split.
      * intros [I| ->]; [auto|]. right. left. exact L.
      * intros [I|[L'|(sub & C & _)]]; [auto| |].
        -- right. congruence.
        -- exfalso. eapply leaf_not_callee; eauto.
    + intros AN sym I. rewrite R in I.
      apply (@pyval_symbols_add _ _ _ AN) in I as [I|I]; [auto|].
      apply (@pyval_symbols_mul _ _ _ AN) in I as [I|I].
      * right. right. left. split; [eapply leaf_contributes; eauto|exact I].
      * right. left. exists k0. split; [left; exact L|].
        destruct I as [<-|[]]. eapply symbol_for_get; eauto.
  - destruct (Hrec _ _ _ _ S) as (E & K & Y). split; [exact E|]. split.
    + intros k. rewrite K. split.
      * intros [I|RL]; [auto|]. right. right. exists sub. auto.
      * intros [I|[L|(sub' & C' & RL)]]; [auto| |].
        -- exfalso. eapply callee_not_leaf; eauto.
        -- right. congruence.
    + intros AN sym I. rewrite R in I.
      apply (@pyval_symbols_add _ _ _ AN) in I as [I|I]; [auto|].
      apply (@pyval_symbols_mul _ _ _ AN) in I as [I|I].
      * right. right. left. split; [eapply callee_contributes; eauto|exact I].
      * apply (Y AN) in I as [(k & RL & G)|F].
        -- right. left. exists k. split; [right; exists sub; auto|exact G].
        -- right. right. right. exists sub. auto.
Qed.

Lemma exch_loop_spec rec a exs s s' :
  (forall sub st v st', rec sub st = Some (Ok (v, st')) -> traversal_spec ctx sub st v st') ->
  incl exs (act_exchanges a) ->
  exch_loop ctx rec a exs s = Some (Ok s') ->
  pass_extends ctx (act_symbols s) (act_symbols s')
  /\ (forall k, In k (dict_keys (act_symbols s')) <->
                In k (dict_keys (act_symbols s)) \/ exists e, In e exs /\ step_leaves ctx a e k)
  /\ (adds_no_symbol ctx ->
      forall sym, In sym (pyval_symbols (res s')) ->
        In sym (pyval_symbols (res s))
        \/ (exists k, reachable_leaf ctx a k /\ dict_get k (act_symbols s') = Some sym)
        \/ formula_symbol ctx a sym).
Proof.
  intros Hrec. revert s. induction exs as [|e exs IH]; intros s I; simpl.
  - intros E. injection E as <-. split; [apply pass_refl|]. split; [|auto].
    intros k. split; [auto|]. intros [H|(e & [] & _)]. exact H.
  - destruct (exch_step ctx rec a e s) as [[s1|err]|] eqn:S; simpl; try discriminate.
    intros L.
    assert (Ie : In e (act_exchanges a)) by (apply I; simpl; auto).
    destruct (@exch_step_spec rec a e s s1 Hrec S) as (E1 & K1 & Y1).
    destruct (IH s1 (fun e' He => I e' (or_intror He)) L) as (E2 & K2 & Y2).
    split; [eapply pass_extends_trans; eauto|]. split.
    + intros k. rewrite K2, K1. split.
      * intros [[H|H]|(e' & I' & H)]; [auto| |].
        -- right. exists e. simpl; auto.
        -- right. exists e'. simpl; auto.
      * intros [H|(e' & [<-|I'] & H)]; [auto|auto|]. right. exists e'. auto.
    + intros AN sym Hs. apply (Y2 AN) in Hs as [Hs|Hs]; [|auto].
      apply (Y1 AN) in Hs as [Hs|[(k & SL & G)|[(C & F)|(sub & C & F)]]]; [auto| | |].
      * right. left. exists k. split; [eapply step_leaves_reachable; eauto|].
        eapply pass_extends_get; eauto.
      * right. right. exists a, e. split; [apply visits_root|auto].
      * right. right. eapply formula_symbol_sub; [exists e; eauto|exact F].
Qed.

Lemma rec_func_spec fuel a st v st' :
  rec_func ctx fuel a st = Some (Ok (v, st')) -> traversal_spec ctx a st v st'.
Proof.
  revert a st v st'. induction fuel as [|fuel IH]; intros a st v st'; [discriminate|].
  rewrite rec_func_S.
  destruct (exch_loop ctx (rec_func ctx fuel) a (act_exchanges a) (initial_state st))
    as [[s'|err]|] eqn:L; simpl; try discriminate.
  destruct (py_div ctx (res s') (outputAmount s')) as [w|err] eqn:D; [|discriminate].
  intros E. injection E as <- <-.
  destruct (@exch_loop_spec _ a _ _ s' IH (incl_refl _) L) as (E & K & Y). simpl in *.
  split; [exact E|]. split.
  - intros k. rewrite K. split.
    + intros [H|(e & I & SL)]; [auto|]. right. eapply step_leaves_reachable; eauto.
    + intros [H|H]; [auto|]. right. now apply reachable_leaf_step.
  - intros AN sym Hs. apply (@pyval_symbols_div _ _ _ sym AN D) in Hs.
    apply (Y AN) in Hs as [[]|Hs]. exact Hs.
Qed.

End Leaves.

(** ** The returned dictionary *)

Lemma reverse_dict_app {K V} `{EqDec V} (l : dict K V) (acc : dict V K) :
  NoDup (dict_keys acc ++ dict_values l) ->
  fold_left (fun acc kv => dict_set (snd kv) (fst kv) acc) l acc
  = acc ++ map (fun kv => (snd kv, fst kv)) l.
Proof.
  revert acc. induction l as [|[k v] l IH]; intros acc ND; simpl.
  - now rewrite app_nil_r.
  - simpl in ND. rewrite dict_set_fresh.
    + rewrite IH.
      * now rewrite <- app_assoc.
      * unfold dict_keys. rewrite map_app. simpl. now rewrite <- app_assoc.
    + apply dict_get_None. apply NoDup_remove_2 in ND. rewrite in_app_iff in ND. tauto.
Qed.

Lemma reverse_dict_get {K V} `{EqDec K} `{EqDec V} (d : dict K V) (k : K) (v : V) :
  NoDup (dict_keys d) -> NoDup (dict_values d) ->
  (dict_get v (_reverse_dict d) = Some k <-> dict_get k d = Some v).
Proof.
  intros NK NV. unfold _reverse_dict. rewrite reverse_dict_app by exact NV. simpl.
  set (sw := fun kv : K * V => (snd kv, fst kv)).
  assert (KS : dict_keys (map sw d) = dict_values d).
  { unfold dict_keys, dict_values. rewrite map_map. reflexivity. }
  split; intros G.
  - apply dict_get_In in G. apply in_map_iff in G as ([k' v'] & E & I).
    injection E as -> ->. now apply In_dict_get.
  - apply In_dict_get; [now rewrite KS|].
    apply dict_get_In in G. apply in_map_iff. exists (k, v). auto.
Qed.

Section Returned.
Context (num : Type) {NUM : Number num}.
Variable ctx : Collaborators num.


End Returned.

(** ** Exchanges that a successful traversal has passed *)

Section Passed.
Context (num : Type) {NUM : Number num}.
Variable ctx : Collaborators num.

Implicit Types (a sub root : Activity num) (e : Exchange num).
Implicit Types (st : symtab) (s : loop_state num).
Implicit Types (rec : Activity num -> symtab -> fueled (pyval num * symtab)).

Lemma exch_loop_app rec a l1 l2 s :
  exch_loop ctx rec a (l1 ++ l2) s
  = fbind (exch_loop ctx rec a l1 s) (fun s1 => exch_loop ctx rec a l2 s1).
Proof.
  revert s. induction l1 as [|e l1 IH]; intros s; simpl; [reflexivity|].
  destruct (exch_step ctx rec a e s) as [[s1|err]|]; simpl; auto.
Qed.

Lemma exch_loop_each rec a exs s s' e :
  exch_loop ctx rec a exs s = Some (Ok s') -> In e exs ->
  exists s1 s2, exch_step ctx rec a e s1 = Some (Ok s2).
Proof.
  revert s. induction exs as [|e0 exs IH]; intros s L I; [destruct I|].
  simpl in L. destruct (exch_step ctx rec a e0 s) as [[s1|err]|] eqn:S; try discriminate.
  destruct I as [<-|I]; [eauto|]. eapply IH; eauto.
Qed.

(** A lookup-or-allocation raises only when the activity is not stored. *)
Lemma symbol_for_Err st k err :
  symbol_for ctx st k = Some (Err err) -> err = UnknownObject k.
Proof.
  unfold symbol_for. destruct (dict_get k st); [discriminate|].
  unfold act_to_symbol. destruct (getAct ctx k); simpl.
  - destruct (find_free _ _ _ _ _); simpl; discriminate.
  - intros E. now injection E as <-.
Qed.

(** Among the exchanges that [act.exchanges()] lists, the input is the
    activity exactly when the exchange is a self-loop. *)
Lemma own_output_self_input a e :
  own_outputs a -> In e (act_exchanges a) ->
  py_eq (exch_input e) (act_key a) = py_eq (exch_input e) (exch_output e).
Proof. intros O I. now rewrite (O e I). Qed.

Lemma self_input_adds_nothing rec a e s :
  own_outputs a -> In e (act_exchanges a) -> exch_input e = act_key a ->
  contributes e = false
  /\ exists s', exch_step ctx rec a e s = Some (Ok s')
                /\ res s' = res s /\ act_symbols s' = act_symbols s.
Proof.
  intros O I K.
  assert (IO : py_eq (exch_input e) (exch_output e) = true).
  { rewrite <- (@own_output_self_input a e O I). now apply py_eq_true. }
  unfold contributes, exch_step. rewrite IO.
  destruct (exch_formula e); simpl;
    (split; [reflexivity|]); try (destruct (num_eqb (exch_amount e) num1));
    eexists; (split; [reflexivity|]); split; reflexivity.
Qed.

Lemma exch_step_not_recursive rec a e s k :
  own_outputs a -> In e (act_exchanges a) ->
  (forall sub st, getAct ctx (exch_input e) = Some sub ->
                  rec sub st <> Some (Err (RecursiveExchange k))) ->
  exch_step ctx rec a e s <> Some (Err (RecursiveExchange k)).
Proof.
  intros O I H. unfold exch_step, input_expr.
  rewrite self_check, (@own_output_self_input a e O I).
  destruct (exch_formula e); try discriminate;
    (destruct (py_eq (exch_input e) (exch_output e)); simpl; [discriminate|];
     destruct (is_background ctx (fst (exch_input e)));
     [ destruct (symbol_for ctx (act_symbols s) (exch_input e)) as [[[sym st']|err]|] eqn:SF;
       simpl; try discriminate;
       intros E; injection E as ->; apply symbol_for_Err in SF; discriminate
     | destruct (getAct ctx (exch_input e)) as [sub|] eqn:G; [|discriminate];
       specialize (H sub (act_symbols s) eq_refl);
       destruct (rec sub (act_symbols s)) as [[[v st']|err]|];
       simpl; try discriminate;
       intros E; injection E as ->; now apply H ]).
Qed.

Lemma exch_loop_not_recursive rec a exs s k :
  own_outputs a -> incl exs (act_exchanges a) ->
  (forall e sub st, In e exs -> getAct ctx (exch_input e) = Some sub ->
                    rec sub st <> Some (Err (RecursiveExchange k))) ->
  exch_loop ctx rec a exs s <> Some (Err (RecursiveExchange k)).
Proof.
  intros O. revert s. induction exs as [|e exs IH]; intros s I H; simpl; [discriminate|].
  assert (T : exch_step ctx rec a e s <> Some (Err (RecursiveExchange k))).
  { apply exch_step_not_recursive; [exact O|apply I; simpl; auto|].
    intros sub st G. apply (H e sub st); simpl; auto. }
  destruct (exch_step ctx rec a e s) as [[s1|err]|]; simpl; [|exact T|discriminate].
  apply IH; [intros e' Ie; apply I; simpl; auto|].
  intros e' sub st Ie. apply H. simpl; auto.
Qed.

Lemma rec_func_not_recursive fuel a st k :
  brightway_data ctx -> own_outputs a ->
  rec_func ctx fuel a st <> Some (Err (RecursiveExchange k)).
Proof.
  intros B. revert a st. induction fuel as [|fuel IH]; intros a st O; [discriminate|].
  rewrite rec_func_S.
  assert (T : exch_loop ctx (rec_func ctx fuel) a (act_exchanges a) (initial_state st)
              <> Some (Err (RecursiveExchange k))).
  { apply exch_loop_not_recursive; [exact O|apply incl_refl|].
    intros e sub st' _ G. apply IH. apply B.
    unfold getAct in G. now apply find_some in G. }
  destruct (exch_loop ctx (rec_func ctx fuel) a (act_exchanges a) (initial_state st))
    as [[s'|err]|]; simpl;
    [|intros E; injection E as ->; now apply T|discriminate].
  unfold py_div. destruct (res s'); [|discriminate].
  destruct (num_eqb (outputAmount s') num0); discriminate.
Qed.

Lemma rec_func_Ok_callee fuel a st r sub :
  rec_func ctx fuel a st = Some (Ok r) -> calls ctx a sub ->
  exists fuel' st' r', rec_func ctx fuel' sub st' = Some (Ok r').
Proof.
  destruct fuel as [|fuel]; [discriminate|]. rewrite rec_func_S.
  destruct (exch_loop ctx (rec_func ctx fuel) a (act_exchanges a) (initial_state st))
    as [[s'|err]|] eqn:L; simpl; try discriminate.
  intros _ (e & I & C). destruct (@exch_loop_each _ _ _ _ _ _ L I) as (s1 & s2 & S).
  apply exch_step_Ok in S as [(N & _)|[(k & sym & Lf & _)|(sub' & v & C' & R & _)]].
  - apply callee_contributes in C. congruence.
  - exfalso. eapply leaf_not_callee; eauto.
  - rewrite C in C'. injection C' as <-. eauto.
Qed.

Lemma rec_func_Ok_visits root a :
  visits ctx root a ->
  (exists fuel st r, rec_func ctx fuel root st = Some (Ok r)) ->
  exists fuel st r, rec_func ctx fuel a st = Some (Ok r).
Proof.
  induction 1 as [|x y _ IH C]; intros H; [exact H|].
  destruct (IH H) as (fuel & st & r & R). eapply rec_func_Ok_callee; eauto.
Qed.

End Passed.

(** ** Termination of [actToExpression] *)

(** C1, as the code has it.  When the chain of recursive calls that starts
    at the root is well founded (no cycle among the foreground activities,
    direct or indirect), [actToExpression] returns: beyond some amount of fuel
    its outcome, an expression or an exception, no longer depends on the fuel.
    A sub-activity reached along several paths is simply traversed again. *)
Theorem actToExpression_returns_when_well_founded
    (num : Type) (NUM : Number num) (ctx : Collaborators num) (root : Activity num) :
  Acc (fun sub a => calls ctx a sub) root ->
  exists n r, forall fuel, n <= fuel -> actToExpression ctx fuel root = Some r.
Proof.
  intros A. destruct (rec_func_returns A) as [n Hn].
  destruct (rec_func ctx n root []) as [r|] eqn:R; [|exfalso; apply (Hn n (le_n n) [] R)].
  exists n.
  exists (match r with Ok (e, st) => Ok (e, _reverse_dict st) | Err err => Err err end).
  intros fuel L. unfold actToExpression.
  erewrite rec_func_le; [|exact L|exact R]. destruct r as [[e st]|err]; reflexivity.
Qed.

Lemma cycle_diverges fuel :
  forall st, rec_func cycle_ctx fuel cycA st = None /\ rec_func cycle_ctx fuel cycB st = None.
Proof.
  induction fuel as [|fuel IH]; intros st; [split; reflexivity|].
  destruct (IH st) as [HA HB]. rewrite !rec_func_S.
  cbn -[rec_func]. rewrite HA, HB. split; reflexivity.
Qed.

(** C1 fails on an indirect cycle: in [cycle_ctx] no exchange has its own
    activity as input, and the traversal from [cycA] never returns. *)
Lemma indirect_cycle_never_returns :
  no_self_reference cycle_ctx /\
  forall fuel, actToExpression cycle_ctx fuel cycA = None.
Proof.
  split.
  - intros a e [<-|[<-|[]]] [<-|[]]; discriminate.
  - intros fuel. unfold actToExpression.
    now rewrite (proj1 (cycle_diverges fuel [])).
Qed.

(** ** The symbols of the expression *)

Section Symbolic.
Context (num : Type) {NUM : Number num}.
Variable ctx : Collaborators num.

Implicit Types (a sub : Activity num) (e : Exchange num) (s : loop_state num).
Implicit Types (v w : pyval num).
Implicit Types (rec : Activity num -> symtab -> fueled (pyval num * symtab)).

Lemma is_symbolic_add v w : is_symbolic (py_add ctx v w) = is_symbolic v || is_symbolic w.
Proof. destruct v, w; reflexivity. Qed.

Lemma is_symbolic_mul v w : is_symbolic (py_mul ctx v w) = is_symbolic v || is_symbolic w.
Proof. destruct v, w; reflexivity. Qed.

Lemma is_symbolic_div v (d : num) w : py_div ctx v d = Ok w -> is_symbolic w = is_symbolic v.
Proof.
  destruct v; simpl; [destruct (num_eqb d num0); [discriminate|]|];
    intros E; injection E as <-; reflexivity.
Qed.

Lemma is_symbolic_formula (f : amount_or_formula num) :
  is_symbolic (formula_value f) = is_formula f.
Proof. destruct f; reflexivity. Qed.

Lemma leaf_input e k : leaf ctx e = Some k -> k = exch_input e.
Proof.
  unfold leaf. destruct (contributes e && is_background ctx (fst (exch_input e)));
    [|discriminate]. intros E. now injection E as <-.
Qed.

Lemma callee_foreground a e sub :
  callee ctx a e = Some sub -> is_background ctx (fst (exch_input e)) = false.
Proof.
  unfold callee. destruct (contributes e); simpl; [|discriminate].
  destruct (is_background ctx (fst (exch_input e))); simpl; [discriminate|reflexivity].
Qed.

Lemma symbolic_source_head a :
  symbolic_source ctx a <-> exists e, In e (act_exchanges a) /\ brings_symbol ctx a e.
Proof.
  split.
  - intros (x & e & V & I & C & D). apply visits_head in V as [->|(sub & Cl & V)].
    + exists e. split; [exact I|]. split; [exact C|]. destruct D; auto.
    + destruct Cl as (e0 & I0 & C0). exists e0. split; [exact I0|].
      split; [eapply callee_contributes; exact C0|]. right. right.
      exists sub. split; [exact C0|]. exists x, e. auto.
  - intros (e & I & C & [B|[F|(sub & C0 & (x & e' & V & I' & C' & D))]]).
    + exists a, e. split; [apply visits_root|]. auto.
    + exists a, e. split; [apply visits_root|]. auto.
    + exists x, e'. split; [|auto].
      eapply visits_calls; [|exact V]. exists e. auto.
Qed.

Lemma exch_step_symbolic rec a e s s' :
  (forall sub st v st', rec sub st = Some (Ok (v, st')) ->
                        (is_symbolic v = true <-> symbolic_source ctx sub)) ->
  exch_step ctx rec a e s = Some (Ok s') ->
  (is_symbolic (res s') = true <-> is_symbolic (res s) = true \/ brings_symbol ctx a e).
Proof.
  intros IH E.
  apply exch_step_Ok in E as [(N & -> & _)|[(k & sym & Lf & _ & ->)|(sub & v & C & R & ->)]].
  - split; [auto|]. intros [H|(C & _)]; [exact H|congruence].
  - rewrite is_symbolic_add, is_symbolic_mul. simpl. rewrite !orb_true_r.
    split; [|reflexivity]. intros _. right. split; [eapply leaf_contributes; exact Lf|].
    left. pose proof (@leaf_background num ctx e k Lf) as B.
    now rewrite (@leaf_input e k Lf) in B.
  - rewrite is_symbolic_add, is_symbolic_mul, is_symbolic_formula, !orb_true_iff.
    rewrite (IH _ _ _ _ R). split.
    + intros [H|[H|H]]; [auto| |]; right;
        (split; [eapply callee_contributes; exact C|]); [auto|].
      right. right. exists sub. auto.
    + intros [H|(_ & [B|[F|(sub' & C' & Y)]])]; [auto| |auto|].
      * rewrite (@callee_foreground a e sub C) in B. discriminate.
      * rewrite C in C'. injection C' as <-. auto.
Qed.

Lemma exch_loop_symbolic rec a (exs : list (Exchange num)) s s' :
  (forall sub st v st', rec sub st = Some (Ok (v, st')) ->
                        (is_symbolic v = true <-> symbolic_source ctx sub)) ->
  exch_loop ctx rec a exs s = Some (Ok s') ->
  (is_symbolic (res s') = true
   <-> is_symbolic (res s) = true \/ exists e, In e exs /\ brings_symbol ctx a e).
Proof.
  intros IH. revert s. induction exs as [|e exs IHl]; intros s L.
  - injection L as <-. split; [auto|]. intros [H|(e & [] & _)]. exact H.
  - simpl in L. destruct (exch_step ctx rec a e s) as [[s1|err]|] eqn:E; try discriminate.
    simpl in L. rewrite (IHl _ L), (@exch_step_symbolic rec a e s s1 IH E). split.
    + intros [[H|H]|(e' & I & H)]; [auto| |]; right;
        [exists e|exists e']; simpl; auto.
    + intros [H|(e' & [<-|I] & H)]; [auto|auto|]. right. exists e'. auto.
Qed.

Lemma rec_func_symbolic fuel a (st : symtab) v (st' : symtab) :
  rec_func ctx fuel a st = Some (Ok (v, st')) ->
  (is_symbolic v = true <-> symbolic_source ctx a).
Proof.
  revert a st v st'. induction fuel as [|fuel IH]; intros a st v st'; [discriminate|].
  rewrite rec_func_S.
  destruct (exch_loop ctx (rec_func ctx fuel) a (act_exchanges a) (initial_state st))
    as [[s'|err]|] eqn:L; simpl; try discriminate.
  destruct (py_div ctx (res s') (outputAmount s')) as [w|err] eqn:D; [|discriminate].
  intros E. injection E as <- <-.
  rewrite (@is_symbolic_div (res s') (outputAmount s') w D),
    (@exch_loop_symbolic (rec_func ctx fuel) a (act_exchanges a) (initial_state st) s' IH L),
    symbolic_source_head.
  simpl. split; [intros [H|H]; [discriminate|exact H]|auto].
Qed.

Lemma sequence_lookup_error (names : list string) err :
  sequence (map (fun key => match dict_get key (_param_registry ctx) with
                            | Some p => Ok (p_names p)
                            | None => Err (KeyError key)
                            end) names) = Err err ->
  err <> AttributeError.
Proof.
  induction names as [|n names IH]; simpl; [discriminate|].
  destruct (dict_get n (_param_registry ctx)); simpl.
  - destruct (sequence _) as [l|err'] eqn:Q; simpl; [discriminate|].
    intros E. injection E as <-. now apply IH.
  - intros E. injection E as <-. discriminate.
Qed.

Lemma names_never_attribute_error (names : list string) :
  rbind (_expanded_names_to_names ctx names) (fun l => _expand_param_names ctx l)
  <> Err AttributeError
  /\ forall l, _expanded_names_to_names ctx names = Ok l ->
               _expand_param_names ctx l <> Err AttributeError.
Proof.
  assert (X : forall l, _expand_param_names ctx l <> Err AttributeError).
  { intros l. unfold _expand_param_names.
    destruct (sequence _) as [ll|err] eqn:Q; simpl; [discriminate|].
    intros E. injection E as ->. now apply sequence_lookup_error in Q. }
  split; [|intros l _; apply X].
  unfold _expanded_names_to_names. cbv zeta.
  destruct (filter _ (dedup names)); simpl; [apply X|discriminate].
Qed.

End Symbolic.

(** ** The leaves in the expression when nothing cancels *)

Section Kept.
Context (num : Type) {NUM : Number num}.
Variable ctx : Collaborators num.
Hypothesis keeps : drops_no_symbol ctx.

Implicit Types (a sub : Activity num) (e : Exchange num) (s : loop_state num).
Implicit Types (v w : pyval num) (k : key) (sym : string).
Implicit Types (rec : Activity num -> symtab -> fueled (pyval num * symtab)).







End Kept.

(** Trees that are built and not evaluated (sympy under [evaluate(False)])
    add no symbol and drop none. *)
Lemma unevaluated_trees_keep_symbols (num : Type) (NUM : Number num)
    (ctx : Collaborators num) :
  (forall op a b, sympy_op ctx op a b = Bin op a b) ->
  adds_no_symbol ctx /\ drops_no_symbol ctx.
Proof.
  intros U. split; intros op a b s; rewrite U; simpl; rewrite in_app_iff; auto.
Qed.


(** The evaluation that collects like terms drops a symbol: [x - x] is 0. *)
Lemma collected_terms_drop_symbols : ~ drops_no_symbol cancel_ctx.
Proof.
  intros D. specialize (D OSub (Sym "x") (Sym "x") "x" (or_introl (or_introl eq_refl))).
  vm_compute in D. exact D.
Qed.


(** ** Symbol allocation *)

(** C5.  In every state of the symbol table that a pass goes through,
    distinct activities have distinct symbols; a lookup of an activity
    returns the same symbol again, also after further allocations; a new
    symbol is the slug of the activity's name or, when that is taken, the slug
    followed by the first integer from 1 on that gives a free name; and a
    traversal that starts in such a state ends in one. *)
Theorem symbol_allocation_injective_idempotent
    (num : Type) (NUM : Number num) (ctx : Collaborators num) (st : symtab) :
  pass_state ctx st ->
  injective_symbols st
  /\ (forall k s st', symbol_for ctx st k = Some (Ok (s, st')) ->
        forall st'', pass_extends ctx st' st'' ->
                     symbol_for ctx st'' k = Some (Ok (s, st'')))
  /\ (forall k a, dict_get k st = None -> getAct ctx k = Some a ->
        let slug := _slugify (act_name a) in
        exists s, symbol_for ctx st k = Some (Ok (s, st ++ [(k, s)]))
          /\ ~ In s (dict_values st)
          /\ (s = slug \/
               exists i, 1 <= i /\ s = (slug ++ decimal i)%string
                 /\ In slug (dict_values st)
                 /\ forall j, 1 <= j < i -> In (slug ++ decimal j)%string (dict_values st)))
  /\ (forall fuel a v st', rec_func ctx fuel a st = Some (Ok (v, st')) ->
        pass_state ctx st' /\ injective_symbols st'
        /\ forall k s, dict_get k st = Some s -> dict_get k st' = Some s).
Proof.
  intros P. split; [eapply pass_state_injective; eassumption|]. split; [|split].
  - intros k s st' S st'' E. apply symbol_for_again.
    eapply pass_extends_get; [exact E|]. eapply symbol_for_get; exact S.
  - intros k a G A slug. unfold symbol_for, act_to_symbol. rewrite G, A.
    pose proof (find_free_total (dict_values st) slug) as T.
    unfold dict_values in T. rewrite length_map in T. fold slug.
    destruct (find_free (List.length st) (dict_values st) slug slug 1) as [s|] eqn:F;
      [|contradiction].
    exists s. simpl. rewrite dict_set_fresh by exact G.
    split; [reflexivity|]. now apply find_free_Some in F.
  - intros fuel a v st' R. destruct (rec_func_spec _ _ _ _ R) as (E & _).
    assert (P' : pass_state ctx st') by (eapply pass_extends_trans; eauto).
    split; [exact P'|]. split; [eapply pass_state_injective; eassumption|].
    intros k s G. eapply pass_extends_get; [exact E|exact G].
Qed.

(** ** Direct recursion *)

(** C6: the test of lines 302-303 is never reached with an exchange that
    has the activity itself as input.  [act.exchanges()] lists exchanges
    whose output is the activity, so such an exchange has its input equal to
    its output and lines 288-291 pass it over as the self-loop: it adds no
    term and raises nothing, and [rec_func] never raises "Recursive
    exchange", on the model or on an activity below it. *)
Theorem recursive_exchange_is_never_raised
    (num : Type) (NUM : Number num) (ctx : Collaborators num) (root : Activity num) :
  brightway_data ctx ->
  own_outputs root ->
  (forall e rec s,
     In e (act_exchanges root) -> exch_input e = act_key root ->
     contributes e = false
     /\ exists s', exch_step ctx rec root e s = Some (Ok s')
                   /\ res s' = res s /\ act_symbols s' = act_symbols s)
  /\ (forall fuel st k, rec_func ctx fuel root st <> Some (Err (RecursiveExchange k)))
  /\ (forall fuel k, actToExpression ctx fuel root <> Some (Err (RecursiveExchange k))).
Proof.
  intros B O. split; [|split].
  - intros e rec s I K. now apply self_input_adds_nothing.
  - intros fuel st k. now apply rec_func_not_recursive.
  - intros fuel k E. unfold actToExpression in E.
    destruct (rec_func ctx fuel root []) as [[[v st]|err]|] eqn:R; simpl in E;
      try discriminate.
    injection E as ->. revert R. now apply rec_func_not_recursive.
Qed.

(** ** The length of the sample vectors *)

Section Lengths.
Context (num : Type) {NUM : Number num}.

Implicit Types (ps : params num) (n : nat).

Lemma param_length_loop_lists ps n :
  param_length_loop ps n
  = param_length_loop (filter (fun kv => is_pylist (snd kv)) ps) n.
Proof.
  revert n. induction ps as [|[k v] ps IH]; intros n; [reflexivity|].
  destruct v as [x|xs|xs]; simpl; auto.
  destruct (n =? 1); [apply IH|]. destruct (negb (n =? List.length xs)); auto.
Qed.

Lemma param_length_loop_no_list ps n :
  (forall kv, In kv ps -> is_pylist (snd kv) = false) ->
  param_length_loop ps n = Ok n.
Proof.
  revert n. induction ps as [|[k v] ps IH]; intros n H; [reflexivity|].
  assert (N : is_pylist v = false) by (apply (H (k, v)); simpl; auto).
  destruct v as [x|xs|xs]; simpl in *; try discriminate;
    apply IH; intros kv I; apply H; auto.
Qed.

(** Vectors of one length [N], mixed with numbers, give [N]. *)
Lemma param_length_loop_equal ps N n :
  Forall (fun kv => is_sample_vector N (snd kv) = true) ps ->
  n = N \/ n = 1 ->
  param_length_loop ps n
  = Ok (if existsb (fun kv => is_pylist (snd kv)) ps then N else n).
Proof.
  intros F. revert n. induction F as [|[k v] ps V _ IH]; intros n Hn; [reflexivity|].
  destruct v as [x|xs|xs]; simpl in *; try discriminate; [now apply IH|].
  apply Nat.eqb_eq in V.
  destruct (n =? 1) eqn:E1.
  - rewrite IH by (left; exact V). destruct (existsb _ ps); congruence.
  - apply Nat.eqb_neq in E1. destruct Hn as [->|Hn]; [|contradiction].
    rewrite V, Nat.eqb_refl. simpl. rewrite IH by auto.
    destruct (existsb _ ps); reflexivity.
Qed.

End Lengths.


(** C4: the check misses a mismatch when the first list has one element.
    With [a = [5]] and [b = [1, 2, 3]] the first list leaves [param_length]
    at 1, the second sets it to 3, no exception is raised and a table of
    three rows comes out. *)
Theorem length_check_misses_leading_singleton :
  param_length_loop [("a", PyList [5%Q]); ("b", PyList [1%Q; 2%Q; 3%Q])] 1 = Ok 3
  /\ multiLCAAlgebric ab_ctx 1 (Single (Model abRoot)) [method_X]
       [("a", PyList [5%Q]); ("b", PyList [1%Q; 2%Q; 3%Q])]
     = Some (Ok {| df_index := [Idx 0; Idx 1; Idx 2];
                   df_columns := ["X - unit"];
                   df_rows := [[6%Q]; [7%Q]; [8%Q]] |})
  /\ multiLCAAlgebric ab_ctx 1 (Single (Model abRoot)) [method_X]
       [("b", PyList [1%Q; 2%Q; 3%Q]); ("a", PyList [5%Q])]
     = Some (Err ShapeMismatch).
Proof. repeat split; vm_compute; reflexivity. Qed.

(** ** Vectorised evaluation *)

Lemma nth_map_lt {A B} (g : A -> B) (l : list A) (i : nat) (d : B) (d' : A) :
  i < List.length l -> nth i (map g l) d = g (nth i l d').
Proof.
  intros L. rewrite (nth_indep (map g l) d (g d')) by (now rewrite length_map).
  apply map_nth.
Qed.

Lemma dict_get_map_values {K V W} `{EqDec K} (g : V -> W) (k : K) (d : dict K V) :
  dict_get k (map (fun kv => (fst kv, g (snd kv))) d) = option_map g (dict_get k d).
Proof.
  induction d as [|[k' v] d IH]; simpl; [reflexivity|].
  destruct (eq_dec k k'); [reflexivity|exact IH].
Qed.

Lemma dict_mem_In {K V} `{EqDec K} (k : K) (d : dict K V) :
  dict_mem k d = true <-> In k (dict_keys d).
Proof.
  unfold dict_mem. destruct (dict_get k d) eqn:G.
  - split; [intros _; eapply dict_get_Some_key; eauto|auto].
  - apply dict_get_None in G. split; [discriminate|contradiction].
Qed.

Section Vectorised.
Context (num : Type) {NUM : Number num}.
Variables (N i : nat).

Implicit Types (a b v : ndarray num) (f : num -> num -> num) (xs ys row : list num).

Lemma zip_with_length f xs ys :
  List.length xs = List.length ys -> List.length (zip_with f xs ys) = List.length xs.
Proof.
  revert ys. induction xs as [|x xs IH]; intros [|y ys]; simpl; try discriminate; auto.
Qed.

Lemma zip_with_nth f xs ys j :
  List.length xs = List.length ys -> j < List.length xs ->
  nth j (zip_with f xs ys) num0 = f (nth j xs num0) (nth j ys num0).
Proof.
  revert ys j. induction xs as [|x xs IH]; intros [|y ys] j; simpl; try discriminate; try lia.
  intros E L. destruct j as [|j]; [reflexivity|]. apply IH; lia.
Qed.

(** An operation on sample arrays is an operation on each sample. *)
Lemma np_binop_pick f a b :
  sample_array N a -> sample_array N b ->
  exists v, np_binop f a b = Ok v /\ sample_array N v
            /\ (i < N -> np_binop f (pick i a) (pick i b) = Ok (pick i v)).
Proof.
  destruct a as [x|xs|r], b as [y|ys|r']; simpl; try contradiction; intros Ha Hb.
  - eexists. repeat split.
  - eexists. split; [reflexivity|]. split; [simpl; now rewrite length_map|].
    intros Hi. simpl. f_equal. f_equal. f_equal. symmetry. apply nth_map_lt. lia.
  - eexists. split; [reflexivity|]. split; [simpl; now rewrite length_map|].
    intros Hi. simpl. f_equal. f_equal. f_equal. symmetry.
    apply (nth_map_lt (fun z => f z y)). lia.
  - unfold bcast1. rewrite Ha, Hb, Nat.eqb_refl. simpl.
    eexists. split; [reflexivity|]. split.
    + simpl. rewrite zip_with_length; congruence.
    + intros Hi. simpl. rewrite zip_with_nth by lia. reflexivity.
Qed.

Lemma np_eval_pick (env : dict string (ndarray num)) (e : expr num) :
  (forall k a, dict_get k env = Some a -> sample_array N a) ->
  (forall s, In s (free_symbols e) -> In s (dict_keys env)) ->
  exists v, np_eval env e = Ok v /\ sample_array N v
            /\ (i < N ->
                np_eval (map (fun kv => (fst kv, pick i (snd kv))) env) e = Ok (pick i v)).
Proof.
  intros G. induction e as [x|s|op e1 IH1 e2 IH2]; intros B; simpl.
  - exists (Nd0 x). repeat split.
  - destruct (dict_key_get s env) as [a Ga]; [apply B; simpl; auto|].
    exists a. rewrite dict_get_map_values, Ga. simpl. repeat split. eapply G; eauto.
  - destruct IH1 as (v1 & E1 & S1 & P1); [intros s I; apply B; simpl; apply in_or_app; auto|].
    destruct IH2 as (v2 & E2 & S2 & P2); [intros s I; apply B; simpl; apply in_or_app; auto|].
    rewrite E1, E2. simpl.
    destruct (@np_binop_pick (binop_apply op) v1 v2 S1 S2) as (v & E & Sv & P).
    exists v. split; [exact E|]. split; [exact Sv|].
    intros Hi. rewrite (P1 Hi), (P2 Hi). simpl. exact (P Hi).
Qed.

Lemma np_array_length xs : List.length (np_array xs) = List.length xs.
Proof. apply length_map. Qed.

Lemma np_array_nth xs j :
  j < List.length xs -> nth j (np_array xs) num0 = np_astype xs (nth j xs num0).
Proof. intros L. unfold np_array. now apply nth_map_lt. Qed.

(** A sample that numpy holds alone as it holds it in its vector is
    expanded alone to the entry of the expanded vector. *)
Lemma expand_value_pick (v : pval num) :
  is_sample_vector N v = true ->
  one_dtype (samples_of N v) ->
  sample_array N (expand_value N v)
  /\ (i < N -> expand_value 1 (sample i v) = pick i (expand_value N v)).
Proof.
  destruct v as [x|xs|xs]; simpl; try discriminate; intros V D.
  - split; [now rewrite np_array_length, repeat_length|]. intros Hi.
    rewrite np_array_nth by (now rewrite repeat_length).
    rewrite nth_repeat_lt by exact Hi. unfold np_array. simpl.
    rewrite D; [reflexivity|]. destruct N; [lia|]. simpl. auto.
  - apply Nat.eqb_eq in V. split; [now rewrite np_array_length|]. intros Hi.
    rewrite np_array_nth by lia. unfold np_array at 1. simpl.
    rewrite D; [reflexivity|]. apply nth_In. lia.
Qed.

Lemma expand_params_pick (ps : params num) :
  Forall (fun kv => is_sample_vector N (snd kv) = true) ps ->
  Forall (fun kv => one_dtype (samples_of N (snd kv))) ps ->
  (forall k a, dict_get k (expand_params N ps) = Some a -> sample_array N a)
  /\ (i < N ->
      expand_params 1 (sample_params i ps)
      = map (fun kv => (fst kv, pick i (snd kv))) (expand_params N ps)).
Proof.
  induction 1 as [|[k v] ps V _ IH]; intros D; [split; [discriminate|reflexivity]|].
  inversion D as [|? ? Dv Dps]; subst.
  destruct (IH Dps) as [IH1 IH2].
  simpl in V, Dv. destruct (expand_value_pick _ V Dv) as [Sv P]. split.
  - intros k' a. simpl. destruct (eq_dec k' k); [|apply IH1].
    intros E. injection E as <-. exact Sv.
  - intros Hi. simpl. rewrite P by exact Hi. f_equal. now apply IH2.
Qed.

Lemma as_row_pick (alpha : num) v :
  sample_array N v ->
  exists row, as_row N (scale alpha v) = Ok row /\ List.length row = N
              /\ (i < N -> as_row 1 (scale alpha (pick i v)) = Ok [nth i row num0]).
Proof.
  destruct v as [x|xs|r]; simpl; try contradiction; intros Sv.
  - eexists. split; [reflexivity|]. split; [apply repeat_length|].
    intros Hi. now rewrite nth_repeat_lt.
  - rewrite length_map, Sv, Nat.eqb_refl. eexists. split; [reflexivity|].
    split; [now rewrite !length_map|]. intros Hi. f_equal. f_equal. symmetry.
    rewrite (nth_map_lt np_float64 _ _ num0) by (rewrite length_map; lia).
    f_equal. apply nth_map_lt. lia.
Qed.

Lemma set_row_pick j row (res : list (list num)) :
  j < List.length res ->
  exists res', set_row j row res = Ok res' /\ List.length res' = List.length res
    /\ set_row j [nth i row num0] (map (fun r => [nth i r num0]) res)
       = Ok (map (fun r => [nth i r num0]) res').
Proof.
  revert j. induction res as [|r res IH]; intros j L; simpl in L; [lia|].
  destruct j as [|j]; simpl.
  - eexists. repeat split.
  - destruct (IH j) as (res' & E & Len & P); [lia|]. rewrite E, P. simpl.
    eexists. split; [reflexivity|]. split; [simpl; congruence|reflexivity].
Qed.

Lemma call_lambda_pick (ps : params num) (lambd : Lambda num) :
  Forall (fun kv => is_sample_vector N (snd kv) = true) ps ->
  Forall (fun kv => one_dtype (samples_of N (snd kv))) ps ->
  callable_with ps lambd ->
  exists v, call_lambda lambd (expand_params N ps) = Ok v /\ sample_array N v
            /\ (i < N ->
                call_lambda lambd (expand_params 1 (sample_params i ps)) = Ok (pick i v)).
Proof.
  intros F D [A B]. destruct (expand_params_pick F D) as [G P].
  assert (K : forall n (q : params num), dict_keys (expand_params n q) = dict_keys q).
  { intros n q. unfold dict_keys, expand_params. rewrite map_map. reflexivity. }
  assert (K' : dict_keys (map (fun kv => (fst kv, pick i (snd kv))) (expand_params N ps))
               = dict_keys ps).
  { unfold dict_keys at 1. rewrite map_map. simpl. apply K. }
  unfold call_lambda.
  assert (C1 : forall kw : dict string (ndarray num), dict_keys kw = dict_keys ps ->
      forallb (fun x => dict_mem x kw) (lam_args lambd)
      && forallb (fun k => mem k (lam_args lambd)) (dict_keys kw) = true).
  { intros kw E. apply andb_true_iff. split; apply forallb_forall; intros x I.
    - apply dict_mem_In. rewrite E. now apply A.
    - apply mem_In. apply A. now rewrite <- E. }
  rewrite (C1 _ (K N ps)).
  destruct (@np_eval_pick (expand_params N ps) (lam_body lambd) G) as (v & E & Sv & Pv).
  { intros s I. rewrite K. apply A. now apply B. }
  exists v. split; [exact E|]. split; [exact Sv|].
  intros Hi. rewrite P by exact Hi. rewrite (C1 _ K'). now apply Pv.
Qed.

Lemma lambdas_loop_pick (alpha : num) (ps : params num) (lambdas : list (Lambda num))
    (j : nat) (res : list (list num)) :
  Forall (fun kv => is_sample_vector N (snd kv) = true) ps ->
  Forall (fun kv => one_dtype (samples_of N (snd kv))) ps ->
  Forall (callable_with ps) lambdas ->
  j + List.length lambdas <= List.length res ->
  exists res',
    lambdas_loop alpha (expand_params N ps) N j lambdas res = Ok res'
    /\ (i < N ->
        lambdas_loop alpha (expand_params 1 (sample_params i ps)) 1 j lambdas
          (map (fun r => [nth i r num0]) res)
        = Ok (map (fun r => [nth i r num0]) res')).
Proof.
  intros F D C. revert j res. induction C as [|lambd lambdas C0 _ IH]; intros j res L.
  - exists res. split; reflexivity.
  - simpl in L. simpl.
    destruct (call_lambda_pick F D C0) as (v & E & Sv & P). rewrite E. simpl.
    destruct (@as_row_pick alpha v Sv) as (row & R & _ & R'). rewrite R. simpl.
    destruct (@set_row_pick j row res) as (res1 & SR & Len & SR'); [lia|].
    rewrite SR. simpl.
    destruct (IH (Datatypes.S j) res1) as (res' & E' & P'); [lia|].
    exists res'. split; [exact E'|].
    intros Hi. rewrite (P Hi). simpl. rewrite (R' Hi). simpl. rewrite SR'. simpl.
    exact (P' Hi).
Qed.

End Vectorised.


(** C3, as the code has it.  Let every completed parameter value be a number
    or a list of [N] samples, with at least one list unless [N = 1]; let the
    samples of each vector have one numeric type, so that numpy holds each of
    them alone as it holds it in the vector (all floats, say); and let the
    compiled functions take exactly these parameters (there being no more
    functions than methods).  Then the batch evaluation returns a table of [N]
    rows, and its [i]-th row is the single row of the table that the
    evaluation returns when every list is replaced by its [i]-th element.
    [_completeParamValues] is assumed to act on each sample as it acts on the
    vectors. *)
Theorem batch_rows_are_scalar_evaluations
    (num : Type) (NUM : Number num) (ctx : Collaborators num)
    (methods : list method) (lambdas : list (Lambda num)) (alpha : num)
    (ps cps : params num) (N : nat) :
  _completeParamValues ctx ps = Ok cps ->
  (forall i, i < N ->
     _completeParamValues ctx (sample_params i ps) = Ok (sample_params i cps)) ->
  Forall (fun kv => is_sample_vector N (snd kv) = true) cps ->
  Forall (fun kv => one_dtype (samples_of N (snd kv))) cps ->
  existsb (fun kv => is_pylist (snd kv)) cps = true \/ N = 1 ->
  Forall (callable_with cps) lambdas ->
  List.length lambdas <= List.length methods ->
  exists t,
    postMultiLCAAlgebric ctx methods lambdas alpha ps = Ok t
    /\ List.length (df_rows t) = N
    /\ forall i, i < N ->
         exists ti,
           postMultiLCAAlgebric ctx methods lambdas alpha (sample_params i ps) = Ok ti
           /\ df_rows ti = [nth i (df_rows t) []].
Proof.
  intros C Ci F D X CW L.
  assert (PL : param_length_loop cps 1 = Ok N).
  { rewrite (param_length_loop_equal F) by auto.
    destruct X as [->| ->]; [reflexivity|]. now destruct (existsb _ cps). }
  set (zeros := repeat (repeat (np_float64 (@num0 num NUM)) N) (List.length methods)).
  destruct (@lambdas_loop_pick num NUM N 0 alpha cps lambdas 0 zeros F D CW)
    as (res & E & _).
  { unfold zeros. rewrite repeat_length. simpl. exact L. }
  exists (frame_of_matrix (map method_name methods) N res).
  unfold postMultiLCAAlgebric. rewrite C. simpl. rewrite PL. simpl.
  fold zeros. rewrite E. simpl. split; [reflexivity|].
  split; [now rewrite length_map, length_seq|].
  intros i Hi. rewrite (Ci i Hi). cbn [rbind].
  assert (PLi : param_length_loop (sample_params i cps) 1 = Ok 1).
  { apply param_length_loop_no_list. intros kv I.
    apply in_map_iff in I as ([k v] & <- & _). destruct v; reflexivity. }
  rewrite PLi. cbn [rbind].
  destruct (@lambdas_loop_pick num NUM N i alpha cps lambdas 0 zeros F D CW)
    as (res' & E' & P).
  { unfold zeros. rewrite repeat_length. simpl. exact L. }
  rewrite E in E'. injection E' as <-.
  assert (Z : repeat (repeat (np_float64 (@num0 num NUM)) 1) (List.length methods)
              = map (fun r => [nth i r num0]) zeros).
  { unfold zeros. rewrite map_repeat. f_equal. simpl. now rewrite nth_repeat_lt. }
  rewrite Z, (P Hi). cbn [rbind]. eexists. split; [reflexivity|].
  unfold frame_of_matrix. simpl. rewrite map_map. f_equal.
  rewrite (nth_map_lt _ (seq 0 N) [] 0) by (now rewrite length_seq).
  rewrite seq_nth by exact Hi. reflexivity.
Qed.

(** C3 fails as stated on a vector that mixes an integer and a float.  With
    [p = [2**32, 0.5]] numpy holds the vector as floats and the first row of
    [10 * p * p] is [10 * 2**64]; evaluated alone, [2**32] is held as a 64-bit
    integer, the product wraps around to 0, and the row is 0. *)
Lemma mixed_samples_differ :
  Forall (fun kv => is_sample_vector 2 (snd kv) = true) mixed_samples
  /\ exists t t0,
       postMultiLCAAlgebric numpy_ctx [method_X] [ten_p_p] (PyInt 1) mixed_samples = Ok t
       /\ postMultiLCAAlgebric numpy_ctx [method_X] [ten_p_p] (PyInt 1)
            (sample_params 0 mixed_samples) = Ok t0
       /\ List.length (df_rows t) = 2
       /\ nth 0 (df_rows t) [] = [Float 184467440737095516160]
       /\ df_rows t0 = [[Float 0]]
       /\ df_rows t0 <> [nth 0 (df_rows t) []].
Proof.
  split; [repeat constructor|].
  eexists. eexists. split; [vm_compute; reflexivity|].
  split; [vm_compute; reflexivity|]. simpl.
  split; [reflexivity|]. split; [reflexivity|]. split; [reflexivity|discriminate].
Qed.

(** ** Names that the registry does not know *)

Section Registry.
Context (num : Type) {NUM : Number num}.
Variable ctx : Collaborators num.

Implicit Types (names : list string) (res : dict string (ParamDef num)).

Lemma names_fold_keys names (l : list string) (param : ParamDef num) res k :
  In k (dict_keys (fold_left (fun res name =>
          if mem name names then dict_set name param res else res) l res)) <->
  In k (dict_keys res) \/ (In k l /\ In k names).
Proof.
  revert res. induction l as [|n l IH]; intros res; simpl; [tauto|].
  rewrite IH. destruct (mem n names) eqn:M.
  - apply mem_In in M. rewrite dict_keys_set_In. split.
    + intros [[->|H]|[H1 H2]]; auto.
    + intros [H|[[->|H1] H2]]; auto.
  - apply mem_not_In in M. split.
    + intros [H|[H1 H2]]; auto.
    + intros [H|[[->|H1] H2]]; auto. contradiction.
Qed.

Lemma registry_fold_keys names (l : list (ParamDef num)) res k :
  In k (dict_keys (fold_left (fun res param =>
          fold_left (fun res name =>
            if mem name names then dict_set name param res else res)
            (p_names param) res) l res)) <->
  In k (dict_keys res) \/ (In k names /\ exists p, In p l /\ In k (p_names p)).
Proof.
  revert res. induction l as [|p l IH]; intros res; simpl.
  - split; [auto|]. intros [H|(_ & p & [] & _)]. exact H.
  - rewrite IH, names_fold_keys. split.
    + intros [[H|[H1 H2]]|(H1 & q & H2 & H3)]; eauto 7.
    + intros [H|(H1 & q & [<-|H2] & H3)]; eauto 7.
Qed.

(** [_expanded_names_to_names] raises exactly when a name is unknown, and
    the exception carries the unknown names. *)
Lemma expanded_names_unknown names n :
  In n names -> unknown_name ctx n ->
  exists missing,
    _expanded_names_to_names ctx names = Err (UnknownParams missing) /\ In n missing.
Proof.
  intros I U. unfold _expanded_names_to_names.
  set (res := fold_left _ _ _).
  set (missing := filter _ _).
  assert (M : In n missing).
  { unfold missing. apply filter_In. split; [now apply dedup_In|].
    apply negb_true_iff. apply mem_not_In. unfold res.
    rewrite registry_fold_keys. intros [[]|(_ & p & Hp & Hn)]. apply (U p Hp Hn). }
  exists missing. destruct missing; [destruct M|]. auto.
Qed.

Lemma expanded_names_known names :
  (forall n, In n names -> ~ unknown_name ctx n) ->
  exists l, _expanded_names_to_names ctx names = Ok l.
Proof.
  intros K. unfold _expanded_names_to_names.
  set (res := fold_left _ _ _).
  destruct (filter _ _) as [|n missing] eqn:F; [eauto|].
  assert (M : In n (filter (fun n => negb (mem n (dict_keys res))) (dedup names)))
    by (rewrite F; simpl; auto).
  apply filter_In in M as [I M]. rewrite dedup_In in I.
  apply negb_true_iff in M. apply mem_not_In in M.
  exfalso. apply (K n I). intros p Hp Hn. apply M. unfold res.
  rewrite registry_fold_keys. right. split; [now apply dedup_In|eauto].
Qed.

Lemma models_loop_app fuel methods (l1 l2 : list (model_arg num)) st :
  models_loop ctx fuel methods (l1 ++ l2) st
  = fbind (models_loop ctx fuel methods l1 st) (models_loop ctx fuel methods l2).
Proof.
  revert st. induction l1 as [|m l1 IH]; intros st; simpl; [reflexivity|].
  destruct (model_step ctx fuel methods m st) as [[st'|err]|]; simpl; auto.
Qed.

Lemma preMultiLCAAlgebric_unknown fuel model methods e tab n :
  actToExpression ctx fuel model = Some (Ok (SymE e, tab)) ->
  In n (free_symbols e) -> ~ In n (dict_keys tab) -> unknown_name ctx n ->
  exists missing,
    preMultiLCAAlgebric ctx fuel model methods = Some (Err (UnknownParams missing))
    /\ In n missing.
Proof.
  intros A I T U. unfold preMultiLCAAlgebric. rewrite A. simpl.
  destruct (@expanded_names_unknown
              (filter (fun n0 => negb (mem n0 (dict_keys tab))) (dedup (free_symbols e))) n)
    as (missing & E & M); [|exact U|].
  - apply filter_In. split; [now apply dedup_In|].
    apply negb_true_iff. now apply mem_not_In.
  - exists missing. rewrite E. auto.
Qed.

End Registry.

(** C8.  Let [n] be an expanded name that no entry of the registry has.
    Looking up names that include [n] raises "Unkown params" with [n] among
    the names reported, and a call of [multiLCAAlgebric] stops with that
    exception at the first model whose expression, as sympy evaluated it, has
    [n] as a free symbol that is no symbol of an activity: no table is
    returned. *)
Theorem unknown_parameter_aborts
    (num : Type) (NUM : Number num) (ctx : Collaborators num) (n : string) :
  unknown_name ctx n ->
  (forall names, In n names ->
     exists missing,
       _expanded_names_to_names ctx names = Err (UnknownParams missing) /\ In n missing)
  /\ (forall fuel methods pre m post ps st1 e tab,
        actToExpression ctx fuel (model_of m) = Some (Ok (SymE e, tab)) ->
        In n (free_symbols e) -> ~ In n (dict_keys tab) ->
        models_loop ctx fuel methods pre (ps, []) = Some (Ok st1) ->
        exists missing,
          multiLCAAlgebric ctx fuel (ModelList (pre ++ m :: post)) methods ps
          = Some (Err (UnknownParams missing))
          /\ In n missing).
Proof.
  intros U. split; [intros names I; now apply expanded_names_unknown|].
  intros fuel methods pre m post ps [ps1 dfs1] e tab A I T L.
  destruct (@preMultiLCAAlgebric_unknown num NUM ctx fuel (model_of m) methods e tab n A I T U)
    as (missing & E & M).
  exists missing. split; [|exact M].
  unfold multiLCAAlgebric. rewrite models_loop_app, L. simpl.
  unfold model_step, model_table.
  destruct m as [model|model alpha]; simpl in E; rewrite E; reflexivity.
Qed.


(** ** Tables of several models *)

Section Tables.
Context (num : Type) {NUM : Number num}.
Variable ctx : Collaborators num.

Implicit Types (l : list (model_arg num)) (ps : params num).
Implicit Types (dfs : dict string (DataFrame num)).

Lemma model_step_table fuel methods (m : model_arg num) ps dfs :
  model_step ctx fuel methods m (ps, dfs)
  = fbind (model_table ctx fuel methods m ps)
          (fun r => fret (fst r, dict_set (display_name ctx m) (snd r) dfs)).
Proof.
  unfold model_step, display_name.
  destruct (model_table ctx fuel methods m ps) as [[[ps' df]|err]|]; reflexivity.
Qed.

Lemma models_loop_keys fuel methods l ps dfs0 ps' dfs :
  models_loop ctx fuel methods l (ps, dfs0) = Some (Ok (ps', dfs)) ->
  (NoDup (dict_keys dfs0) -> NoDup (dict_keys dfs))
  /\ (forall n, In n (dict_keys dfs) <->
                In n (dict_keys dfs0) \/ In n (map (display_name ctx) l))
  /\ (forall n, ~ In n (map (display_name ctx) l) -> dict_get n dfs = dict_get n dfs0).
Proof.
  revert ps dfs0. induction l as [|m l IH]; intros ps dfs0.
  - simpl. intros E. injection E as <- <-. split; [auto|]. split; [|auto].
    intros n. simpl. tauto.
  - cbn [models_loop map]. rewrite model_step_table.
    destruct (model_table ctx fuel methods m ps) as [[[ps1 df]|err]|]; simpl;
      try discriminate.
    intros L. destruct (IH _ _ L) as (ND & K & G). split; [|split].
    + intros H. apply ND. now apply dict_keys_set_NoDup.
    + intros n. rewrite K, dict_keys_set_In. split.
      * intros [[->|H]|H]; auto.
      * intros [H|[<-|H]]; auto.
    + intros n H. rewrite G by tauto. apply dict_get_set_other.
      intros ->. apply H. auto.
Qed.

End Tables.

(** C9.  The tables of the models are kept in a dictionary under the display
    names of the models.  After the loop its keys are the distinct display
    names; the table under a name is that of the last model with this name,
    the tables of earlier models with the name being replaced; so when two
    models share a name there are fewer tables than models in the output,
    which is the concatenation of the tables kept. *)
Theorem tables_are_keyed_by_display_name
    (num : Type) (NUM : Number num) (ctx : Collaborators num)
    (fuel : nat) (methods : list method) (models : list (model_arg num))
    (ps ps' : params num) (dfs : dict string (DataFrame num)) :
  models_loop ctx fuel methods models (ps, []) = Some (Ok (ps', dfs)) ->
  NoDup (dict_keys dfs)
  /\ (forall n, In n (dict_keys dfs) <-> In n (map (display_name ctx) models))
  /\ (forall l1 m l2,
        models = l1 ++ m :: l2 ->
        (forall m', In m' l2 -> display_name ctx m' <> display_name ctx m) ->
        exists ps1 dfs1 ps2 df,
          models_loop ctx fuel methods l1 (ps, []) = Some (Ok (ps1, dfs1))
          /\ model_table ctx fuel methods m ps1 = Some (Ok (ps2, df))
          /\ dict_get (display_name ctx m) dfs = Some df)
  /\ (~ NoDup (map (display_name ctx) models) -> List.length dfs < List.length models)
  /\ multiLCAAlgebric ctx fuel (ModelList models) methods ps
     = match dict_values dfs with
       | [df] => Some (Ok df)
       | tables => Some (pd_concat tables)
       end.
Proof.
  intros L.
  destruct (@models_loop_keys num NUM ctx fuel methods models ps [] ps' dfs L)
    as (ND & K & _).
  assert (ND' : NoDup (dict_keys dfs)) by (apply ND; constructor).
  split; [exact ND'|]. split; [|split; [|split]].
  - intros n. rewrite K. simpl. tauto.
  - intros l1 m l2 -> H. rewrite models_loop_app in L.
    destruct (models_loop ctx fuel methods l1 (ps, [])) as [[[ps1 dfs1]|err]|] eqn:L1;
      cbn [fbind models_loop] in L; try discriminate.
    rewrite model_step_table in L.
    destruct (model_table ctx fuel methods m ps1) as [[[ps2 df]|err]|] eqn:T;
      simpl in L; try discriminate.
    exists ps1, dfs1, ps2, df. split; [reflexivity|]. split; [exact T|].
    destruct (@models_loop_keys num NUM ctx fuel methods l2 ps2 _ ps' dfs L)
      as (_ & _ & G).
    rewrite G; [apply dict_get_set_same|].
    intros I. apply in_map_iff in I as (m' & E & I). exact (H m' I E).
  - intros NN. destruct (Nat.lt_ge_cases (List.length dfs) (List.length models)) as [H|H];
      [exact H|]. exfalso. apply NN.
    apply (@NoDup_incl_NoDup _ (dict_keys dfs)); [exact ND'| |].
    + unfold dict_keys. now rewrite !length_map.
    + intros n I. apply K in I as [[]|I]. exact I.
  - unfold multiLCAAlgebric. rewrite L. simpl. destruct (dict_values dfs) as [|df [|df' r]];
      reflexivity.
Qed.

(** ** Parameters left to their default *)

Lemma forallb_same_elements {A} (f : A -> bool) (l l' : list A) :
  (forall x, In x l <-> In x l') -> forallb f l = forallb f l'.
Proof.
  intros H. destruct (forallb f l) eqn:E, (forallb f l') eqn:E'; auto.
  - rewrite forallb_forall in E. assert (X : forallb f l' = true).
    { apply forallb_forall. intros x I. apply E. now apply H. }
    congruence.
  - rewrite forallb_forall in E'. assert (X : forallb f l = true).
    { apply forallb_forall. intros x I. apply E'. now apply H. }
    congruence.
Qed.

Lemma dict_get_filter_keys {V} (keep : list string) (k : string) (d : dict string V) :
  dict_get k (filter (fun kv => mem (fst kv) keep) d)
  = if mem k keep then dict_get k d else None.
Proof.
  induction d as [|[k' v] d IH]; simpl; [now destruct (mem k keep)|].
  destruct (mem k' keep) eqn:M; simpl.
  - destruct (eq_dec k k') as [->|N]; [now rewrite M|exact IH].
  - destruct (eq_dec k k') as [->|N]; [now rewrite M in *|exact IH].
Qed.

Lemma filter_comm {A} (f g : A -> bool) (l : list A) :
  filter f (filter g l) = filter g (filter f l).
Proof.
  induction l as [|x l IH]; simpl; [reflexivity|].
  destruct (f x) eqn:F, (g x) eqn:G; simpl; rewrite ?F, ?G, IH; reflexivity.
Qed.

Section Defaults.
Context (num : Type) {NUM : Number num}.
Variable ctx : Collaborators num.

Implicit Types (x y ps : params num) (env : dict string (ndarray num)).

Lemma np_eval_lookup env env' (e : expr num) :
  (forall k, dict_get k env = dict_get k env') -> np_eval env e = np_eval env' e.
Proof.
  intros H. induction e as [c|s|op e1 IH1 e2 IH2]; simpl; [reflexivity| |].
  - now rewrite H.
  - now rewrite IH1, IH2.
Qed.

Lemma dict_keys_lookup {V} (d d' : dict string V) :
  (forall k, dict_get k d = dict_get k d') ->
  forall k, In k (dict_keys d) <-> In k (dict_keys d').
Proof.
  intros H k. rewrite <- !dict_mem_In. unfold dict_mem. now rewrite H.
Qed.

Lemma call_lambda_lookup (lambd : Lambda num) env env' :
  (forall k, dict_get k env = dict_get k env') ->
  call_lambda lambd env = call_lambda lambd env'.
Proof.
  intros H. unfold call_lambda.
  rewrite (@np_eval_lookup env env' (lam_body lambd) H).
  rewrite (@forallb_same_elements _ (fun k => mem k (lam_args lambd)) _ _
             (@dict_keys_lookup _ env env' H)).
  replace (forallb (fun z => dict_mem z env) (lam_args lambd))
    with (forallb (fun z => dict_mem z env') (lam_args lambd)); [reflexivity|].
  induction (lam_args lambd) as [|z l IH]; simpl; [reflexivity|].
  rewrite IH. unfold dict_mem. now rewrite H.
Qed.

Lemma lambdas_loop_lookup (alpha : num) env env' n j (lambdas : list (Lambda num)) res :
  (forall k, dict_get k env = dict_get k env') ->
  lambdas_loop alpha env n j lambdas res = lambdas_loop alpha env' n j lambdas res.
Proof.
  intros H. revert j res. induction lambdas as [|lambd lambdas IH]; intros j res; simpl;
    [reflexivity|].
  rewrite (@call_lambda_lookup lambd env env' H).
  destruct (call_lambda lambd env') as [v|err]; simpl; [|reflexivity].
  destruct (as_row n (scale alpha v)) as [row|err]; simpl; [|reflexivity].
  destruct (set_row j row res) as [res'|err]; simpl; [apply IH|reflexivity].
Qed.

(** The evaluation gives the same table on equivalent dictionaries. *)
Lemma postMultiLCAAlgebric_equiv methods (lambdas : list (Lambda num)) (alpha : num) x y :
  completion_proper ctx -> params_equiv x y ->
  same_result (postMultiLCAAlgebric ctx methods lambdas alpha x)
              (postMultiLCAAlgebric ctx methods lambdas alpha y).
Proof.
  intros P E. specialize (P x y E). unfold postMultiLCAAlgebric.
  destruct (_completeParamValues ctx x) as [cx|ex], (_completeParamValues ctx y) as [cy|ey];
    simpl; try contradiction; [|exact I].
  destruct P as [G Ls].
  rewrite (param_length_loop_lists cx), (param_length_loop_lists cy).
  fold (lists_of cx). fold (lists_of cy). rewrite Ls.
  destruct (param_length_loop (lists_of cy) 1) as [n|err]; simpl; [|exact I].
  rewrite (@lambdas_loop_lookup alpha (expand_params n cx) (expand_params n cy)).
  - destruct (lambdas_loop _ _ _ _ _ _); simpl; auto.
  - intros k. unfold expand_params. rewrite !dict_get_map_values. now rewrite G.
Qed.

Lemma lists_of_set_fresh ps k (v : pval num) :
  dict_get k ps = None ->
  lists_of (dict_set k v ps) = lists_of ps ++ lists_of [(k, v)].
Proof.
  intros G. rewrite dict_set_fresh by exact G. unfold lists_of. apply filter_app.
Qed.

Lemma fill_defaults_present expected ps ps' :
  fill_defaults ctx expected ps = Ok ps' ->
  (forall k, dict_mem k ps = true -> dict_mem k ps' = true)
  /\ (forall k, In k expected -> dict_mem k ps' = true).
Proof.
  revert ps. induction expected as [|n expected IH]; intros ps; simpl.
  - intros E. injection E as <-. split; [auto|intros k []].
  - destruct (dict_mem n ps) eqn:M.
    + intros E. destruct (IH _ E) as [A B]. split; [exact A|].
      intros k [<-|I]; auto.
    + destruct (dict_get n (_param_registry ctx)) as [q|]; [|discriminate].
      intros E. destruct (IH _ E) as [A B].
      assert (S : forall k, dict_mem k ps = true ->
                            dict_mem k (dict_set n (p_default q) ps) = true).
      { intros k Hk. unfold dict_mem in *. destruct (eq_dec k n) as [->|N].
        - now rewrite dict_get_set_same.
        - now rewrite dict_get_set_other. }
      split; [auto|]. intros k [<-|I]; [|auto].
      apply A. unfold dict_mem. now rewrite dict_get_set_same.
Qed.

Section OneParameter.
Variables (p : string) (d : pval num) (pd : ParamDef num).
Hypothesis registered : dict_get p (_param_registry ctx) = Some pd.
Hypothesis default : p_default pd = d.
Hypothesis scalar : is_pylist d = false.

Lemma default_related_mem x y k :
  default_related p d x y -> k <> p -> dict_mem k x = dict_mem k y.
Proof. intros (_ & G & _) N. unfold dict_mem. now rewrite (G k N). Qed.

Lemma default_related_set x y k (v : pval num) :
  default_related p d x y -> k <> p -> dict_mem k x = false ->
  default_related p d (dict_set k v x) (dict_set k v y).
Proof.
  intros R N M. pose proof (default_related_mem R N) as M'. rewrite M in M'.
  destruct R as (Ls & G & Py & Px).
  assert (Gx : dict_get k x = None) by (unfold dict_mem in M; now destruct (dict_get k x)).
  assert (Gy : dict_get k y = None)
    by (unfold dict_mem in M'; now destruct (dict_get k y)).
  split; [|split; [|split]].
  - rewrite !lists_of_set_fresh by assumption. now rewrite Ls.
  - intros k' N'. destruct (eq_dec k' k) as [->|Nk].
    + now rewrite !dict_get_set_same.
    + rewrite !dict_get_set_other by exact Nk. now apply G.
  - rewrite dict_get_set_other by congruence. exact Py.
  - rewrite dict_get_set_other by congruence. exact Px.
Qed.

Lemma default_related_fill x y :
  default_related p d x y -> dict_get p x = None ->
  default_related p d (dict_set p d x) y.
Proof.
  intros (Ls & G & Py & _) Gx. split; [|split; [|split]].
  - rewrite lists_of_set_fresh by exact Gx. unfold lists_of at 2. simpl.
    rewrite scalar. now rewrite app_nil_r.
  - intros k N. rewrite dict_get_set_other by exact N. now apply G.
  - exact Py.
  - right. apply dict_get_set_same.
Qed.

Lemma fill_defaults_related expected x y :
  default_related p d x y ->
  match fill_defaults ctx expected x, fill_defaults ctx expected y with
  | Ok x', Ok y' => default_related p d x' y'
  | Err _, Err _ => True
  | _, _ => False
  end.
Proof.
  revert x y. induction expected as [|n expected IH]; intros x y R; simpl; [exact R|].
  destruct (eq_dec n p) as [->|N].
  - assert (My : dict_mem p y = true).
    { destruct R as (_ & _ & Py & _). unfold dict_mem. now rewrite Py. }
    rewrite My. destruct (dict_mem p x) eqn:Mx; [now apply IH|].
    rewrite registered, default. apply IH. apply default_related_fill; [exact R|].
    unfold dict_mem in Mx. now destruct (dict_get p x).
  - rewrite <- (default_related_mem R N).
    destruct (dict_mem n x) eqn:Mx; [now apply IH|].
    destruct (dict_get n (_param_registry ctx)) as [q|]; [|exact I].
    apply IH. now apply default_related_set.
Qed.

Lemma filter_params_related expected x y :
  default_related p d x y ->
  (In p expected -> dict_mem p x = true) ->
  params_equiv (filter_params expected x) (filter_params expected y).
Proof.
  intros (Ls & G & Py & Px) M. split.
  - intros k. unfold filter_params. rewrite !dict_get_filter_keys.
    destruct (mem k expected) eqn:E; [|reflexivity].
    destruct (eq_dec k p) as [->|N]; [|now apply G].
    apply mem_In in E. specialize (M E). unfold dict_mem in M.
    destruct Px as [Px|Px]; rewrite Px in *; [discriminate|congruence].
  - unfold lists_of, filter_params.
    rewrite (filter_comm _ _ x), (filter_comm _ _ y).
    fold (lists_of x). fold (lists_of y). now rewrite Ls.
Qed.

Lemma model_table_related fuel methods (m : model_arg num) x y :
  completion_proper ctx -> default_related p d x y ->
  match model_table ctx fuel methods m x, model_table ctx fuel methods m y with
  | Some (Ok (x', df)), Some (Ok (y', df')) => default_related p d x' y' /\ df = df'
  | Some (Err _), Some (Err _) => True
  | None, None => True
  | _, _ => False
  end.
Proof.
  intros P R. unfold model_table.
  destruct m as [model|model alpha];
    (destruct (preMultiLCAAlgebric ctx fuel model methods) as [[[lambdas names]|err]|];
     simpl; [|exact I|exact I];
     destruct (_expanded_names_to_names ctx names) as [expected|err]; simpl; [|exact I];
     pose proof (fill_defaults_related expected R) as F;
     destruct (fill_defaults ctx expected x) as [x'|ex] eqn:Fx,
              (fill_defaults ctx expected y) as [y'|ey] eqn:Fy;
     simpl; try contradiction; [|exact I];
     assert (E : params_equiv (filter_params expected x') (filter_params expected y'))
       by (apply filter_params_related; [exact F|];
           intros Ip; apply (proj2 (fill_defaults_present _ _ Fx)); exact Ip);
     match goal with
     | |- context [postMultiLCAAlgebric ctx methods lambdas ?a (filter_params expected x')] =>
         pose proof (@postMultiLCAAlgebric_equiv methods lambdas a _ _ P E) as Q;
         destruct (postMultiLCAAlgebric ctx methods lambdas a (filter_params expected x'))
           as [dfx|e1],
           (postMultiLCAAlgebric ctx methods lambdas a (filter_params expected y'))
           as [dfy|e2];
         simpl in *; try contradiction; [|exact I];
         subst dfy; split; [exact F|reflexivity]
     end).
Qed.

Lemma models_loop_related fuel methods (l : list (model_arg num)) x y dfs :
  completion_proper ctx -> default_related p d x y ->
  match models_loop ctx fuel methods l (x, dfs), models_loop ctx fuel methods l (y, dfs) with
  | Some (Ok (_, dfx)), Some (Ok (_, dfy)) => dfx = dfy
  | Some (Err _), Some (Err _) => True
  | None, None => True
  | _, _ => False
  end.
Proof.
  intros P. revert x y dfs. induction l as [|m l IH]; intros x y dfs R.
  - reflexivity.
  - cbn [models_loop]. rewrite !model_step_table.
    pose proof (@model_table_related fuel methods m x y P R) as T.
    destruct (model_table ctx fuel methods m x) as [[[x' dfx]|ex]|],
             (model_table ctx fuel methods m y) as [[[y' dfy]|ey]|];
      simpl in *; try contradiction; try exact I.
    destruct T as [R' ->]. now apply IH.
Qed.

(** Lines 200-204 leave the supplied values as they are and give the
    missing parameter its default. *)
Lemma fill_defaults_keeps expected ps ps' :
  fill_defaults ctx expected ps = Ok ps' ->
  forall k v, dict_get k ps = Some v -> dict_get k ps' = Some v.
Proof.
  revert ps. induction expected as [|n expected IH]; intros ps; simpl.
  - intros E. now injection E as <-.
  - destruct (dict_mem n ps) eqn:M; [apply IH|].
    destruct (dict_get n (_param_registry ctx)) as [q|]; [|discriminate].
    intros E k v G. apply (IH _ E). rewrite dict_get_set_other; [exact G|].
    intros ->. unfold dict_mem in M. now rewrite G in M.
Qed.

Lemma fill_defaults_missing expected ps ps' :
  In p expected -> dict_get p ps = None ->
  fill_defaults ctx expected ps = Ok ps' -> dict_get p ps' = Some d.
Proof.
  revert ps. induction expected as [|n expected IH]; intros ps I G; [destruct I|].
  simpl. destruct (eq_dec n p) as [->|N].
  - unfold dict_mem. rewrite G, registered, default. intros E.
    apply (fill_defaults_keeps _ _ E). apply dict_get_set_same.
  - destruct I as [->|I]; [contradiction|].
    destruct (dict_mem n ps); [now apply IH|].
    destruct (dict_get n (_param_registry ctx)) as [q|]; [|discriminate].
    apply IH; [exact I|]. rewrite dict_get_set_other; [exact G|congruence].
Qed.

End OneParameter.
End Defaults.

(** C7.  Let [p] have the default [d] in the registry, [d] being no list.
    Where the parameters do not name [p] and a model expects it, lines
    200-204 add [p = d] and leave the values supplied as they are.  A call of
    [multiLCAAlgebric] whose parameters do not name [p] and the call that
    gives [p = d] besides, at any position among the keyword arguments, end
    alike: the table that one of them returns is the table that the other
    returns, and one raises when the other does.  [_completeParamValues] is
    assumed not to depend on where the numbers sit among its entries. *)
Theorem missing_parameter_is_its_default
    (num : Type) (NUM : Number num) (ctx : Collaborators num)
    (fuel : nat) (models : models_arg num) (methods : list method)
    (l1 l2 : params num) (p : string) (d : pval num) (pd : ParamDef num) :
  completion_proper ctx ->
  dict_get p (_param_registry ctx) = Some pd ->
  p_default pd = d ->
  is_pylist d = false ->
  NoDup (dict_keys (l1 ++ (p, d) :: l2)) ->
  (forall expected ps',
     In p expected -> fill_defaults ctx expected (l1 ++ l2) = Ok ps' ->
     dict_get p ps' = Some d
     /\ (forall k v, dict_get k (l1 ++ l2) = Some v -> dict_get k ps' = Some v)
     /\ (forall k, In k expected -> dict_mem k ps' = true))
  /\ same_outcome (multiLCAAlgebric ctx fuel models methods (l1 ++ l2))
                  (multiLCAAlgebric ctx fuel models methods (l1 ++ (p, d) :: l2))
  /\ (forall t,
        multiLCAAlgebric ctx fuel models methods (l1 ++ l2) = Some (Ok t)
        <-> multiLCAAlgebric ctx fuel models methods (l1 ++ (p, d) :: l2) = Some (Ok t)).
Proof.
  intros P Rg Df Sc ND.
  assert (N1 : dict_get p l1 = None /\ dict_get p l2 = None).
  { unfold dict_keys in ND. rewrite map_app in ND. simpl in ND.
    pose proof (NoDup_remove_2 _ _ _ ND) as X. rewrite in_app_iff in X.
    split; apply dict_get_None; unfold dict_keys; tauto. }
  destruct N1 as [G1 G2].
  assert (G : dict_get p (l1 ++ l2) = None)
    by (rewrite dict_get_app_r by exact G1; exact G2).
  assert (R : default_related p d (l1 ++ l2) (l1 ++ (p, d) :: l2)).
  { split; [|split; [|split]].
    - unfold lists_of. rewrite !filter_app. simpl. now rewrite Sc.
    - intros k N. destruct (dict_get k l1) as [v|] eqn:E.
      + now rewrite (@dict_get_app_l _ _ _ k v l1 l2 E),
                    (@dict_get_app_l _ _ _ k v l1 ((p, d) :: l2) E).
      + rewrite !dict_get_app_r by exact E. simpl.
        destruct (eq_dec k p); [contradiction|reflexivity].
    - rewrite dict_get_app_r by exact G1. simpl.
      destruct (eq_dec p p); [reflexivity|contradiction].
    - left. exact G. }
  assert (SO : same_outcome (multiLCAAlgebric ctx fuel models methods (l1 ++ l2))
                 (multiLCAAlgebric ctx fuel models methods (l1 ++ (p, d) :: l2))).
  { unfold multiLCAAlgebric.
    set (l := match models with Single m => [m] | ModelList ms => ms end).
    pose proof (@models_loop_related num NUM ctx p d pd Rg Df Sc fuel methods l _ _ [] P R)
      as L.
    match goal with
    | |- same_outcome (fbind ?a _) (fbind ?b _) =>
        change (match a, b with
                | Some (Ok (_, dfx)), Some (Ok (_, dfy)) => dfx = dfy
                | Some (Err _), Some (Err _) => True
                | None, None => True
                | _, _ => False
                end) in L;
        destruct a as [[[x dfx]|ex]|], b as [[[y dfy]|ey]|]
    end; simpl in *; try contradiction; try exact I.
    subst dfy. destruct (dict_values dfx) as [|df [|df' r]]; simpl; reflexivity. }
  split; [|split; [exact SO|]].
  - intros expected ps' I E. split; [|split].
    + exact (@fill_defaults_missing num ctx p d pd Rg Df expected (l1 ++ l2) ps' I G E).
    + eapply fill_defaults_keeps; eauto.
    + eapply fill_defaults_present; eauto.
  - intros t. unfold same_outcome in SO.
    destruct (multiLCAAlgebric ctx fuel models methods (l1 ++ l2)) as [[a|ea]|],
             (multiLCAAlgebric ctx fuel models methods (l1 ++ (p, d) :: l2)) as [[b|eb]|];
      try contradiction; try (split; discriminate).
    subst b. tauto.
Qed.

(** ** The evaluation of the example models adds no symbol *)

Section Evaluation.
Context (num : Type) {NUM : Number num}.

Implicit Types (e a b : expr num) (f g : factor num) (fs gs : list (factor num))
  (t : term num) (ts : list (term num)) (s : string) (l : list (expr num)).

Lemma factors_symbols_app fs gs :
  factors_symbols (fs ++ gs) = factors_symbols fs ++ factors_symbols gs.
Proof. apply flat_map_app. Qed.










End Evaluation.

Section Flattened.
Context (num : Type) {NUM : Number num}.
Variable eqb : expr num -> expr num -> bool.

Implicit Types (e a b : expr num) (f g : factor num) (fs gs : list (factor num))
  (t : term num) (ts : list (term num)) (s : string) (l : list (expr num)).







End Flattened.

Section Evaluated.
Context (num : Type) {NUM : Number num}.

Implicit Types (e a b : expr num) (s : string).




End Evaluated.


(** ** The statements at the example models *)

(** The completion of a registry without enumerated parameters is proper:
    it only looks at the names. *)
Lemma plainCompleteParamValues_proper (acts : list (Activity Q))
    (registry : dict string (ParamDef Q)) (score : key -> Q) :
  completion_proper (collaborators acts registry score).
Proof.
  intros x y [G Ls]. simpl. unfold plainCompleteParamValues.
  set (unk := fun kv : string * pval Q => negb (dict_mem (fst kv) registry)).
  assert (U : forall a b : params Q,
             (forall k, dict_get k a = dict_get k b) ->
             filter unk a = [] -> filter unk b = []).
  { intros a b H E. destruct (filter unk b) as [|[k v] r] eqn:F; [reflexivity|].
    assert (I : In (k, v) (filter unk b)) by (rewrite F; simpl; auto).
    apply filter_In in I as [I M].
    assert (Ka : In k (dict_keys a)).
    { apply (in_map fst) in I. simpl in I.
      apply dict_key_get in I as [w Gb]. rewrite <- H in Gb.
      eapply dict_get_Some_key; eauto. }
    apply in_map_iff in Ka as ([k' w] & Ek & Ia). simpl in Ek. subst k'.
    assert (X : In (k, w) (filter unk a)) by (apply filter_In; split; [exact Ia|exact M]).
    rewrite E in X. destruct X. }
  destruct (filter unk x) as [|kx rx] eqn:Fx.
  - rewrite (U x y G Fx). split; assumption.
  - destruct (filter unk y) as [|ky ry] eqn:Fy; [|exact I].
    rewrite (U y x (fun k => eq_sym (G k)) Fy) in Fx. discriminate.
Qed.

(** C1 on a root whose two sub-activities share a third one. *)
Lemma actToExpression_returns_on_diamond :
  Acc (fun sub a => calls diamond_ctx a sub) dR
  /\ exists n r, forall fuel, n <= fuel -> actToExpression diamond_ctx fuel dR = Some r.
Proof.
  assert (A : Acc (fun sub a => calls diamond_ctx a sub) dR) by acc_calls.
  split; [exact A|].
  exact (@actToExpression_returns_when_well_founded Q Q_Number diamond_ctx dR A).
Defined.


(** C3 with five float samples of one parameter, in the arithmetic of
    Python and numpy. *)
Lemma batch_rows_on_five_samples :
  exists t,
    postMultiLCAAlgebric numpy_ctx [method_X] [ten_p_p] (PyInt 1) float_samples = Ok t
    /\ List.length (df_rows t) = 5
    /\ forall i, i < 5 ->
         exists ti,
           postMultiLCAAlgebric numpy_ctx [method_X] [ten_p_p] (PyInt 1)
             (sample_params i float_samples) = Ok ti
           /\ df_rows ti = [nth i (df_rows t) []].
Proof.
  apply (@batch_rows_are_scalar_evaluations pynumber pynumber_Number numpy_ctx
           [method_X] [ten_p_p] (PyInt 1) float_samples float_samples 5).
  - reflexivity.
  - intros i Hi. do 5 (destruct i as [|i]; [reflexivity|]). lia.
  - repeat constructor.
  - repeat constructor. intros x I. simpl in I.
    repeat (destruct I as [<-|I]; [reflexivity|]). destruct I.
  - left. reflexivity.
  - constructor; [|constructor]. split.
    + intros a. simpl. tauto.
    + intros s. simpl. tauto.
  - simpl. lia.
Defined.

(** C5 after one allocation: the second activity named alike gets the
    suffix 1. *)
Lemma symbol_allocation_on_scenario :
  pass_state scenario_ctx alloc_state
  /\ injective_symbols alloc_state
  /\ exists s,
       symbol_for scenario_ctx alloc_state ("ecoinvent", "bg2")
       = Some (Ok (s, alloc_state ++ [(("ecoinvent", "bg2"), s)]))
       /\ ~ In s (dict_values alloc_state).
Proof.
  assert (P : pass_state scenario_ctx alloc_state).
  { eapply pass_step; [apply pass_refl|].
    instantiate (1 := "market_for_bg"). instantiate (1 := ("ecoinvent", "bg1")).
    vm_compute. reflexivity. }
  destruct (@symbol_allocation_injective_idempotent Q Q_Number scenario_ctx alloc_state P)
    as (Inj & _ & Fresh & _).
  split; [exact P|]. split; [exact Inj|].
  destruct (Fresh ("ecoinvent", "bg2") bg2) as (s & E & F & _);
    [reflexivity|vm_compute; reflexivity|].
  exists s. split; [exact E|exact F].
Defined.

(** C6 on an activity that uses a part of its own output: the exchange is
    taken as the self-loop, its amount becomes the divisor, and the expression
    is built. *)
Lemma own_use_raises_nothing :
  In own_use (act_exchanges uRoot)
  /\ exch_input own_use = act_key uRoot
  /\ contributes own_use = false
  /\ (forall fuel k,
        actToExpression own_use_ctx fuel uRoot <> Some (Err (RecursiveExchange k)))
  /\ actToExpression own_use_ctx 1 uRoot
     = Some (Ok (SymE (Bin OMul (Num 10%Q) (Sym "market_for_bg")),
                 [("market_for_bg", ("ecoinvent", "bg1"))])).
Proof.
  assert (O : own_outputs uRoot).
  { intros e [<-|[<-|[<-|[]]]]; reflexivity. }
  assert (B : brightway_data own_use_ctx).
  { intros a [<-|[<-|[]]]; [exact O|intros e []]. }
  destruct (@recursive_exchange_is_never_raised Q Q_Number own_use_ctx uRoot B O)
    as (S & _ & A).
  split; [simpl; auto|]. split; [reflexivity|].
  split; [|split; [exact A|vm_compute; reflexivity]].
  apply (S own_use (fun _ _ => None) (initial_state [])); [simpl; auto|reflexivity].
Defined.

(** C7 on a model that needs [p], whose default is 3: the score 10 of the
    background activity times 3, with [p] left out and with [p = 3]. *)
Lemma missing_parameter_on_pRoot :
  multiLCAAlgebric param_ctx 1 (Single (Model pRoot)) [method_X] []
  = Some (Ok {| df_index := [Name "model P"]; df_columns := ["X - unit"];
                df_rows := [[30%Q]] |})
  /\ multiLCAAlgebric param_ctx 1 (Single (Model pRoot)) [method_X] [("p", Scalar 3%Q)]
     = Some (Ok {| df_index := [Name "model P"]; df_columns := ["X - unit"];
                   df_rows := [[30%Q]] |})
  /\ fill_defaults param_ctx ["p"] [] = Ok [("p", Scalar 3%Q)].
Proof.
  destruct (@missing_parameter_is_its_default Q Q_Number param_ctx 1 (Single (Model pRoot))
              [method_X] [] [] "p" (Scalar 3%Q)
              {| p_name := "p"; p_names := ["p"]; p_default := Scalar 3%Q |})
    as (_ & _ & T).
  - apply plainCompleteParamValues_proper.
  - reflexivity.
  - reflexivity.
  - reflexivity.
  - simpl. constructor; [simpl; tauto|constructor].
  - assert (A : multiLCAAlgebric param_ctx 1 (Single (Model pRoot)) [method_X] []
                = Some (Ok {| df_index := [Name "model P"]; df_columns := ["X - unit"];
                              df_rows := [[30%Q]] |}))
      by (vm_compute; reflexivity).
    split; [exact A|]. split; [apply (T _); exact A|reflexivity].
Defined.

(** C8 on a model that needs [p], with an empty registry. *)
Lemma unknown_parameter_on_pRoot :
  unknown_name unknown_ctx "p"
  /\ exists missing,
       multiLCAAlgebric unknown_ctx 1 (ModelList [Model pRoot]) [method_X] []
       = Some (Err (UnknownParams missing))
       /\ In "p" missing.
Proof.
  assert (U : unknown_name unknown_ctx "p") by (intros q []).
  split; [exact U|].
  destruct (@unknown_parameter_aborts Q Q_Number unknown_ctx "p" U) as [_ B].
  apply (B 1 [method_X] [] (Model pRoot) [] [] ([], [])
           (Bin OMul (Sym "p") (Sym "market_for_bg"))
           [("market_for_bg", ("ecoinvent", "bg1"))]).
  - vm_compute. reflexivity.
  - simpl. auto.
  - simpl. intros [E|[]]. discriminate E.
  - reflexivity.
Defined.

(** A parameter whose terms cancel is no free symbol of the expression and is
    not looked up: with [p] unknown to the registry, the call on
    [p * bg1 + (-p) * bg1] returns a table. *)
Lemma cancelled_parameter_is_not_requested :
  unknown_name zero_ctx "p"
  /\ actToExpression zero_ctx 1 zRoot
     = Some (Ok (SymE (Num 0%Q), [("market_for_bg", ("ecoinvent", "bg1"))]))
  /\ multiLCAAlgebric zero_ctx 1 (ModelList [Model zRoot]) [method_X] []
     = Some (Ok {| df_index := [Name "model Z"]; df_columns := ["X - unit"];
                   df_rows := [[0%Q]] |}).
Proof.
  split; [intros q []|]. split; vm_compute; reflexivity.
Qed.

(** C9 on two activities with one display name. *)
Lemma tables_of_two_models_named_alike :
  exists ps' dfs,
    models_loop scenario_ctx 2 [method_X] [Model sM; Model sTwin] ([], [])
    = Some (Ok (ps', dfs))
    /\ List.length dfs < 2
    /\ multiLCAAlgebric scenario_ctx 2 (ModelList [Model sM; Model sTwin]) [method_X] []
       = match dict_values dfs with
         | [df] => Some (Ok df)
         | tables => Some (pd_concat tables)
         end.
Proof.
  eexists. eexists. split; [vm_compute; reflexivity|].
  destruct (@tables_are_keyed_by_display_name Q Q_Number scenario_ctx 2 [method_X]
              [Model sM; Model sTwin] [] _ _ eq_refl) as (_ & _ & _ & Fewer & Out).
  split; [|exact Out]. apply Fewer.
  intros ND. inversion ND as [|n l NI _]. apply NI. simpl. auto.
Defined.


(** * Further properties of [lca.py] *)

(** ** [_slugify] *)

Lemma alnum_not_underscore (c : ascii) : is_alnum c = true -> Ascii.eqb c "_" = false.
Proof.
  intros A. destruct (Ascii.eqb_spec c "_") as [->|N]; [discriminate A|reflexivity].
Qed.

Lemma slugify_from_chars (b : bool) (s : string) :
  string_forall is_slug_char (slugify_from b s) = true.
Proof.
  revert b. induction s as [|c s IH]; intros b; simpl; [reflexivity|].
  destruct (is_alnum c) eqn:A; simpl.
  - unfold is_slug_char. rewrite A. simpl. apply IH.
  - destruct b; simpl; [apply IH|]. apply IH.
Qed.

(** After a replaced character the slug does not go on with an underscore. *)
Lemma slugify_from_head (s : string) :
  match slugify_from true s with
  | String c _ => Ascii.eqb c "_" = false
  | EmptyString => True
  end.
Proof.
  induction s as [|c s IH]; simpl; [exact I|].
  destruct (is_alnum c) eqn:A; [now apply alnum_not_underscore|exact IH].
Qed.

Lemma slugify_from_no_double (b : bool) (s : string) :
  no_double_underscore (slugify_from b s) = true.
Proof.
  revert b. induction s as [|c s IH]; intros b; simpl; [reflexivity|].
  destruct (is_alnum c) eqn:A.
  - simpl. rewrite IH, (alnum_not_underscore _ A). simpl.
    now destruct (slugify_from false s).
  - destruct b; [apply IH|]. simpl. rewrite IH.
    pose proof (slugify_from_head s) as H.
    destruct (slugify_from true s); [reflexivity|]. now rewrite H.
Qed.

(** X1: a slug only has letters, digits and underscores, and no two underscores
    in a row: every run of other characters, underscores included, became one
    underscore. *)
Theorem slugify_shape (s : string) :
  string_forall is_slug_char (_slugify s) = true
  /\ no_double_underscore (_slugify s) = true.
Proof. split; [apply slugify_from_chars|apply slugify_from_no_double]. Qed.

Lemma slugify_from_fixed (b : bool) (t : string) :
  string_forall is_slug_char t = true ->
  no_double_underscore t = true ->
  (b = true -> match t with String c _ => Ascii.eqb c "_" = false | EmptyString => True end) ->
  slugify_from b t = t.
Proof.
  revert b. induction t as [|c t IH]; intros b C D H; simpl; [reflexivity|].
  simpl in C, D. apply andb_true_iff in C as [C1 C2]. apply andb_true_iff in D as [D1 D2].
  destruct (is_alnum c) eqn:A.
  - f_equal. apply IH; auto. discriminate.
  - unfold is_slug_char in C1. rewrite A in C1. simpl in C1.
    destruct b; [rewrite (H eq_refl) in C1; discriminate|].
    apply Ascii.eqb_eq in C1. subst c. f_equal. apply IH; auto.
    intros _. destruct t as [|c' t]; [exact I|]. simpl in D1.
    now apply negb_true_iff in D1.
Qed.

(** X2: slugifying a slug changes nothing: [_slugify] is idempotent. *)
Theorem slugify_idempotent (s : string) : _slugify (_slugify s) = _slugify s.
Proof.
  apply slugify_from_fixed;
    [apply slugify_from_chars|apply slugify_from_no_double|discriminate].
Qed.

(** ** The names of the symbols *)

Lemma string_forall_append (P : ascii -> bool) (s t : string) :
  string_forall P (s ++ t)%string = string_forall P s && string_forall P t.
Proof. induction s as [|c s IH]; simpl; [reflexivity|]. now rewrite IH, andb_assoc. Qed.

Lemma decimal_chars (i : nat) : string_forall is_slug_char (decimal i) = true.
Proof.
  unfold decimal. induction (Nat.to_uint i) as [|u IH|u IH|u IH|u IH|u IH|u IH|u IH|u IH|u IH|u IH];
    simpl; auto.
Qed.

Section SymbolNames.
Context (num : Type) {NUM : Number num}.
Variable ctx : Collaborators num.

Lemma symbol_for_named st k s st' :
  symbol_for ctx st k = Some (Ok (s, st')) -> dict_get k st = None -> named_after ctx k s.
Proof.
  unfold symbol_for, act_to_symbol. intros E G. rewrite G in E.
  destruct (getAct ctx k) as [a|] eqn:A; [|discriminate].
  destruct (find_free _ _ _ _ _) as [s0|] eqn:F; [|discriminate].
  simpl in E. injection E as <- _. exists a. split; [exact A|].
  apply find_free_Some in F as [_ [->|(i & Hi & -> & _)]]; eauto.
Qed.

Lemma pass_extends_named st st' :
  pass_extends ctx st st' ->
  (forall k s, dict_get k st = Some s -> named_after ctx k s) ->
  forall k s, dict_get k st' = Some s -> named_after ctx k s.
Proof.
  induction 1 as [|st st1 k0 s0 st2 _ IH S]; intros H k s G; [now apply H|].
  pose proof S as S'. apply symbol_for_spec in S' as [[_ ->]|(G0 & -> & _)]; [now apply IH|].
  destruct (dict_get k st1) as [s1|] eqn:G1.
  - erewrite dict_get_app_l in G by exact G1. injection G as <-. now apply IH.
  - rewrite dict_get_app_r in G by exact G1. simpl in G.
    destruct (eq_dec k k0) as [->|N]; [|discriminate]. injection G as <-.
    eapply symbol_for_named; eauto.
Qed.

End SymbolNames.

(** X3: every symbol of a pass is named after its activity: it is the slug of
    the activity's name, possibly followed by a decimal suffix from 1 on, and
    so it only has letters, digits and underscores. *)
Theorem symbols_are_named_after_activities
    (num : Type) (NUM : Number num) (ctx : Collaborators num) (st : symtab)
    (k : key) (s : string) :
  pass_state ctx st -> dict_get k st = Some s ->
  named_after ctx k s /\ string_forall is_slug_char s = true.
Proof.
  intros P G.
  assert (N : named_after ctx k s).
  { eapply pass_extends_named; [exact P| |exact G]. intros k0 s0 G0. discriminate G0. }
  split; [exact N|]. destruct N as (a & _ & [->|(i & _ & ->)]).
  - apply slugify_from_chars.
  - rewrite string_forall_append. unfold _slugify.
    now rewrite slugify_from_chars, decimal_chars.
Qed.

(** The symbol of the first background activity of the scenario. *)
Lemma symbols_are_named_on_scenario :
  pass_state scenario_ctx alloc_state
  /\ named_after scenario_ctx ("ecoinvent", "bg1") "market_for_bg"
  /\ string_forall is_slug_char "market_for_bg" = true.
Proof.
  assert (P : pass_state scenario_ctx alloc_state).
  { eapply pass_step; [apply pass_refl|].
    instantiate (1 := "market_for_bg"). instantiate (1 := ("ecoinvent", "bg1")).
    vm_compute. reflexivity. }
  split; [exact P|].
  exact (@symbols_are_named_after_activities Q Q_Number scenario_ctx alloc_state
           ("ecoinvent", "bg1") "market_for_bg" P eq_refl).
Defined.

(** ** [_reverse_dict] *)

(** X4: on a dictionary with distinct values, [_reverse_dict] swaps every
    entry in place, a lookup in it inverts a lookup in the dictionary, and
    reversing twice gives the dictionary back. *)
Theorem reverse_dict_involutive {K V} `{EqDec K} `{EqDec V} (d : dict K V) :
  NoDup (dict_keys d) -> NoDup (dict_values d) ->
  _reverse_dict d = map (fun kv => (snd kv, fst kv)) d
  /\ (forall k v, dict_get v (_reverse_dict d) = Some k <-> dict_get k d = Some v)
  /\ _reverse_dict (_reverse_dict d) = d.
Proof.
  intros NK NV.
  assert (R : _reverse_dict d = map (fun kv => (snd kv, fst kv)) d).
  { unfold _reverse_dict. now rewrite reverse_dict_app. }
  split; [exact R|]. split; [intros k v; now apply reverse_dict_get|].
  rewrite R. unfold _reverse_dict. rewrite reverse_dict_app.
  - simpl. rewrite map_map. rewrite <- (map_id d) at 2. apply map_ext.
    intros [k v]. reflexivity.
  - simpl. unfold dict_values. rewrite map_map. exact NK.
Qed.

Lemma reverse_dict_on_two_symbols :
  let d : symtab := [(("ecoinvent", "bg1"), "market_for_bg");
                     (("ecoinvent", "bg2"), "market_for_bg1")] in
  _reverse_dict (_reverse_dict d) = d.
Proof.
  intros d.
  refine (proj2 (proj2 (@reverse_dict_involutive key string _ _ d _ _))).
  - repeat constructor; simpl; intuition discriminate.
  - repeat constructor; simpl; intuition discriminate.
Defined.

(** ** The length check of [postMultiLCAAlgebric] *)

Section LengthCheck.
Context (num : Type) {NUM : Number num}.

Lemma param_length_loop_fixed (ps : params num) (n : nat) :
  n <> 1 ->
  param_length_loop ps n
  = if forallb (Nat.eqb n) (list_lengths ps) then Ok n else Err ShapeMismatch.
Proof.
  intros N. induction ps as [|[k v] ps IH]; [reflexivity|].
  destruct v as [x|xs|xs]; simpl; auto.
  destruct (n =? 1) eqn:E1; [apply Nat.eqb_eq in E1; contradiction|].
  destruct (n =? List.length xs); simpl; [exact IH|reflexivity].
Qed.

End LengthCheck.

(** X5: the length check, as it behaves: lists of one element are passed over
    as long as no longer or empty list has been met; the first other list
    fixes the length, and the check raises exactly when a later list has
    another length.  Values that are no lists play no part. *)
Theorem length_check_characterised
    (num : Type) (NUM : Number num) (ps : params num) :
  param_length_loop ps 1 = checked_length (list_lengths ps).
Proof.
  induction ps as [|[k v] ps IH]; [reflexivity|].
  destruct v as [x|xs|xs]; simpl; auto.
  destruct (List.length xs) as [|[|n]] eqn:L; [|exact IH|].
  - now rewrite param_length_loop_fixed.
  - now rewrite param_length_loop_fixed.
Qed.

(** ** Substituting the scores *)

Lemma xreplace_free_symbols (num : Type) (NUM : Number num) (sub : dict string num)
    (e : expr num) :
  free_symbols (xreplace sub e)
  = filter (fun s => negb (dict_mem s sub)) (free_symbols e).
Proof.
  induction e as [x|s|op e1 IH1 e2 IH2]; simpl; [reflexivity| |].
  - unfold dict_mem. destruct (dict_get s sub); reflexivity.
  - now rewrite filter_app, IH1, IH2.
Qed.

(** ** The table of [postMultiLCAAlgebric] *)

Section TableShape.
Context (num : Type) {NUM : Number num}.

Implicit Types (res : list (list num)) (row : list num).

Lemma as_row_length (n : nat) (a : ndarray num) row :
  as_row n a = Ok row -> List.length row = n.
Proof.
  assert (H : forall xs, (if List.length xs =? n then Ok (map np_float64 xs)
                          else match xs with
                               | [x] => Ok (repeat (np_float64 x) n)
                               | _ => Err ValueError
                               end)
                         = Ok row -> List.length row = n).
  { intros xs. destruct (List.length xs =? n) eqn:E.
    - intros X. injection X as <-. rewrite length_map. now apply Nat.eqb_eq.
    - destruct xs as [|x [|y xs]]; try discriminate.
      intros X. injection X as <-. apply repeat_length. }
  destruct a as [x|xs|[|xs [|ys r]]]; simpl; try discriminate; [|apply H|apply H].
  intros X. injection X as <-. apply repeat_length.
Qed.

Lemma set_row_Ok (j : nat) row res res' :
  set_row j row res = Ok res' ->
  j < List.length res /\ List.length res' = List.length res
  /\ nth j res' [] = row
  /\ forall i, i <> j -> nth i res' [] = nth i res [].
Proof.
  revert j res'. induction res as [|r res IH]; intros j res';
    [destruct j; discriminate|].
  destruct j as [|j]; simpl.
  - intros E. injection E as <-. simpl. repeat split; [lia|].
    intros [|i] N; [contradiction|reflexivity].
  - destruct (set_row j row res) as [r'|err] eqn:S; simpl; [|discriminate].
    intros E. injection E as <-. destruct (IH _ _ S) as (L & Len & Nj & Ni).
    simpl. repeat split; [lia|congruence|exact Nj|].
    intros [|i] N; [reflexivity|]. apply Ni. congruence.
Qed.

Lemma lambdas_loop_Ok (alpha : num) (kwargs : dict string (ndarray num)) (n j : nat)
    (lambdas : list (Lambda num)) res res' :
  lambdas_loop alpha kwargs n j lambdas res = Ok res' ->
  List.length res' = List.length res
  /\ (lambdas = [] \/ j + List.length lambdas <= List.length res)
  /\ (forall i, i < j \/ j + List.length lambdas <= i -> nth i res' [] = nth i res [])
  /\ (forall i, j <= i < j + List.length lambdas -> List.length (nth i res' []) = n).
Proof.
  revert j res. induction lambdas as [|lambd lambdas IH]; intros j res; simpl.
  - intros E. injection E as <-. repeat split; auto. intros i Hi. lia.
  - destruct (call_lambda lambd kwargs) as [v|err]; simpl; [|discriminate].
    destruct (as_row n (scale alpha v)) as [row|err] eqn:R; simpl; [|discriminate].
    destruct (set_row j row res) as [res1|err] eqn:S; simpl; [|discriminate].
    intros L. destruct (set_row_Ok _ _ _ S) as (Lj & Len & Nj & Ni).
    destruct (IH _ _ L) as (Len' & B & Out & In').
    split; [congruence|]. split; [right; destruct B as [->|B]; simpl; lia|]. split.
    + intros i Hi. rewrite Out by lia. apply Ni. lia.
    + intros i Hi. destruct (Nat.eq_dec i j) as [->|N].
      * rewrite Out by lia. rewrite Nj. eapply as_row_length; eauto.
      * apply In'. lia.
Qed.

End TableShape.

(** X7: the table that [postMultiLCAAlgebric] returns has one row per sample,
    numbered from 0, and one column per method, named after it; this needs
    that there are no more compiled functions than methods (the call raises
    otherwise), and a method without a function keeps the zeros of
    [np.zeros], which are floats. *)
Theorem postMultiLCAAlgebric_table_shape
    (num : Type) (NUM : Number num) (ctx : Collaborators num)
    (methods : list method) (lambdas : list (Lambda num)) (alpha : num)
    (ps cps : params num) (N : nat) (t : DataFrame num) :
  _completeParamValues ctx ps = Ok cps ->
  param_length_loop cps 1 = Ok N ->
  postMultiLCAAlgebric ctx methods lambdas alpha ps = Ok t ->
  df_index t = map Idx (seq 0 N)
  /\ df_columns t = map method_name methods
  /\ List.length (df_rows t) = N
  /\ (forall row, In row (df_rows t) -> List.length row = List.length methods)
  /\ List.length lambdas <= List.length methods
  /\ (forall row j, In row (df_rows t) -> List.length lambdas <= j ->
        nth j row (np_float64 num0) = np_float64 num0).
Proof.
  intros C PL. unfold postMultiLCAAlgebric. rewrite C. simpl. rewrite PL. simpl.
  set (zeros := repeat (repeat (np_float64 num0) N) (List.length methods)).
  destruct (lambdas_loop alpha (expand_params N cps) N 0 lambdas zeros) as [res|err] eqn:L;
    simpl; [|discriminate].
  intros E. injection E as <-. simpl.
  destruct (lambdas_loop_Ok _ _ _ _ _ _ L) as (Len & B & Out & _).
  assert (Lz : List.length zeros = List.length methods) by apply repeat_length.
  split; [reflexivity|]. split; [reflexivity|].
  split; [now rewrite length_map, length_seq|]. split; [|split].
  - intros row I. apply in_map_iff in I as (i & <- & _). rewrite length_map. congruence.
  - destruct B as [->|B]; simpl in *; lia.
  - intros row j I Hj. apply in_map_iff in I as (i & <- & I). apply in_seq in I.
    destruct (Nat.lt_ge_cases j (List.length res)) as [Lt|Ge].
    + rewrite (nth_map_lt _ res (np_float64 num0) []) by exact Lt.
      rewrite Out by (right; simpl; exact Hj). unfold zeros.
      rewrite nth_repeat_lt by lia.
      rewrite (nth_indep _ num0 (np_float64 num0)) by (rewrite repeat_length; lia).
      apply nth_repeat_lt. lia.
    + apply nth_overflow. now rewrite length_map.
Qed.

Lemma table_shape_on_five_samples :
  exists t,
    postMultiLCAAlgebric ab_ctx [method_X] [ab_lambda] 1%Q five_samples = Ok t
    /\ df_index t = map Idx (seq 0 5)
    /\ df_columns t = ["X - unit"]
    /\ List.length (df_rows t) = 5.
Proof.
  eexists. split; [vm_compute; reflexivity|].
  destruct (@postMultiLCAAlgebric_table_shape Q Q_Number ab_ctx [method_X] [ab_lambda] 1%Q
              five_samples five_samples 5 _ eq_refl eq_refl eq_refl)
    as (I & C & R & _).
  split; [exact I|]. split; [exact C|exact R].
Defined.

(** X8: when every list has the length [N] (there being a list unless
    [N = 1]), the check returns [N], a list becomes the array of its
    elements and a number is repeated [N] times, as [np.array] holds them. *)
Theorem equal_lengths_are_broadcast
    (num : Type) (NUM : Number num) (cps : params num) (N : nat) :
  Forall (fun kv => is_sample_vector N (snd kv) = true) cps ->
  existsb (fun kv => is_pylist (snd kv)) cps = true \/ N = 1 ->
  param_length_loop cps 1 = Ok N
  /\ forall k v, dict_get k cps = Some v ->
       exists xs, dict_get k (expand_params N cps) = Some (Nd1 xs)
                  /\ List.length xs = N
                  /\ (forall x, v = Scalar x -> xs = np_array (repeat x N))
                  /\ (forall l, v = PyList l -> xs = np_array l).
Proof.
  intros F X. split.
  - rewrite (param_length_loop_equal F) by auto.
    destruct X as [->| ->]; [reflexivity|]. now destruct (existsb _ cps).
  - intros k v G. unfold expand_params. rewrite dict_get_map_values, G. simpl.
    apply dict_get_In in G. rewrite Forall_forall in F. specialize (F _ G). simpl in F.
    destruct v as [x|l|l]; simpl in *; try discriminate.
    + eexists. split; [reflexivity|].
      split; [unfold np_array; now rewrite length_map, repeat_length|].
      split; [intros y E; now injection E as <-|discriminate].
    + apply Nat.eqb_eq in F. eexists. split; [reflexivity|].
      split; [unfold np_array; now rewrite length_map|].
      split; [discriminate|intros y E; now injection E as <-].
Qed.

Lemma equal_lengths_on_five_samples :
  param_length_loop five_samples 1 = Ok 5.
Proof.
  refine (proj1 (@equal_lengths_are_broadcast Q Q_Number five_samples 5 _ _)).
  - repeat constructor.
  - left. reflexivity.
Defined.

(** ** Names and the registry *)

Section RegistryNames.
Context (num : Type) {NUM : Number num}.
Variable ctx : Collaborators num.

Implicit Types (names : list string) (res : dict string (ParamDef num)).

Lemma dict_set_In {K V} `{EqDec K} (k k' : K) (v v' : V) (d : dict K V) :
  In (k', v') (dict_set k v d) -> (k' = k /\ v' = v) \/ In (k', v') d.
Proof.
  induction d as [|[k0 v0] d IH]; simpl.
  - intros [E|[]]. injection E as <- <-. auto.
  - destruct (eq_dec k k0) as [->|N]; simpl.
    + intros [E|I]; [injection E as <- <-; auto|auto].
    + intros [E|I]; [auto|]. destruct (IH I); auto.
Qed.

Lemma names_fold_entries names (l : list string) (param : ParamDef num) res nq :
  In nq (fold_left (fun res name =>
          if mem name names then dict_set name param res else res) l res) ->
  In nq res \/ (In (fst nq) l /\ In (fst nq) names /\ snd nq = param).
Proof.
  revert res. induction l as [|n l IH]; intros res; simpl; [auto|].
  intros I. apply IH in I as [I|(A & B & C)]; [|auto].
  destruct (mem n names) eqn:M; [|auto].
  destruct nq as [k v]. apply dict_set_In in I as [[-> ->]|I]; [|auto].
  right. apply mem_In in M. simpl. auto.
Qed.

Lemma registry_fold_entries names (l : list (ParamDef num)) res nq :
  In nq (fold_left (fun res param =>
          fold_left (fun res name =>
            if mem name names then dict_set name param res else res)
            (p_names param) res) l res) ->
  In nq res \/ owns names l nq.
Proof.
  revert res. induction l as [|p l IH]; intros res; simpl; [auto|].
  intros I. apply IH in I as [I|(A & B & C)].
  - apply names_fold_entries in I as [I|(A & B & C)]; [auto|].
    right. unfold owns. rewrite C. simpl. auto.
  - right. unfold owns. simpl. auto.
Qed.

End RegistryNames.

Section RegistryLookups.
Context (num : Type) {NUM : Number num}.
Variable ctx : Collaborators num.

Implicit Types (names : list string).

(** The dictionary of [_expanded_names_to_names]. *)
Lemma expanded_names_cases names :
  exists res : dict string (ParamDef num),
    (forall k, In k (dict_keys res) <->
               In k names /\ exists p, In p (dict_values (_param_registry ctx))
                                       /\ In k (p_names p))
    /\ (forall nq, In nq res -> owns names (dict_values (_param_registry ctx)) nq)
    /\ _expanded_names_to_names ctx names
       = match filter (fun n => negb (mem n (dict_keys res))) (dedup names) with
         | [] => Ok (dedup (map (@p_name num) (dict_values res)))
         | missing => Err (UnknownParams missing)
         end.
Proof.
  unfold _expanded_names_to_names. set (res := fold_left _ _ _). exists res.
  split; [|split; [|cbv zeta; destruct (filter _ (dedup names)); reflexivity]].
  - intros k. unfold res. rewrite registry_fold_keys, dedup_In. simpl. tauto.
  - intros nq I. unfold res in I. apply registry_fold_entries in I as [[]|(A & B & C)].
    rewrite dedup_In in A. split; [exact A|auto].
Qed.

Lemma sequence_map_Ok {A B} (f : A -> result B) (g : A -> B) (l : list A) :
  (forall x, In x l -> f x = Ok (g x)) -> sequence (map f l) = Ok (map g l).
Proof.
  induction l as [|x l IH]; intros H; simpl; [reflexivity|].
  rewrite (H x) by (simpl; auto). simpl. rewrite IH; [reflexivity|].
  intros y I. apply H. simpl; auto.
Qed.

End RegistryLookups.

(** X9: [_expanded_names_to_names] returns exactly when every requested name
    is an expanded name of some entry of the registry; it then returns,
    without repetition, names of entries that have a requested name; when it
    raises, the exception carries exactly the requested names that no
    entry has. *)
Theorem expanded_names_to_names_characterised
    (num : Type) (NUM : Number num) (ctx : Collaborators num) (names : list string) :
  ((exists l, _expanded_names_to_names ctx names = Ok l) <->
   forall n, In n names ->
     exists p, In p (dict_values (_param_registry ctx)) /\ In n (p_names p))
  /\ (forall l, _expanded_names_to_names ctx names = Ok l ->
        NoDup l /\
        forall x, In x l ->
          exists p n, In p (dict_values (_param_registry ctx)) /\ p_name p = x
                      /\ In n names /\ In n (p_names p))
  /\ (forall e, _expanded_names_to_names ctx names = Err e ->
        exists missing, e = UnknownParams missing
          /\ forall n, In n missing <-> In n names /\ unknown_name ctx n).
Proof.
  destruct (expanded_names_cases ctx names) as (res & K & O & E). rewrite E.
  remember (filter (fun n => negb (mem n (dict_keys res))) (dedup names)) as missing
    eqn:Hm.
  assert (M : forall n, In n missing <-> In n names /\ unknown_name ctx n).
  { intros n. rewrite Hm, filter_In, dedup_In, negb_true_iff, mem_not_In, K.
    unfold unknown_name. split.
    - intros [I N]. split; [exact I|]. intros p Hp Hn. apply N. eauto.
    - intros [I U]. split; [exact I|]. intros (_ & p & Hp & Hn). exact (U p Hp Hn). }
  clear Hm E. split; [|split].
  - split.
    + intros [l El] n I. destruct missing as [|m r]; [|discriminate].
      destruct (in_dec string_dec n (dict_keys res)) as [Y|N]; [now apply K in Y|].
      exfalso. apply (proj2 (M n)). split; [exact I|].
      intros p Hp Hn. apply N. apply K. eauto.
    + intros H. destruct missing as [|m r]; [eauto|]. exfalso.
      destruct (proj1 (M m) (or_introl eq_refl)) as [I U].
      destruct (H m I) as (p & Hp & Hn). exact (U p Hp Hn).
  - intros l El. destruct missing; [|discriminate]. injection El as <-.
    split; [apply dedup_NoDup|]. intros x I. rewrite dedup_In in I.
    apply in_map_iff in I as (p & <- & I). apply in_map_iff in I as ([n q] & <- & I).
    destruct (O _ I) as (A & B & C). exists q, n. auto.
  - intros e Ee. destruct missing as [|m r]; [discriminate|]. injection Ee as <-.
    exists (m :: r). split; [reflexivity|exact M].
Qed.

Lemma expand_names_after_lookup
    (num : Type) (NUM : Number num) (ctx : Collaborators num)
    (names l : list string) :
  registry_wf ctx ->
  _expanded_names_to_names ctx names = Ok l ->
  exists l', _expand_param_names ctx l = Ok l'
    /\ incl names l'
    /\ forall x, In x l' ->
         exists p, In p (dict_values (_param_registry ctx)) /\ In x (p_names p).
Proof.
  intros W E0. destruct (expanded_names_cases ctx names) as (res & K & O & E).
  rewrite E in E0. set (missing := filter _ _) in E0.
  destruct missing as [|m r] eqn:Em; [|discriminate]. injection E0 as <-.
  set (g := fun key => match dict_get key (_param_registry ctx) with
                       | Some p => p_names p
                       | None => []
                       end).
  assert (Q : forall key, In key (dedup (map (@p_name num) (dict_values res))) ->
                exists q, In q (dict_values res) /\ p_name q = key
                          /\ dict_get key (_param_registry ctx) = Some q).
  { intros key I. rewrite dedup_In in I. apply in_map_iff in I as (q & <- & I).
    exists q. split; [exact I|]. split; [reflexivity|].
    apply in_map_iff in I as ([n q'] & <- & I). destruct (O _ I) as (_ & B & _).
    now apply W. }
  exists (List.concat (map g (dedup (map (@p_name num) (dict_values res))))).
  split; [|split].
  - unfold _expand_param_names. rewrite (sequence_map_Ok _ g); [reflexivity|].
    intros key I. destruct (Q key I) as (q & _ & _ & G). unfold g. now rewrite G.
  - intros n I.
    assert (Kn : In n (dict_keys res)).
    { destruct (in_dec string_dec n (dict_keys res)) as [Y|N]; [exact Y|]. exfalso.
      assert (X : In n (filter (fun n0 => negb (mem n0 (dict_keys res))) (dedup names))).
      { rewrite filter_In, dedup_In, negb_true_iff, mem_not_In. auto. }
      fold missing in X. rewrite Em in X. destruct X. }
    apply dict_key_get in Kn as [q G]. apply dict_get_In in G.
    destruct (O _ G) as (_ & B & C). simpl in B, C.
    apply in_concat. exists (p_names q). split; [|exact C].
    apply in_map_iff. exists (p_name q). split.
    + unfold g. now rewrite (W q B).
    + apply dedup_In. apply in_map. apply (in_map snd) in G. exact G.
  - intros x I. apply in_concat in I as (ns & I & Hx).
    apply in_map_iff in I as (key & <- & I). destruct (Q key I) as (q & Hq & _ & G).
    unfold g in Hx. rewrite G in Hx. exists q. split; [|exact Hx].
    apply in_map_iff in Hq as ([n q'] & <- & Hq). now destruct (O _ Hq) as (_ & B & _).
Qed.

(** X10: with a registry whose entries are stored under their own names, the
    names that [_expanded_names_to_names] returns can all be expanded again,
    and the expansion holds every name that was requested (with the other
    names of the same parameters) and only names of the registry. *)
Theorem expand_after_lookup_covers_names
    (num : Type) (NUM : Number num) (ctx : Collaborators num)
    (names l : list string) :
  registry_wf ctx ->
  _expanded_names_to_names ctx names = Ok l ->
  exists l', _expand_param_names ctx l = Ok l'
    /\ incl names l'
    /\ forall x, In x l' ->
         exists p, In p (dict_values (_param_registry ctx)) /\ In x (p_names p).
Proof. exact (@expand_names_after_lookup num NUM ctx names l). Qed.

Lemma expand_after_lookup_on_ab :
  registry_wf ab_ctx
  /\ exists l', _expand_param_names ab_ctx ["a"; "b"] = Ok l' /\ incl ["b"; "a"; "b"] l'.
Proof.
  assert (W : registry_wf ab_ctx).
  { intros q [<-|[<-|[]]]; reflexivity. }
  split; [exact W|].
  destruct (@expand_after_lookup_covers_names Q Q_Number ab_ctx ["b"; "a"; "b"] ["a"; "b"] W
              eq_refl) as (l' & E & I & _).
  exists l'. split; [exact E|exact I].
Defined.

(** ** The compiled functions of [preMultiLCAAlgebric] *)

(** X11: with a registry whose entries are stored under their own names,
    [preMultiLCAAlgebric] returns one compiled function per method, each
    taking the expected names as its arguments, and the body of each uses
    only these: no symbol of an activity is left, so a call with all the
    expected names never meets an unbound name. *)
Theorem preMultiLCAAlgebric_functions_are_closed
    (num : Type) (NUM : Number num) (ctx : Collaborators num)
    (fuel : nat) (model : Activity num) (methods : list method)
    (lambdas : list (Lambda num)) (expected_names : list string) :
  registry_wf ctx ->
  preMultiLCAAlgebric ctx fuel model methods = Some (Ok (lambdas, expected_names)) ->
  List.length lambdas = List.length methods
  /\ forall lambd, In lambd lambdas ->
       lam_args lambd = expected_names
       /\ incl (free_symbols (lam_body lambd)) expected_names.
Proof.
  intros W. unfold preMultiLCAAlgebric.
  destruct (actToExpression ctx fuel model) as [[[v tab]|err]|]; simpl; try discriminate.
  destruct v as [x|e]; [discriminate|].
  set (expected0 := filter _ (dedup (free_symbols e))).
  destruct (_expanded_names_to_names ctx expected0) as [names|err] eqn:E1; simpl;
    [|discriminate].
  destruct (@expand_names_after_lookup num NUM ctx expected0 names W E1)
    as (l' & E2 & I & _).
  rewrite E2. simpl. intros X. injection X as <- <-.
  split; [apply length_map|].
  intros lambd Il. apply in_map_iff in Il as (method & <- & _). simpl.
  split; [reflexivity|]. intros s Hs.
  match type of Hs with
  | In s (free_symbols (xreplace ?sub e)) =>
      rewrite (@xreplace_free_symbols num NUM sub e) in Hs
  end.
  apply filter_In in Hs as [Hs N]. apply I. unfold expected0.
  apply filter_In. split; [now apply dedup_In|].
  apply negb_true_iff in N. apply negb_true_iff. apply mem_not_In.
  intros K. rewrite <- dict_mem_In in K.
  unfold dict_mem in *. rewrite !dict_get_map_values in N.
  destruct (dict_get s tab); [discriminate N|discriminate K].
Qed.

Lemma functions_are_closed_on_pRoot :
  registry_wf param_ctx
  /\ exists lambdas,
       preMultiLCAAlgebric param_ctx 1 pRoot [method_X] = Some (Ok (lambdas, ["p"]))
       /\ List.length lambdas = 1
       /\ forall lambd, In lambd lambdas ->
            lam_args lambd = ["p"] /\ incl (free_symbols (lam_body lambd)) ["p"].
Proof.
  assert (W : registry_wf param_ctx).
  { intros q [<-|[]]; reflexivity. }
  split; [exact W|]. eexists. split; [vm_compute; reflexivity|].
  apply (@preMultiLCAAlgebric_functions_are_closed Q Q_Number param_ctx 1 pRoot [method_X]).
  - exact W.
  - vm_compute. reflexivity.
Defined.

(** ** Parameters that no model requires *)

Section Unused.
Context (num : Type) {NUM : Number num}.
Variable ctx : Collaborators num.
Variable q : string.

Implicit Types (ps : params num) (expected : list string).

Lemma without_param_get ps k :
  k <> q -> dict_get k (without_param q ps) = dict_get k ps.
Proof.
  intros N. unfold without_param. induction ps as [|[k' v] ps IH]; simpl; [reflexivity|].
  destruct (py_eq k' q) eqn:E; simpl.
  - apply py_eq_true in E. subst k'. destruct (eq_dec k q); [contradiction|exact IH].
  - destruct (eq_dec k k'); [reflexivity|exact IH].
Qed.

Lemma without_param_set ps k (v : pval num) :
  k <> q -> without_param q (dict_set k v ps) = dict_set k v (without_param q ps).
Proof.
  intros N. unfold without_param. induction ps as [|[k' v'] ps IH]; simpl.
  - assert (E : py_eq k q = false) by (now apply py_eq_false). now rewrite E.
  - destruct (eq_dec k k') as [->|N']; simpl.
    + assert (E : py_eq k' q = false) by (now apply py_eq_false). rewrite E. simpl.
      destruct (eq_dec k' k'); [reflexivity|contradiction].
    + destruct (py_eq k' q) eqn:E; simpl; [exact IH|].
      destruct (eq_dec k k'); [contradiction|]. now rewrite IH.
Qed.

Lemma fill_defaults_without expected ps :
  ~ In q expected ->
  fill_defaults ctx expected (without_param q ps)
  = rbind (fill_defaults ctx expected ps) (fun ps' => Ok (without_param q ps')).
Proof.
  revert ps. induction expected as [|n expected IH]; intros ps H; simpl; [reflexivity|].
  assert (N : n <> q) by (intros ->; apply H; simpl; auto).
  assert (H' : ~ In q expected) by (intros I; apply H; simpl; auto).
  unfold dict_mem. rewrite (@without_param_get ps n N).
  destruct (dict_get n ps); [now apply IH|].
  destruct (dict_get n (_param_registry ctx)) as [p|]; [|reflexivity].
  rewrite <- (@without_param_set ps n (p_default p) N). now apply IH.
Qed.

Lemma filter_params_without expected ps :
  ~ In q expected ->
  filter_params expected (without_param q ps) = filter_params expected ps.
Proof.
  intros H. unfold filter_params, without_param.
  induction ps as [|[k v] ps IH]; simpl; [reflexivity|].
  destruct (py_eq k q) eqn:E; simpl.
  - apply py_eq_true in E. subst k.
    assert (M : mem q expected = false) by (now apply mem_not_In). now rewrite M.
  - now rewrite IH.
Qed.

Lemma model_table_without fuel methods (m : model_arg num) ps :
  not_required ctx fuel methods [m] q ->
  model_table ctx fuel methods m (without_param q ps)
  = fbind (model_table ctx fuel methods m ps)
          (fun r => fret (without_param q (fst r), snd r)).
Proof.
  intros H. unfold model_table.
  assert (H' : forall lambdas names expected,
             preMultiLCAAlgebric ctx fuel (model_of m) methods = Some (Ok (lambdas, names)) ->
             _expanded_names_to_names ctx names = Ok expected -> ~ In q expected).
  { intros lambdas names expected. apply H. simpl; auto. }
  destruct m as [model|model alpha]; simpl in H';
    (destruct (preMultiLCAAlgebric ctx fuel model methods) as [[[lambdas names]|err]|];
     simpl; [|reflexivity|reflexivity];
     destruct (_expanded_names_to_names ctx names) as [expected|err] eqn:E; simpl;
       [|reflexivity];
     specialize (H' lambdas names expected eq_refl E);
     rewrite (@fill_defaults_without expected ps H');
     destruct (fill_defaults ctx expected ps) as [ps'|err]; simpl; [|reflexivity];
     rewrite (@filter_params_without expected ps' H');
     destruct (postMultiLCAAlgebric _ _ _ _ _) as [df|err]; reflexivity).
Qed.

Lemma models_loop_without fuel methods (l : list (model_arg num)) ps
    (dfs : dict string (DataFrame num)) :
  not_required ctx fuel methods l q ->
  models_loop ctx fuel methods l (without_param q ps, dfs)
  = fbind (models_loop ctx fuel methods l (ps, dfs))
          (fun r => fret (without_param q (fst r), snd r)).
Proof.
  revert ps dfs. induction l as [|m l IH]; intros ps dfs H; [reflexivity|].
  cbn [models_loop]. rewrite !model_step_table.
  rewrite model_table_without
    by (intros m' a b c [<-|[]]; apply H; simpl; auto).
  destruct (model_table ctx fuel methods m ps) as [[[ps' df]|err]|]; simpl; try reflexivity.
  apply IH. intros m' a b c I. apply H. simpl; auto.
Qed.

End Unused.

(** X12: a parameter that no model of the call requires is ignored: the call
    ends as it does without it, whatever its value (a list of any length
    included) and whether the registry knows it or not. *)
Theorem unused_parameter_is_ignored
    (num : Type) (NUM : Number num) (ctx : Collaborators num)
    (fuel : nat) (models : models_arg num) (methods : list method)
    (ps : params num) (q : string) :
  not_required ctx fuel methods (models_of models) q ->
  multiLCAAlgebric ctx fuel models methods ps
  = multiLCAAlgebric ctx fuel models methods (without_param q ps).
Proof.
  intros H. unfold multiLCAAlgebric. cbv zeta.
  change (match models with Single m => [m] | ModelList ms => ms end)
    with (models_of models).
  rewrite (@models_loop_without num NUM ctx q fuel methods (models_of models) ps _ H).
  match goal with
  | |- fbind ?a _ = fbind (fbind ?b _) _ =>
      change b with a; destruct a as [[[ps' dfs]|err]|]
  end; reflexivity.
Qed.

Lemma unused_parameter_on_pRoot :
  multiLCAAlgebric param_ctx 1 (Single (Model pRoot)) [method_X]
    [("zzz", PyList [1%Q; 2%Q]); ("p", Scalar 3%Q)]
  = multiLCAAlgebric param_ctx 1 (Single (Model pRoot)) [method_X] [("p", Scalar 3%Q)].
Proof.
  apply (@unused_parameter_is_ignored Q Q_Number param_ctx 1 (Single (Model pRoot))
           [method_X] [("zzz", PyList [1%Q; 2%Q]); ("p", Scalar 3%Q)] "zzz").
  intros m lambdas names expected [<-|[]] P E.
  vm_compute in P. injection P as <- <-.
  vm_compute in E. injection E as <-.
  simpl. intros [X|[]]. discriminate X.
Defined.

(** ** Exchanges that add no term, and the divisor *)

Section Normalisation.
Context (num : Type) {NUM : Number num}.
Variable ctx : Collaborators num.

Implicit Types (a : Activity num) (e : Exchange num) (s : loop_state num) (o : num).
Implicit Types (rec : Activity num -> symtab -> fueled (pyval num * symtab)).

Lemma with_output_same s : with_output (outputAmount s) s = s.
Proof. now destruct s. Qed.

Lemma exch_step_skipped rec a e s :
  contributes e = false ->
  exch_step ctx rec a e s = fret (with_output (output_amount [e] (outputAmount s)) s).
Proof.
  unfold contributes, exch_step. simpl.
  destruct (exch_formula e); intros C;
    try (apply negb_false_iff in C; rewrite C; simpl;
         destruct (num_eqb (exch_amount e) num1); simpl;
         [now rewrite with_output_same|reflexivity]).
  now rewrite with_output_same.
Qed.

Lemma output_amount_skipped e (exs : list (Exchange num)) o :
  output_amount (e :: exs) o = output_amount exs (output_amount [e] o).
Proof.
  simpl. destruct (exch_formula e); try reflexivity;
    destruct (py_eq _ _ && negb _); reflexivity.
Qed.

Lemma output_amount_contributing e (exs : list (Exchange num)) o :
  contributes e = true -> output_amount (e :: exs) o = output_amount exs o.
Proof.
  unfold contributes. simpl. destruct (exch_formula e); intros C; try discriminate;
    apply negb_true_iff in C; now rewrite C.
Qed.

Lemma exch_step_with_output rec a e s o :
  contributes e = true ->
  exch_step ctx rec a e (with_output o s) = fmap (with_output o) (exch_step ctx rec a e s).
Proof.
  unfold contributes, exch_step, fmap.
  destruct (exch_formula e); intros C; try discriminate;
    (apply negb_true_iff in C; rewrite C; simpl;
     destruct (input_expr ctx rec a e (act_symbols s)) as [[[v st']|err]|]; reflexivity).
Qed.

Lemma exch_loop_with_output rec a (l : list (Exchange num)) s o :
  Forall (fun e => contributes e = true) l ->
  exch_loop ctx rec a l (with_output o s) = fmap (with_output o) (exch_loop ctx rec a l s).
Proof.
  intros F. revert s. induction F as [|e l C _ IH]; intros s; [reflexivity|].
  simpl. rewrite (@exch_step_with_output rec a e s o C). unfold fmap.
  destruct (exch_step ctx rec a e s) as [[s1|err]|]; simpl; [apply IH|reflexivity|reflexivity].
Qed.

Lemma filter_contributes (exs : list (Exchange num)) :
  Forall (fun e => contributes e = true) (filter (@contributes num) exs).
Proof. apply Forall_forall. intros e I. now apply filter_In in I. Qed.

(** The loop over all the exchanges is the loop over those that add a term,
    with the divisor set from the others. *)
Lemma exch_loop_contributing rec a (exs : list (Exchange num)) s :
  exch_loop ctx rec a exs s
  = fmap (with_output (output_amount exs (outputAmount s)))
         (exch_loop ctx rec a (filter (@contributes num) exs) s).
Proof.
  revert s. induction exs as [|e exs IH]; intros s.
  - simpl. unfold fmap. simpl. now rewrite with_output_same.
  - destruct (contributes e) eqn:C.
    + cbn [filter]. rewrite C. cbn [exch_loop].
      rewrite (output_amount_contributing _ _ _ C). unfold fmap.
      assert (K : forall s1, exch_step ctx rec a e s = Some (Ok s1) ->
                             outputAmount s1 = outputAmount s).
      { intros s1 E. pose proof (@exch_step_with_output rec a e s (outputAmount s) C) as W.
        rewrite with_output_same, E in W. unfold fmap in W. simpl in W.
        injection W as W. rewrite W. reflexivity. }
      destruct (exch_step ctx rec a e s) as [[s1|err]|] eqn:E; simpl; try reflexivity.
      rewrite IH, (K s1 eq_refl). reflexivity.
    + cbn [filter]. rewrite C. cbn [exch_loop].
      rewrite (exch_step_skipped rec a e s C).
      rewrite (output_amount_skipped e exs).
      remember (output_amount [e] (outputAmount s)) as o' eqn:Ho'.
      unfold fret. cbn [fbind]. rewrite IH.
      change (outputAmount (with_output o' s)) with o'.
      rewrite (@exch_loop_with_output rec a (filter (@contributes num) exs) s
                 o' (filter_contributes exs)).
      unfold fmap.
      destruct (exch_loop ctx rec a (filter (@contributes num) exs) s) as [[s1|err]|]; reflexivity.
Qed.

End Normalisation.

(** X13: what [rec_func] returns for an activity is built from the exchanges
    that add a term alone, in their order; the exchanges whose amount is a
    Python function and the self-loops add nothing, and the sum is divided
    by the amount of the last self-loop whose amount is not 1, or by 1. *)
Theorem rec_func_sums_terms_and_normalises
    (num : Type) (NUM : Number num) (ctx : Collaborators num)
    (fuel : nat) (a : Activity num) (st : symtab) :
  rec_func ctx (S fuel) a st
  = fbind (exch_loop ctx (rec_func ctx fuel) a (filter (@contributes num) (act_exchanges a))
             (initial_state st))
      (fun s => match py_div ctx (res s) (output_amount (act_exchanges a) num1) with
                | Ok v => fret (v, act_symbols s)
                | Err e => fraise e
                end).
Proof.
  rewrite rec_func_S, exch_loop_contributing. unfold fmap.
  destruct (exch_loop ctx (rec_func ctx fuel) a (filter (@contributes num) (act_exchanges a))
              (initial_state st)) as [[s|err]|]; reflexivity.
Qed.

(** ** When the expression of a model is a plain number *)


(** X14: the expression that [actToExpression] returns is a sympy expression
    exactly when the traversal meets an exchange that adds a term and has a
    background input or a formula as amount; otherwise it is a plain Python
    number, and this is exactly when [preMultiLCAAlgebric] fails on
    [expr.free_symbols] with an [AttributeError]. *)
Theorem plain_number_model_is_rejected
    (num : Type) (NUM : Number num) (ctx : Collaborators num)
    (fuel : nat) (root : Activity num) (methods : list method)
    (v : pyval num) (tab : dict string key) :
  actToExpression ctx fuel root = Some (Ok (v, tab)) ->
  (is_symbolic v = true <-> symbolic_source ctx root)
  /\ (preMultiLCAAlgebric ctx fuel root methods = Some (Err AttributeError)
      <-> ~ symbolic_source ctx root).
Proof.
  intros A. unfold preMultiLCAAlgebric. rewrite A. unfold actToExpression in A.
  destruct (rec_func ctx fuel root []) as [[[v0 st]|err]|] eqn:R; simpl in A; try discriminate.
  injection A as -> <-.
  pose proof (@rec_func_symbolic num NUM ctx fuel root [] v st R) as Y.
  split; [exact Y|]. rewrite <- Y. destruct v as [x|e]; simpl.
  - split; [discriminate|reflexivity].
  - split; [|intros H; now destruct H]. intros E. exfalso.
    destruct (_expanded_names_to_names ctx _) as [l|err] eqn:N; simpl in E.
    + destruct (_expand_param_names ctx l) as [l'|err] eqn:X; simpl in E; [discriminate|].
      injection E as ->.
      eapply (proj2 (@names_never_attribute_error num ctx _)); [exact N|exact X].
    + injection E as ->.
      pose proof (proj1 (@names_never_attribute_error num ctx
        (filter (fun n => negb (mem n (dict_keys (_reverse_dict st))))
                (dedup (free_symbols e))))) as Z.
      rewrite N in Z. now apply Z.
Qed.

(** An activity without exchanges, taken as the model: its expression is the
    number 0, and the compilation fails. *)
Lemma plain_number_model_on_bg1 :
  actToExpression scenario_ctx 1 bg1 = Some (Ok (PyNum 0%Q, []))
  /\ preMultiLCAAlgebric scenario_ctx 1 bg1 [method_X] = Some (Err AttributeError).
Proof.
  assert (A : actToExpression scenario_ctx 1 bg1 = Some (Ok (PyNum 0%Q, [])))
    by reflexivity.
  split; [exact A|].
  destruct (@plain_number_model_is_rejected Q Q_Number scenario_ctx 1 bg1 [method_X]
              (PyNum 0%Q) [] A) as [Y Z].
  apply Z. intros H. apply Y in H. discriminate H.
Defined.

(** ** The activities that the exchanges refer to *)

(** X15: when [actToExpression] returns, the input of every exchange that adds
    a term, in every activity of the traversal, is stored in the database
    under the key of the exchange; a foreground input is itself part of the
    traversal.  A model that refers to a missing activity gets no
    expression. *)
Theorem traversed_inputs_are_stored
    (num : Type) (NUM : Number num) (ctx : Collaborators num)
    (fuel : nat) (root x : Activity num) (e : Exchange num)
    (r : pyval num * dict string key) :
  actToExpression ctx fuel root = Some (Ok r) ->
  visits ctx root x -> In e (act_exchanges x) -> contributes e = true ->
  exists a, getAct ctx (exch_input e) = Some a
            /\ act_key a = exch_input e
            /\ (is_background ctx (fst (exch_input e)) = false -> visits ctx root a).
Proof.
  intros A V I C. unfold actToExpression in A.
  destruct (rec_func ctx fuel root []) as [[[v st]|err]|] eqn:R; simpl in A; try discriminate.
  clear A.
  assert (G : (exists a, getAct ctx (exch_input e) = Some a
                         /\ (is_background ctx (fst (exch_input e)) = false
                             -> visits ctx root a))).
  { destruct (is_background ctx (fst (exch_input e))) eqn:B.
    - assert (L : leaf ctx e = Some (exch_input e)) by (unfold leaf; now rewrite C, B).
      pose proof R as R0. apply rec_func_spec in R0 as (P & K & _).
      assert (Ik : In (exch_input e) (dict_keys st)).
      { apply K. right. exists x, e. auto. }
      apply dict_key_get in Ik as (s & Gs).
      assert (N : named_after ctx (exch_input e) s).
      { eapply pass_extends_named; [exact P| |exact Gs]. intros k0 s0 G0. discriminate G0. }
      destruct N as (a & Ga & _). exists a. split; [exact Ga|discriminate].
    - destruct (@rec_func_Ok_visits num NUM ctx root x V) as (fuel' & st' & r' & R').
      { exists fuel, [], (v, st). exact R. }
      destruct fuel' as [|fuel']; [discriminate|]. rewrite rec_func_S in R'.
      destruct (exch_loop ctx (rec_func ctx fuel') x (act_exchanges x) (initial_state st'))
        as [[s'|err]|] eqn:L; simpl in R'; try discriminate.
      destruct (@exch_loop_each num NUM ctx _ _ _ _ _ e L I) as (s1 & s2 & S).
      apply exch_step_Ok in S as [(N & _)|[(k & sym & Lf & _)|(sub & w & Cl & _)]].
      + congruence.
      + pose proof (@leaf_background num ctx e k Lf) as Bk.
        rewrite (@leaf_input num ctx e k Lf) in Bk. congruence.
      + exists sub. split.
        * unfold callee in Cl.
          destruct (contributes e && negb (is_background ctx (fst (exch_input e)))
                    && negb (py_eq (exch_input e) (act_key x))); [exact Cl|discriminate].
        * intros _. eapply visits_sub; [exact V|]. exists e. auto. }
  destruct G as (a & Ga & Va). exists a. split; [exact Ga|]. split; [|exact Va].
  eapply getAct_key. exact Ga.
Qed.

(** The second exchange of the model of the scenario. *)
Lemma traversed_inputs_on_scenario :
  exists a, getAct scenario_ctx ("fg", "subAct") = Some a
            /\ act_key a = ("fg", "subAct")
            /\ (is_background scenario_ctx "fg" = false -> visits scenario_ctx sM a).
Proof.
  apply (@traversed_inputs_are_stored Q Q_Number scenario_ctx 3 sM sM
           (exchange ("fg", "subAct") ("fg", "M") (Literal 2%Q))
           (SymE (Bin OAdd (Bin OMul (Num (1 # 2)%Q) (Sym "market_for_bg"))
                           (Bin OMul (Num 2%Q) (Sym "market_for_bg1"))),
            [("market_for_bg", ("ecoinvent", "bg1"));
             ("market_for_bg1", ("ecoinvent", "bg2"))])).
  - vm_compute. reflexivity.
  - apply visits_root.
  - simpl. auto.
  - reflexivity.
Defined.

(** ** The proxy of a biosphere flow *)

Section Proxy.
Context (num : Type) {NUM : Number num}.
Variable ctx : Collaborators num.

Lemma db_get_key (db : list (Activity num)) k a : db_get db k = Some a -> act_key a = k.
Proof. unfold db_get. intros E. apply find_some in E as [_ E]. now apply py_eq_true in E. Qed.

Lemma db_get_app (db : list (Activity num)) (a : Activity num) k :
  db_get (db ++ [a]) k
  = match db_get db k with
    | Some b => Some b
    | None => if py_eq (act_key a) k then Some a else None
    end.
Proof.
  unfold db_get. induction db as [|b db IH]; simpl; [reflexivity|].
  destruct (py_eq (act_key b) k); [reflexivity|exact IH].
Qed.

End Proxy.

(** X16: [_getOrCreateDummyBiosphereActCopy] is idempotent.  The activity it
    returns has the code of the flow followed by [#asTech], in the database
    it was asked for; a second call returns the same activity and stores
    nothing; the first call stores at most this one activity and leaves every
    stored activity where it was. *)
Theorem proxy_is_created_once
    (num : Type) (NUM : Number num) (ctx : Collaborators num)
    (db db' : list (Activity num)) (dbname code : string) (a : Activity num) :
  _getOrCreateDummyBiosphereActCopy ctx db dbname code = Ok (a, db') ->
  act_key a = (dbname, (code ++ "#asTech")%string)
  /\ _getOrCreateDummyBiosphereActCopy ctx db' dbname code = Ok (a, db')
  /\ (db' = db \/ db' = db ++ [a])
  /\ (forall k b, db_get db k = Some b -> db_get db' k = Some b).
Proof.
  unfold _getOrCreateDummyBiosphereActCopy. cbv zeta.
  destruct (db_get db (dbname, (code ++ "#asTech")%string)) as [p|] eqn:G.
  - intros E. injection E as <- <-. rewrite G.
    split; [eapply db_get_key; exact G|]. auto.
  - destruct (db_get db (BIOSPHERE3_DB_NAME ctx, code)) as [bioAct|] eqn:B; [|discriminate].
    unfold newActivity. cbv zeta. intros E. injection E as <- <-.
    split; [reflexivity|]. split; [|split].
    + rewrite db_get_app, G. unfold act_key at 1. cbn [act_database act_code].
      replace (py_eq (dbname, (code ++ "#asTech")%string) (dbname, (code ++ "#asTech")%string))
        with true; [reflexivity|].
      symmetry. unfold py_eq. destruct (eq_dec _ _); [reflexivity|congruence].
    + right. reflexivity.
    + intros k b Gk. now rewrite db_get_app, Gk.
Qed.

(** The proxy of the flow [co2] in the database [fg]. *)
Lemma proxy_is_created_once_on_co2 :
  let proxy :=
    {| act_database := "fg"; act_code := "co2#asTech"; act_name := "Carbon dioxide # asTech";
       act_exchanges := [exchange ("biosphere3", "co2") ("fg", "co2#asTech") (Literal 1%Q)] |} in
  _getOrCreateDummyBiosphereActCopy scenario_ctx (stored_activities ++ [proxy]) "fg" "co2"
  = Ok (proxy, stored_activities ++ [proxy]).
Proof.
  intros proxy.
  apply (@proxy_is_created_once Q Q_Number scenario_ctx stored_activities
           (stored_activities ++ [proxy]) "fg" "co2" proxy).
  reflexivity.
Defined.

(** ** The row labels of the table of a call *)

Section RowLabels.
Context (num : Type) {NUM : Number num}.
Variable ctx : Collaborators num.

Lemma post_index_rows (methods : list method) (lambdas : list (Lambda num)) (alpha : num)
    (ps : params num) (t : DataFrame num) :
  postMultiLCAAlgebric ctx methods lambdas alpha ps = Ok t ->
  df_index t = map Idx (seq 0 (List.length (df_rows t))).
Proof.
  unfold postMultiLCAAlgebric.
  destruct (_completeParamValues ctx ps) as [cps|err]; simpl; [|discriminate].
  destruct (param_length_loop cps 1) as [N|err]; simpl; [|discriminate].
  destruct (lambdas_loop _ _ _ _ _ _) as [res|err]; simpl; [|discriminate].
  intros E. injection E as <-. simpl. now rewrite length_map, length_seq.
Qed.

Lemma rename_index_0_one (name : string) (t : DataFrame num) :
  df_index t = map Idx (seq 0 (List.length (df_rows t))) ->
  let t' := if List.length (df_index t) =? 1 then rename_index_0 name t else t in
  df_index t'
  = if List.length (df_rows t') =? 1 then [Name name]
    else map Idx (seq 0 (List.length (df_rows t'))).
Proof.
  intros E. cbv zeta.
  assert (L : List.length (df_index t) = List.length (df_rows t))
    by (rewrite E at 1; now rewrite length_map, length_seq).
  rewrite L. destruct (List.length (df_rows t) =? 1) eqn:Q.
  - cbn [rename_index_0 df_index df_rows]. rewrite Q, E.
    apply Nat.eqb_eq in Q. rewrite Q. reflexivity.
  - rewrite Q. exact E.
Qed.

Lemma model_table_index fuel (methods : list method) (m : model_arg num)
    (ps ps' : params num) (t : DataFrame num) :
  model_table ctx fuel methods m ps = Some (Ok (ps', t)) ->
  df_index t
  = if List.length (df_rows t) =? 1 then [Name (display_name ctx m)]
    else map Idx (seq 0 (List.length (df_rows t))).
Proof.
  unfold model_table, display_name.
  destruct m as [model|model alpha]; cbn [model_of];
    (destruct (preMultiLCAAlgebric ctx fuel model methods) as [[[lambdas names]|err]|];
       simpl; try discriminate;
     destruct (_expanded_names_to_names ctx names) as [expected|err]; simpl; try discriminate;
     destruct (fill_defaults ctx expected ps) as [ps1|err]; simpl; try discriminate;
     destruct (postMultiLCAAlgebric ctx methods lambdas _ _) as [t0|err] eqn:P;
       simpl; try discriminate;
     intros E; injection E as _ <-;
     apply rename_index_0_one; eapply post_index_rows; exact P).
Qed.

End RowLabels.

(** X17: the table of a call with one model has one row per sample, labelled
    0, 1, ... in order; when there is a single row, its label is the display
    name of the model instead. *)
Theorem single_model_row_labels
    (num : Type) (NUM : Number num) (ctx : Collaborators num)
    (fuel : nat) (models : models_arg num) (m : model_arg num)
    (methods : list method) (ps : params num) (t : DataFrame num) :
  models_of models = [m] ->
  multiLCAAlgebric ctx fuel models methods ps = Some (Ok t) ->
  df_index t
  = if List.length (df_rows t) =? 1 then [Name (display_name ctx m)]
    else map Idx (seq 0 (List.length (df_rows t))).
Proof.
  intros M. unfold multiLCAAlgebric. cbv zeta.
  change (match models with Single m => [m] | ModelList ms => ms end)
    with (models_of models).
  rewrite M. cbn [models_loop]. rewrite model_step_table.
  destruct (model_table ctx fuel methods m ps) as [[[ps' t0]|err]|] eqn:T;
    simpl; try discriminate.
  intros E. injection E as <-. eapply model_table_index. exact T.
Qed.

(** One value for the parameter of the model P: a single row named
    after the model. *)
Lemma single_model_row_labels_on_pRoot :
  df_index {| df_index := [Name "model P"]; df_columns := ["X - unit"];
              df_rows := [[30%Q]] |} = [Name "model P"].
Proof.
  apply (@single_model_row_labels Q Q_Number param_ctx 1 (Single (Model pRoot))
           (Model pRoot) [method_X] [("p", Scalar 3%Q)]
           {| df_index := [Name "model P"]; df_columns := ["X - unit"];
              df_rows := [[30%Q]] |}).
  - reflexivity.
  - vm_compute. reflexivity.
Defined.
